(** * Physics-Momentum signal engine: a shallow embedding of [analysis.js]

    The repository carries two generations of [analysis.js]:

    - the one that shuffles its five data sources ([fetchCandlesFallback],
      [computeRSI], [sma], [rollingStd], [computeATR], a confidence score),
      embedded in [Module Shuffled];
    - the one that walks three sources by priority ([fetchCandlesMulti],
      [rsiFromArray], [sma], [stddev], [atrFromCandles],
      [computeVelocityAcceleration]), embedded in [Module Priority].

    Numbers.  A JavaScript number is embedded as [jsnum]: a rational for a
    finite double, and the three non-finite doubles [PInf], [NInf], [NaN]
    with their IEEE-754 rules.  Finite arithmetic is exact (no rounding, no
    overflow, a single zero); [Math.sqrt] on a finite non-negative argument is
    a parameter [sqrtQ] of the development.  [null] and [undefined] are the
    two extra constructors of [jsval], with the coercions [ToNumber] and
    [ToBoolean] that the source relies on.

    Rounding keeps the order of two numbers but not their distance.  The
    properties of the stop, the target, the bands and the acceleration are
    therefore stated as weak order and as zeros, and the risk-reward ratio of
    2 for whole numbers far below [2^53], on which the arithmetic of doubles
    is exact as well.

    Timestamps.  The row mappings keep the timestamp of a row as the
    provider sent it, a JSON number or a string, and the code only ever
    compares two of them with [>]; [stamp] keeps what that comparison
    reads. *)

From Stdlib Require Import String DecimalString.
From Stdlib Require Import QArith Qround Qabs ZArith List Lia Lqa Bool.
From Stdlib Require Import Permutation Sorted.
Import ListNotations.

Local Open Scope nat_scope.

(* ================================================================== *)
(** ** JavaScript numbers and values *)

Module JS.

Local Open Scope Q_scope.

Inductive jsnum : Type :=
| Fin (q : Q)
| PInf
| NInf
| NaN.

Inductive jsval : Type :=
| VUndef
| VNull
| VNum (x : jsnum).

(** Equality of numbers as values: rationals are compared by [Qeq]. *)
Definition jeq (x y : jsnum) : Prop :=
  match x, y with
  | Fin a, Fin b => a == b
  | PInf, PInf | NInf, NInf | NaN, NaN => True
  | _, _ => False
  end.

Definition is_zero (q : Q) : bool := Qeq_bool q 0.
Definition is_pos (q : Q) : bool := negb (Qle_bool q 0).
Definition is_neg (q : Q) : bool := negb (Qle_bool 0 q).

(** [-x] *)
Definition jopp (x : jsnum) : jsnum :=
  match x with
  | Fin a => Fin (- a)
  | PInf => NInf
  | NInf => PInf
  | NaN => NaN
  end.

(** [x + y] *)
Definition jadd (x y : jsnum) : jsnum :=
  match x, y with
  | NaN, _ | _, NaN => NaN
  | Fin a, Fin b => Fin (a + b)
  | PInf, NInf | NInf, PInf => NaN
  | PInf, _ | _, PInf => PInf
  | NInf, _ | _, NInf => NInf
  end.

(** [x - y] *)
Definition jsub (x y : jsnum) : jsnum := jadd x (jopp y).

(** The infinity with the sign of [q] times the sign of [pos]; [0 * Infinity]
    is [NaN]. *)
Definition inf_signed (pos : bool) (q : Q) : jsnum :=
  if is_zero q then NaN
  else if Bool.eqb pos (is_pos q) then PInf else NInf.

(** [x * y] *)
Definition jmul (x y : jsnum) : jsnum :=
  match x, y with
  | NaN, _ | _, NaN => NaN
  | Fin a, Fin b => Fin (a * b)
  | PInf, Fin q | Fin q, PInf => inf_signed true q
  | NInf, Fin q | Fin q, NInf => inf_signed false q
  | PInf, PInf | NInf, NInf => PInf
  | PInf, NInf | NInf, PInf => NInf
  end.

(** [x / y].  A finite non-zero number over zero is an infinity, [0 / 0] and
    [Infinity / Infinity] are [NaN]. *)
Definition jdiv (x y : jsnum) : jsnum :=
  match x, y with
  | NaN, _ | _, NaN => NaN
  | Fin a, Fin b =>
      if is_zero b then
        (if is_zero a then NaN else if is_pos a then PInf else NInf)
      else Fin (a / b)
  | Fin _, PInf | Fin _, NInf => Fin 0
  | PInf, Fin b => if is_neg b then NInf else PInf
  | NInf, Fin b => if is_neg b then PInf else NInf
  | _, _ => NaN
  end.

(** [Math.abs] *)
Definition jabs (x : jsnum) : jsnum :=
  match x with
  | Fin a => Fin (Qabs a)
  | PInf | NInf => PInf
  | NaN => NaN
  end.

(** [x < y]; every comparison with [NaN] is false. *)
Definition jlt (x y : jsnum) : bool :=
  match x, y with
  | NaN, _ | _, NaN => false
  | Fin a, Fin b => negb (Qle_bool b a)
  | NInf, NInf | PInf, _ | _, NInf => false
  | NInf, _ | _, PInf => true
  end.

Definition jgt (x y : jsnum) : bool := jlt y x.

(** [x >= y] *)
Definition jge (x y : jsnum) : bool :=
  match x, y with
  | NaN, _ | _, NaN => false
  | Fin a, Fin b => Qle_bool b a
  | PInf, _ | _, NInf => true
  | _, PInf | NInf, _ => false
  end.

(** [x === y] on numbers. *)
Definition jeqb (x y : jsnum) : bool :=
  match x, y with
  | Fin a, Fin b => Qeq_bool a b
  | PInf, PInf | NInf, NInf => true
  | _, _ => false
  end.

(** [Math.min] and [Math.max] of two numbers: [NaN] wins. *)
Definition jmin (x y : jsnum) : jsnum :=
  match x, y with
  | NaN, _ | _, NaN => NaN
  | _, _ => if jlt y x then y else x
  end.

Definition jmax (x y : jsnum) : jsnum :=
  match x, y with
  | NaN, _ | _, NaN => NaN
  | _, _ => if jlt x y then y else x
  end.

(** [Math.round]: the integer nearest to [x], ties towards [+Infinity]. *)
Definition jround (x : jsnum) : jsnum :=
  match x with
  | Fin a => Fin (inject_Z (Qfloor (a + (1 # 2))))
  | _ => x
  end.

(** [Math.pow(x, 2)] *)
Definition jsquare (x : jsnum) : jsnum := jmul x x.

(** [Math.sqrt], over the square root [sqrtQ] of the non-negative
    rationals. *)
Definition jsqrt (sqrtQ : Q -> Q) (x : jsnum) : jsnum :=
  match x with
  | Fin a => if is_neg a then NaN else Fin (sqrtQ a)
  | PInf => PInf
  | NInf | NaN => NaN
  end.

(** [Number(x.toFixed(d))]: [x] rounded to [d] decimals, ties away from zero;
    [toFixed] prints a number of magnitude [1e21] or more in full. *)
Definition pow10 (d : nat) : Q := inject_Z (10 ^ Z.of_nat d).

Definition toFixed (d : nat) (x : jsnum) : jsnum :=
  match x with
  | Fin a =>
      if Qle_bool (pow10 21) (Qabs a) then Fin a
      else
        let n := inject_Z (Qfloor (Qabs a * pow10 d + (1 # 2))) / pow10 d in
        Fin (if is_neg a then - n else n)
  | _ => x
  end.

(** [ToBoolean] on a number: [0] and [NaN] are falsy. *)
Definition truthy (x : jsnum) : bool :=
  match x with
  | Fin a => negb (is_zero a)
  | PInf | NInf => true
  | NaN => false
  end.

(** [x || y] on numbers. *)
Definition jor (x y : jsnum) : jsnum := if truthy x then x else y.

(** [ToNumber] *)
Definition toNumber (v : jsval) : jsnum :=
  match v with
  | VUndef => NaN
  | VNull => Fin 0
  | VNum x => x
  end.

(** [ToBoolean] *)
Definition vtruthy (v : jsval) : bool :=
  match v with
  | VUndef | VNull => false
  | VNum x => truthy x
  end.

(** [v || d] where [d] is a number. *)
Definition vor (v : jsval) (d : jsnum) : jsval :=
  if vtruthy v then v else VNum d.

(** [v === null] *)
Definition is_null (v : jsval) : bool :=
  match v with VNull => true | _ => false end.

(** [x === null || x === undefined || Number.isNaN(x)] *)
Definition is_missing (v : jsval) : bool :=
  match v with
  | VNull | VUndef | VNum NaN => true
  | _ => false
  end.

(** A natural number used as a JavaScript number (a length, a period). *)
Definition ofNat (n : nat) : jsnum := Fin (inject_Z (Z.of_nat n)).
Definition ofZ (z : Z) : jsnum := Fin (inject_Z z).

(** [arr[i]] on an array of numbers used in arithmetic: a read past the end
    is [undefined], which arithmetic turns into [NaN]. *)
Definition at_num (arr : list jsnum) (i : nat) : jsnum := nth i arr NaN.

(** [arr[i]] on an array of values. *)
Definition at_val (arr : list jsval) (i : nat) : jsval := nth i arr VUndef.

(** [arr.slice(a, b)] for [0 <= a]. *)
Definition slice {A : Type} (a b : nat) (arr : list A) : list A :=
  firstn (b - a) (skipn a arr).

(** [arr.reduce((a, b) => a + b, 0)] *)
Definition sum (arr : list jsnum) : jsnum := fold_left jadd arr (Fin 0).

End JS.
Import JS.

(* ================================================================== *)
(** ** Data shared by the two generations *)

(** The timestamp of a row after the row mapping: [c[0]] (or [c.t],
    [c.timestamp]) as the provider sent it, which the array branches never
    convert; only the object branch of the priority generation applies
    [Number].  The code uses a timestamp in one place, the comparison
    [first > last] of the normalisation.  [>] brings both sides to a
    primitive; two strings are then compared code unit by code unit, any
    other pair through [ToNumber].  A timestamp is kept as what [>] reads:
    for a string, its text and the number [ToNumber] makes of it; for any
    other value, its number.  The characters of the text stand for its code
    units, which are below 256 in the digits, signs and letters of a
    provider's timestamp.  [ToNumber] of a text is not computed: the number
    comes with the text, so that a statement about every timestamp holds of
    every string whatever its number is, and the concrete series pair each
    text with the number it denotes. *)
Inductive stamp : Type :=
| Text (s : string) (n : jsnum)
| Plain (n : jsnum).

(** [ToNumber] of a timestamp. *)
Definition number (a : stamp) : jsnum :=
  match a with
  | Text _ n | Plain n => n
  end.

(** [a > b] on two timestamps. *)
Definition stamp_gt (a b : stamp) : bool :=
  match a, b with
  | Text s _, Text s' _ => String.ltb s' s
  | _, _ => jgt (number a) (number b)
  end.

(** One OHLCV observation after the row mapping of the fetcher: the
    timestamp is the provider's open time as received, the five prices have
    gone through [Number] / [parseFloat]. *)
Record candle : Type := mkCandle {
  t : stamp;
  open : jsnum;
  high : jsnum;
  low : jsnum;
  close : jsnum;
  vol : jsnum
}.

Inductive Side : Type := LONG | SHORT.

(** How an [async] function ends. *)
Inductive outcome (A : Type) : Type :=
| Returned (a : A)
| Raised (message : string).
Arguments Returned {A} a.
Arguments Raised {A} message.

(** What one walk through the [try] block of a fetcher produces for one
    source, up to the test on the number of candles.  The HTTP exchange and
    the shape of the payload are the environment's; the order of the mapped
    rows is the order of the payload. *)
Inductive attempt : Type :=
| Throws          (** [axios.get] rejects (network error, timeout, HTTP
                      status), ['No data'], or a [TypeError] while mapping *)
| NoUsableFormat  (** no recognised shape, or a response that is not OK *)
| Mapped (candles : list candle).

(** [arr[i]] on an array of numbers, as a value. *)
Definition at_numv (arr : list jsnum) (i : nat) : jsval :=
  match nth_error arr i with
  | Some x => VNum x
  | None => VUndef
  end.

(** [if (candles[0].t > candles[candles.length - 1].t) candles = candles.reverse()] *)
Definition chronological (candles : list candle) : list candle :=
  match candles with
  | [] => candles
  | c0 :: _ =>
      if stamp_gt (t c0) (t (last candles c0)) then rev candles else candles
  end.

(** [arr.slice(-limit)] *)
Definition slice_last {A : Type} (limit : Z) (arr : list A) : list A :=
  let len := Z.of_nat (length arr) in
  let start :=
    if (- limit <? 0)%Z then Z.max (len - limit) 0 else Z.min (- limit) len in
  skipn (Z.to_nat start) arr.

(** [[arr[i], arr[j]] = [arr[j], arr[i]]].  Both indices are inside the
    array whenever [j] comes from [Math.floor(Math.random() * (i + 1))]. *)
Fixpoint upd {A : Type} (i : nat) (x : A) (arr : list A) : list A :=
  match arr, i with
  | [], _ => []
  | _ :: tl, O => x :: tl
  | y :: tl, S i' => y :: upd i' x tl
  end.

Definition swap {A : Type} (i j : nat) (arr : list A) : list A :=
  match nth_error arr i, nth_error arr j with
  | Some x, Some y => upd i y (upd j x arr)
  | _, _ => arr
  end.

(** The loop [for (let i = n - 1; i > 0; i--)] of the shuffle; [rnd i] is the
    value of [Math.floor(Math.random() * (i + 1))] drawn at iteration [i]. *)
Fixpoint shuffle_from {A : Type} (rnd : nat -> nat) (i : nat) (arr : list A)
  : list A :=
  match i with
  | O => arr
  | S i' => shuffle_from rnd i' (swap i (rnd i) arr)
  end.

Definition shuffle {A : Type} (rnd : nat -> nat) (arr : list A) : list A :=
  shuffle_from rnd (length arr - 1) arr.

(** The successive states of a loop that folds [step] over [ds]. *)
Fixpoint run {S D : Type} (step : S -> D -> S) (st : S) (ds : list D)
  : list S :=
  match ds with
  | [] => []
  | d :: ds' => let st' := step st d in st' :: run step st' ds'
  end.

(** [symbol.includes('/') ? symbol : symbol.replace('USDT', '/USDT')] *)
Definition cleanSymbol (symbol : string) : string :=
  match index 0 "/" symbol with
  | Some _ => symbol
  | None =>
      match index 0 "USDT" symbol with
      | Some k =>
          (substring 0 k symbol ++ "/USDT"
             ++ substring (k + 4) (String.length symbol - (k + 4)) symbol)%string
      | None => symbol
      end
  end.

(** [arr.map((x, idx) => f idx x)] *)
Fixpoint mapi_from {A B : Type} (f : nat -> A -> B) (i : nat) (arr : list A)
  : list B :=
  match arr with
  | [] => []
  | x :: tl => f i x :: mapi_from f (S i) tl
  end.

Definition mapi {A B : Type} (f : nat -> A -> B) (arr : list A) : list B :=
  mapi_from f 0 arr.

(** The loop [for (let i = 1; i < n; i++) out.push(f(i))] *)
Definition for_from (start n : nat) {B : Type} (f : nat -> B) : list B :=
  map f (seq start (n - start)).

(** Wilder smoothing [((prev * (period - 1)) + x) / period] *)
Definition wilder (period : nat) (prev x : jsnum) : jsnum :=
  jdiv (jadd (jmul prev (ofZ (Z.of_nat period - 1))) x) (ofNat period).

(** The true-range loop of [computeATR] and [atrFromCandles]. *)
Definition trueRanges (highs lows closes : list jsnum) : list jsnum :=
  for_from 1 (length closes) (fun i =>
    jmax (jmax (jsub (at_num highs i) (at_num lows i))
               (jabs (jsub (at_num highs i) (at_num closes (i - 1)))))
         (jabs (jsub (at_num lows i) (at_num closes (i - 1))))).

(** The price levels of a signal: [(sl, tp)]. *)
Definition priceLevels (side : Side) (entry lastAtr : jsnum) : jsnum * jsnum :=
  match side with
  | LONG => (jsub entry (jmul (Fin (3 # 2)) lastAtr),
             jadd entry (jmul (Fin 3) lastAtr))
  | SHORT => (jadd entry (jmul (Fin (3 # 2)) lastAtr),
              jsub entry (jmul (Fin 3) lastAtr))
  end.

(** [(Math.abs(tp - entry) / Math.abs(entry - sl)) || null] *)
Definition riskReward (entry sl tp : jsnum) : jsval :=
  let ratio := jdiv (jabs (jsub tp entry)) (jabs (jsub entry sl)) in
  if truthy ratio then VNum ratio else VNull.

(* ================================================================== *)
(** ** The generation with shuffled sources *)

Module Shuffled.

Inductive source : Type :=
| BinanceFutures | BinanceSpot | BybitV5 | Bitget | OKX.

Definition DATA_SOURCES : list source :=
  [BinanceFutures; BinanceSpot; BybitV5; Bitget; OKX].

(** The loop [for (const src of sources)] of [fetchCandlesFallback]. *)
Fixpoint fetch_from (net : source -> attempt) (limit : Z)
  (sources : list source) : outcome (list candle) :=
  match sources with
  | [] => Raised "All data sources failed"
  | src :: rest =>
      match net src with
      | Throws => fetch_from net limit rest
      | NoUsableFormat => fetch_from net limit rest
      | Mapped candles =>
          if 30 <=? length candles
          then Returned (slice_last limit (chronological candles))
          else fetch_from net limit rest
      end
  end.

Definition fetchCandlesFallback (rnd : nat -> nat) (net : source -> attempt)
  (limit : Z) : outcome (list candle) :=
  fetch_from net limit (shuffle rnd DATA_SOURCES).

(** *** Indicators *)

Definition deltas (prices : list jsnum) : list jsnum :=
  for_from 1 (length prices) (fun i =>
    jsub (at_num prices i) (at_num prices (i - 1))).

(** The first average gain and loss of [computeRSI]. *)
Definition seedAverages (ds : list jsnum) (period : nat) : jsnum * jsnum :=
  let '(gains, losses) :=
    fold_left (fun '(gains, losses) i =>
                 let d := at_num ds i in
                 if jge d (Fin 0) then (jadd gains d, losses)
                 else (gains, jadd losses (jabs d)))
              (seq 0 period) (Fin 0, Fin 0) in
  (jdiv gains (ofNat period), jdiv losses (ofNat period)).

Definition smoothAverages (period : nat) (st : jsnum * jsnum) (d : jsnum)
  : jsnum * jsnum :=
  let '(avgGain, avgLoss) := st in
  let gain := if jgt d (Fin 0) then d else Fin 0 in
  let loss := if jlt d (Fin 0) then jabs d else Fin 0 in
  (wilder period avgGain gain, wilder period avgLoss loss).

(** The running [(avgGain, avgLoss)] of [computeRSI], one pair for each
    index from [period] on. *)
Definition rsiAverages (prices : list jsnum) (period : nat)
  : list (jsnum * jsnum) :=
  let ds := deltas prices in
  let st0 := seedAverages ds period in
  st0 :: run (smoothAverages period) st0 (skipn period ds).

(** [rs = avgLoss === 0 ? 100 : avgGain / avgLoss; 100 - (100 / (1 + rs))] *)
Definition rsiValue (st : jsnum * jsnum) : jsnum :=
  let '(avgGain, avgLoss) := st in
  let rs := if jeqb avgLoss (Fin 0) then Fin 100 else jdiv avgGain avgLoss in
  jsub (Fin 100) (jdiv (Fin 100) (jadd (Fin 1) rs)).

Definition computeRSI (prices : list jsnum) (period : nat) : list jsval :=
  if length prices <? period + 1 then repeat VNull (length prices)
  else repeat VNull period
         ++ map (fun st => VNum (rsiValue st)) (rsiAverages prices period).

(** [win.reduce((a, b) => a + (Number(b) || 0), 0) / win.length] over the
    window [arr.slice(Math.max(0, i - period + 1), i + 1)]. *)
Definition sma (arr : list jsnum) (period : nat) : list jsnum :=
  for_from 0 (length arr) (fun i =>
    let win := slice (i + 1 - period) (i + 1) arr in
    jdiv (fold_left (fun a b => jadd a (jor b (Fin 0))) win (Fin 0))
         (ofNat (length win))).

Section WithSqrt.

Variable sqrtQ : Q -> Q.

Definition rollingStd (arr : list jsnum) (period : nat) : list jsnum :=
  for_from 0 (length arr) (fun i =>
    let win := slice (i + 1 - period) (i + 1) arr in
    let mean := jdiv (sum win) (ofNat (length win)) in
    let variance :=
      jdiv (fold_left (fun a b => jadd a (jsquare (jsub b mean))) win (Fin 0))
           (ofNat (length win)) in
    jsqrt sqrtQ variance).

Definition computeATR (highs lows closes : list jsnum) (period : nat)
  : list jsval :=
  let trs := trueRanges highs lows closes in
  if length trs <? period then
    let avg := jdiv (sum trs) (jor (ofNat (length trs)) (Fin 1)) in
    repeat (VNum avg) (length closes)
  else
    let initial := jdiv (sum (slice 0 period trs)) (ofNat period) in
    (* the leading nulls are filled with [atrs.find(x => x !== null) || 0] *)
    repeat (VNum (jor initial (Fin 0))) period
      ++ map VNum (initial :: run (wilder period) initial (skipn period trs)).

(** *** The decision *)

Record meta_t : Type := mkMeta {
  meta_rsi : jsnum;
  meta_lowerBB : jsnum;
  meta_upperBB : jsnum;
  meta_acceleration : jsnum;
  meta_atr : jsnum;
  meta_close : jsnum
}.

Record signal : Type := mkSignal {
  symbol : string;
  side : Side;
  entry : jsnum;
  tp : jsnum;
  sl : jsnum;
  rr : jsval;
  confidence : jsnum;
  meta : meta_t
}.

(** The indicator values at the last index. *)
Record snapshot : Type := mkSnapshot {
  lastClose : jsval;
  lastRsi : jsval;
  lastLowerBB : jsval;
  lastUpperBB : jsval;
  lastA : jsval;
  lastAtr : jsval
}.

Definition priceChanges (closes : list jsnum) : list jsnum :=
  for_from 0 (length closes) (fun i =>
    let prev := if i =? 0 then at_num closes 0 else at_num closes (i - 1) in
    jsub (at_num closes i) prev).

Definition acceleration (vArr : list jsnum) : list jsnum :=
  for_from 0 (length vArr) (fun i =>
    if i =? 0 then Fin 0 else jsub (at_num vArr i) (at_num vArr (i - 1))).

Definition upperBand (sma20 std20 : list jsnum) : list jsnum :=
  mapi (fun idx m =>
          jadd m (jmul (Fin 2) (toNumber (vor (at_numv std20 idx) (Fin 0)))))
       sma20.

Definition lowerBand (sma20 std20 : list jsnum) : list jsnum :=
  mapi (fun idx m =>
          jsub m (jmul (Fin 2) (toNumber (vor (at_numv std20 idx) (Fin 0)))))
       sma20.

Definition indicators (candles : list candle) : snapshot :=
  let highs := map high candles in
  let lows := map low candles in
  let closes := map close candles in
  let rsiArr := computeRSI closes 14 in
  let sma20 := sma closes 20 in
  let std20 := rollingStd closes 20 in
  let upperBB := upperBand sma20 std20 in
  let lowerBB := lowerBand sma20 std20 in
  let vArr := sma (priceChanges closes) 3 in
  let aArr := acceleration vArr in
  let atrArr := computeATR highs lows closes 14 in
  let idx := length closes - 1 in
  {| lastClose := at_numv closes idx;
     lastRsi := at_val rsiArr idx;
     lastLowerBB := at_numv lowerBB idx;
     lastUpperBB := at_numv upperBB idx;
     lastA := at_numv aArr idx;
     lastAtr := at_val atrArr idx |}.

(** The entry rules: two independent [if]s, the second overrides the first. *)
Definition entryRule (s : snapshot) : option Side :=
  let side :=
    if jlt (toNumber (lastRsi s)) (Fin 30)
       && jlt (toNumber (lastClose s)) (toNumber (lastLowerBB s))
       && jgt (toNumber (lastA s)) (Fin 0)
    then Some LONG else None in
  if jgt (toNumber (lastRsi s)) (Fin 70)
     && jgt (toNumber (lastClose s)) (toNumber (lastUpperBB s))
     && jlt (toNumber (lastA s)) (Fin 0)
  then Some SHORT else side.

(** The confidence block. *)
Definition confidenceScore (sd : Side) (lastRsi lastA entry lastAtr : jsnum)
  : jsnum :=
  let c0 := Fin 70 in
  let c1 :=
    match sd with
    | LONG => jadd c0 (jmin (Fin 15) (jsub (Fin 30) lastRsi))
    | SHORT => jadd c0 (jmin (Fin 15) (jsub lastRsi (Fin 70)))
    end in
  let accScore :=
    jmin (Fin 10) (jmul (jdiv (jabs lastA) (jor entry (Fin 1))) (Fin 1000)) in
  let c2 := jadd c1 accScore in
  let atrRel := jdiv lastAtr (jor entry (Fin 1)) in
  let c3 := if jlt atrRel (Fin (5 # 1000)) then jadd c2 (Fin 5) else c2 in
  jmax (Fin 30) (jmin (Fin 95) (jround c3)).

(** [analyzePhysics] from the validation of the indicators on. *)
Definition decide (cleanSym : string) (s : snapshot) : option signal :=
  if is_null (lastRsi s) || is_null (lastLowerBB s)
     || is_null (lastUpperBB s) || is_null (lastAtr s)
  then None
  else
    match entryRule s with
    | None => None
    | Some sd =>
        let entry := toNumber (lastClose s) in
        let '(sl, tp) := priceLevels sd entry (toNumber (lastAtr s)) in
        let rr := riskReward entry sl tp in
        let confidence :=
          confidenceScore sd (toNumber (lastRsi s)) (toNumber (lastA s))
                          entry (toNumber (lastAtr s)) in
        Some {| symbol := cleanSym;
                side := sd;
                entry := entry;
                tp := tp;
                sl := sl;
                rr := if vtruthy rr then VNum (toFixed 2 (toNumber rr))
                      else VNull;
                confidence := confidence;
                meta :=
                  {| meta_rsi := toFixed 2 (toNumber (vor (lastRsi s) (Fin 0)));
                     meta_lowerBB :=
                       toFixed 8 (toNumber (vor (lastLowerBB s) (Fin 0)));
                     meta_upperBB :=
                       toFixed 8 (toNumber (vor (lastUpperBB s) (Fin 0)));
                     meta_acceleration :=
                       toFixed 8 (toNumber (vor (lastA s) (Fin 0)));
                     meta_atr := toFixed 8 (toNumber (vor (lastAtr s) (Fin 0)));
                     meta_close := toNumber (lastClose s) |} |}
    end.

(** [analyzePhysics] once the candles are there. *)
Definition analyzeCandles (cleanSym : string) (candles : list candle)
  : option signal :=
  if length candles <? 40 then None
  else decide cleanSym (indicators candles).

(** [analyzePhysics(symbol, opts)]: every exception of the body, the one of
    the fetcher included, ends in [catch (err) { return null }]. *)
Definition analyzePhysics (rnd : nat -> nat) (net : source -> attempt)
  (sym : string) (optLimit : Z) : outcome (option signal) :=
  let cleanSym := cleanSymbol sym in
  let limit := if (optLimit =? 0)%Z then 200%Z else optLimit in
  match fetchCandlesFallback rnd net limit with
  | Raised _ => Returned None
  | Returned candles => Returned (analyzeCandles cleanSym candles)
  end.

End WithSqrt.

End Shuffled.

(* ================================================================== *)
(** ** The generation with sources walked by priority *)

Module Priority.

Inductive source : Type := BinanceFapi | BinanceApi | Bybit.

Definition priority (s : source) : Z :=
  match s with
  | BinanceFapi => 1
  | BinanceApi => 2
  | Bybit => 3
  end%Z.

Definition DATA_SOURCES : list source := [BinanceFapi; BinanceApi; Bybit].

(** [[...DATA_SOURCES].sort((a, b) => a.priority - b.priority)], a stable
    sort. *)
Fixpoint insert_by_priority (s : source) (sorted : list source) : list source :=
  match sorted with
  | [] => [s]
  | x :: tl =>
      if (priority s - priority x <? 0)%Z then s :: sorted
      else x :: insert_by_priority s tl
  end.

Definition sort_by_priority (l : list source) : list source :=
  fold_right insert_by_priority [] l.

(** The loop [for (const s of sources)] of [fetchCandlesMulti]; the function
    ends in [return null], it has no [throw] of its own. *)
Fixpoint fetch_from (net : source -> attempt) (sources : list source)
  : outcome (option (list candle)) :=
  match sources with
  | [] => Returned None
  | s :: rest =>
      match net s with
      | Throws => fetch_from net rest
      | NoUsableFormat => fetch_from net rest
      | Mapped candles =>
          if 30 <=? length candles
          then Returned (Some (chronological candles))
          else fetch_from net rest
      end
  end.

Definition fetchCandlesMulti (net : source -> attempt)
  : outcome (option (list candle)) :=
  fetch_from net (sort_by_priority DATA_SOURCES).

(** *** Indicators *)

Definition sma (arr : list jsnum) (len : nat) : list jsval :=
  for_from 0 (length arr) (fun i =>
    if i + 1 <? len then VNull
    else
      let win := slice (i + 1 - len) (i + 1) arr in
      VNum (jdiv (sum win) (ofNat len))).

Section WithSqrt.

Variable sqrtQ : Q -> Q.

Definition stddev (arr : list jsnum) (len : nat) : list jsval :=
  for_from 0 (length arr) (fun i =>
    if i + 1 <? len then VNull
    else
      let win := slice (i + 1 - len) (i + 1) arr in
      let mean := jdiv (sum win) (ofNat len) in
      let variance :=
        jdiv (fold_left (fun a b => jadd a (jsquare (jsub b mean))) win (Fin 0))
             (ofNat len) in
      VNum (jsqrt sqrtQ variance)).

Definition changes (closes : list jsnum) : list jsnum :=
  for_from 1 (length closes) (fun i =>
    jsub (at_num closes i) (at_num closes (i - 1))).

Definition seedAverages (cs : list jsnum) (period : nat) : jsnum * jsnum :=
  let '(gains, losses) :=
    fold_left (fun '(gains, losses) i =>
                 let v := at_num cs i in
                 if jgt v (Fin 0) then (jadd gains v, losses)
                 else (gains, jadd losses (jabs v)))
              (seq 0 period) (Fin 0, Fin 0) in
  (jdiv gains (ofNat period), jdiv losses (ofNat period)).

Definition smoothAverages (period : nat) (st : jsnum * jsnum) (c : jsnum)
  : jsnum * jsnum :=
  let '(avgGain, avgLoss) := st in
  let gain := if jgt c (Fin 0) then c else Fin 0 in
  let loss := if jlt c (Fin 0) then jabs c else Fin 0 in
  (wilder period avgGain gain, wilder period avgLoss loss).

(** The running [(avgGain, avgLoss)] of [rsiFromArray], one pair for each
    index from [period] on. *)
Definition rsiAverages (closes : list jsnum) (period : nat)
  : list (jsnum * jsnum) :=
  let cs := changes closes in
  let st0 := seedAverages cs period in
  st0 :: run (smoothAverages period) st0 (skipn period cs).

(** [avgLoss === 0 ? 100 : 100 - (100 / (1 + avgGain / avgLoss))] *)
Definition rsiValue (st : jsnum * jsnum) : jsnum :=
  let '(avgGain, avgLoss) := st in
  if jeqb avgLoss (Fin 0) then Fin 100
  else jsub (Fin 100) (jdiv (Fin 100) (jadd (Fin 1) (jdiv avgGain avgLoss))).

Definition rsiFromArray (closes : list jsnum) (period : nat) : list jsval :=
  if length (changes closes) <? period then repeat VNull (length closes)
  else repeat VNull period
         ++ map (fun st => VNum (rsiValue st)) (rsiAverages closes period).

Definition atrFromCandles (highs lows closes : list jsnum) (period : nat)
  : list jsval :=
  let trs := trueRanges highs lows closes in
  if length trs <? period then repeat VNull (length closes)
  else
    let prevAtr :=
      jdiv (fold_left (fun s i => jadd s (at_num trs i)) (seq 0 period) (Fin 0))
           (ofNat period) in
    repeat VNull period
      ++ map VNum (prevAtr :: run (wilder period) prevAtr (skipn period trs)).

(** [computeVelocityAcceleration]: the pair [{ v, a }]. *)
Definition priceChange (closes : list jsnum) : list jsval :=
  VNull :: for_from 1 (length closes) (fun i =>
             VNum (jsub (at_num closes i) (at_num closes (i - 1)))).

Definition velocity (pc : list jsval) : list jsval :=
  for_from 0 (length pc) (fun i =>
    if i <? 2 then VNull
    else
      let term k := toNumber (vor (at_val pc k) (Fin 0)) in
      VNum (jdiv (jadd (jadd (term i) (term (i - 1))) (term (i - 2))) (Fin 3))).

Definition accelerationOf (v : list jsval) : list jsval :=
  VNull :: for_from 1 (length v) (fun i =>
             if is_null (at_val v i) || is_null (at_val v (i - 1)) then VNull
             else VNum (jsub (toNumber (at_val v i))
                             (toNumber (at_val v (i - 1))))).

Definition computeVelocityAcceleration (closes : list jsnum)
  : list jsval * list jsval :=
  let v := velocity (priceChange closes) in
  (v, accelerationOf v).

(** *** The decision *)

Record signal : Type := mkSignal {
  symbol : string;
  side : Side;
  entry : jsnum;
  tp : jsnum;
  sl : jsnum;
  rr : jsnum
}.

Record snapshot : Type := mkSnapshot {
  lastClose : jsval;
  lastRsi : jsval;
  lastLower : jsval;
  lastUpper : jsval;
  lastA : jsval;
  lastAtr : jsval
}.

Definition bbUpper (ma20Arr sd20Arr : list jsval) : list jsval :=
  mapi (fun i m =>
          if is_null m then VNull
          else VNum (jadd (toNumber m)
                          (jmul (Fin 2) (toNumber (at_val sd20Arr i)))))
       ma20Arr.

Definition bbLower (ma20Arr sd20Arr : list jsval) : list jsval :=
  mapi (fun i m =>
          if is_null m then VNull
          else VNum (jsub (toNumber m)
                          (jmul (Fin 2) (toNumber (at_val sd20Arr i)))))
       ma20Arr.

Definition indicators (candles : list candle) : snapshot :=
  let highs := map high candles in
  let lows := map low candles in
  let closes := map close candles in
  let rsiArr := rsiFromArray closes 14 in
  let ma20Arr := sma closes 20 in
  let sd20Arr := stddev closes 20 in
  let atrArr := atrFromCandles highs lows closes 14 in
  let '(vArr, aArr) := computeVelocityAcceleration closes in
  let idx := length closes - 1 in
  {| lastClose := at_numv closes idx;
     lastRsi := at_val rsiArr idx;
     lastLower := at_val (bbLower ma20Arr sd20Arr) idx;
     lastUpper := at_val (bbUpper ma20Arr sd20Arr) idx;
     lastA := at_val aArr idx;
     lastAtr := at_val atrArr idx |}.

(** The entry rules: [if ... else if ... else]. *)
Definition entryRule (s : snapshot) : option Side :=
  if jlt (toNumber (lastRsi s)) (Fin 30)
     && jlt (toNumber (lastClose s)) (toNumber (lastLower s))
     && jgt (toNumber (lastA s)) (Fin 0)
  then Some LONG
  else if jgt (toNumber (lastRsi s)) (Fin 70)
          && jgt (toNumber (lastClose s)) (toNumber (lastUpper s))
          && jlt (toNumber (lastA s)) (Fin 0)
  then Some SHORT
  else None.

(** [analyzePhysics] from the validation of the indicators on. *)
Definition decide (sym : string) (s : snapshot) : option signal :=
  if existsb is_missing
       [lastRsi s; lastLower s; lastUpper s; lastA s; lastAtr s]
  then None
  else
    match entryRule s with
    | None => None
    | Some sd =>
        let entry := toNumber (lastClose s) in
        let '(sl, tp) := priceLevels sd entry (toNumber (lastAtr s)) in
        let rr := riskReward entry sl tp in
        Some {| symbol := sym;
                side := sd;
                entry := entry;
                tp := tp;
                sl := sl;
                rr := toNumber rr |}
    end.

Definition analyzeCandles (sym : string) (candles : list candle)
  : option signal :=
  if length candles <? 40 then None
  else decide sym (indicators candles).

(** [analyzePhysics(symbol)]: the body sits in [try { ... } catch (e)
    { return null }]. *)
Definition analyzePhysics (net : source -> attempt) (sym : string)
  : outcome (option signal) :=
  match fetchCandlesMulti net with
  | Raised _ => Returned None
  | Returned None => Returned None
  | Returned (Some candles) => Returned (analyzeCandles sym candles)
  end.

End WithSqrt.

End Priority.

(* ================================================================== *)
(** ** A helper of the shuffled generation that nothing calls *)

(** [rolling(arr, window, idx)]:
    [arr.slice(Math.max(0, idx - window + 1), idx + 1)] *)
Definition rolling {A : Type} (arr : list A) (window idx : nat) : list A :=
  slice (idx + 1 - window) (idx + 1) arr.

(* ================================================================== *)
(** ** The bots around the engine

    The repository carries two generations of [index.js] as well: the
    polling bot that calls the shuffled engine with [{ limit: 120 }] and
    retries a failed delivery, embedded in [Module Bot], and the webhook bot
    that calls the priority engine, embedded in [Module WebhookBot].  Both
    keep their subscribers and the signals they have sent in two JSON files.

    The environment.  The clock is a parameter of every function that reads
    [Date.now()] or [new Date()]; what [bot.sendMessage] does is an oracle;
    the [setTimeout] pauses have no counterpart. *)

(** A JSON file of a bot.  The bots write arrays of their own records only;
    a file that is missing, truncated or otherwise not parseable makes
    [JSON.parse(fs.readFileSync(file))] throw. *)
Inductive file (A : Type) : Type :=
| Unreadable
| Rows (rows : list A).
Arguments Unreadable {A}.
Arguments Rows {A} rows.

(** [try { return JSON.parse(fs.readFileSync(file)) } catch (e) { return [] }] *)
Definition readJson {A : Type} (f : file A) : list A :=
  match f with
  | Unreadable => []
  | Rows rows => rows
  end.

(** How one call of [bot.sendMessage] ends: it resolves, or it rejects with
    an error that may carry [err.response.statusCode]. *)
Inductive delivery : Type :=
| Delivered
| Rejected (statusCode : option Z).

(** [{ success, fail }] *)
Record tally : Type := mkTally {
  success : nat;
  fail : nat
}.

(** [a === b] on the two side strings. *)
Definition side_eqb (a b : Side) : bool :=
  match a, b with
  | LONG, LONG | SHORT, SHORT => true
  | _, _ => false
  end.

(* ------------------------------------------------------------------ *)
(** *** The polling bot *)

Module Bot.

(** [{ chatId, userInfo, addedAt }]; [userInfo] is stored and never read
    back, it is kept as its JSON text. *)
Record user : Type := mkUser {
  chatId : Z;
  userInfo : string;
  addedAt : Z
}.

(** [{ symbol, side, ts }] *)
Record sent : Type := mkSent {
  symbol : string;
  side : Side;
  ts : Z
}.

(** [users.json], [signals_sent.json], and whether [fs.writeFileSync]
    succeeds on them. *)
Record disk : Type := mkDisk {
  usersFile : file user;
  signalsFile : file sent;
  writable : bool
}.

Definition readUsers (d : disk) : list user := readJson (usersFile d).

(** [try { fs.writeFileSync(USERS_FILE, ...) } catch (e) { /* swallow */ }] *)
Definition writeUsers (arr : list user) (d : disk) : disk :=
  if writable d
  then {| usersFile := Rows arr;
          signalsFile := signalsFile d;
          writable := writable d |}
  else d.

Definition readSignals (d : disk) : list sent := readJson (signalsFile d).

Definition writeSignals (arr : list sent) (d : disk) : disk :=
  if writable d
  then {| usersFile := usersFile d;
          signalsFile := Rows arr;
          writable := writable d |}
  else d.

(** [addUser(chatId, userInfo)] at the instant [now]. *)
Definition addUser (now : Z) (id : Z) (info : string) (d : disk)
  : bool * disk :=
  let users := readUsers d in
  match find (fun u => chatId u =? id)%Z users with
  | Some _ => (false, d)
  | None => (true, writeUsers (users ++ [mkUser id info now]) d)
  end.

Definition removeUser (id : Z) (d : disk) : disk :=
  writeUsers (filter (fun u => negb (chatId u =? id)%Z) (readUsers d)) d.

(** [isDuplicateRecent(symbol, side, windowSeconds)] at the instant [now]:
    the answer, and the disk after the purge. *)
Definition isDuplicateRecent (now : Z) (sym : string) (sd : Side)
  (windowSeconds : Z) (d : disk) : bool * disk :=
  let signals := readSignals d in
  let cleaned :=
    filter (fun s => now - ts s <? 24 * 3600 * 1000)%Z signals in
  let d' := writeSignals cleaned d in
  match find (fun s => String.eqb (symbol s) sym
                       && side_eqb (side s) sd
                       && (now - ts s <=? windowSeconds * 1000)%Z)
             signals with
  | Some _ => (true, d')
  | None => (false, d')
  end.

(** [recordSignal(symbol, side)] at the instant [now]. *)
Definition recordSignal (now : Z) (sym : string) (sd : Side) (d : disk)
  : disk :=
  writeSignals (readSignals d ++ [mkSent sym sd now]) d.

(** [err.response.statusCode === 403 || err.response.statusCode === 400] *)
Definition gone (statusCode : option Z) : bool :=
  match statusCode with
  | Some code => (code =? 403)%Z || (code =? 400)%Z
  | None => false
  end.

(** How the loop [while (attempts < 3 && !ok)] ends for one subscriber. *)
Inductive verdict : Type :=
| Sent       (** [ok = true; success++] *)
| Removed    (** [removeUser(chatId); ok = true; fail++] *)
| GaveUp.    (** three rejections: [if (!ok) fail++] *)

(** The loop from [attempts] failed calls on, with [left = 3 - attempts];
    [send k] is the call made after [k] failed ones. *)
Fixpoint attemptsLoop (send : nat -> delivery) (attempts left : nat)
  : verdict :=
  match left with
  | O => GaveUp
  | S left' =>
      match send attempts with
      | Delivered => Sent
      | Rejected statusCode =>
          if gone statusCode then Removed
          else attemptsLoop send (S attempts) left'
      end
  end.

(** The loop [for (const u of users)] of [broadcastMessage]; [send pos] is
    the oracle for the subscriber at position [pos]. *)
Fixpoint broadcast_from (send : nat -> nat -> delivery) (pos : nat)
  (users : list user) (acc : tally) (d : disk) : tally * disk :=
  match users with
  | [] => (acc, d)
  | u :: rest =>
      match attemptsLoop (send pos) 0 3 with
      | Sent =>
          broadcast_from send (S pos) rest
            {| success := S (success acc); fail := fail acc |} d
      | Removed =>
          broadcast_from send (S pos) rest
            {| success := success acc; fail := S (fail acc) |}
            (removeUser (chatId u) d)
      | GaveUp =>
          broadcast_from send (S pos) rest
            {| success := success acc; fail := S (fail acc) |} d
      end
  end.

Definition broadcastMessage (send : nat -> nat -> delivery) (d : disk)
  : tally * disk :=
  broadcast_from send 0 (readUsers d) {| success := 0; fail := 0 |} d.

Definition SYMBOLS : list string :=
  ["BTC/USDT"; "ETH/USDT"; "SOL/USDT"; "BNB/USDT"; "ADA/USDT";
   "XRP/USDT"; "AVAX/USDT"; "LTC/USDT"; "LINK/USDT"; "DOGE/USDT";
   "MATIC/USDT"; "DOT/USDT"; "ATOM/USDT"; "TRX/USDT"; "ALGO/USDT"]%string.

(** The environment of one symbol's turn in a scan. *)
Record turn : Type := mkTurn {
  rnd : nat -> nat;                     (** the draws of the shuffle *)
  net : Shuffled.source -> attempt;     (** the exchanges *)
  checkedAt : Z;                        (** the clock in [isDuplicateRecent] *)
  recordedAt : Z;                       (** the clock in [recordSignal] *)
  send : nat -> nat -> delivery         (** Telegram *)
}.

(** What a turn does. *)
Inductive event : Type :=
| NoSignal
| Skipped (sd : Side)
| Broadcast (sig : Shuffled.signal) (result : tally).

(** The body of [for (const symbol of SYMBOLS)] in [scanAllSymbols]. *)
Definition scanSymbol (sqrtQ : Q -> Q) (w : turn) (sym : string) (d : disk)
  : event * disk :=
  match Shuffled.analyzePhysics sqrtQ (rnd w) (net w) sym 120 with
  | Returned (Some sig) =>
      let '(dup, d1) :=
        isDuplicateRecent (checkedAt w) sym (Shuffled.side sig) 3600 d in
      if dup then (Skipped (Shuffled.side sig), d1)
      else
        let d2 := recordSignal (recordedAt w) sym (Shuffled.side sig) d1 in
        let '(result, d3) := broadcastMessage (send w) d2 in
        (Broadcast sig result, d3)
  | _ => (NoSignal, d)
  end.

Fixpoint scan_from (sqrtQ : Q -> Q) (world : string -> turn)
  (symbols : list string) (d : disk) : list (string * event) * disk :=
  match symbols with
  | [] => ([], d)
  | sym :: rest =>
      let '(e, d1) := scanSymbol sqrtQ (world sym) sym d in
      let '(es, d2) := scan_from sqrtQ world rest d1 in
      ((sym, e) :: es, d2)
  end.

(** [scanAllSymbols()]: the log of the pass, the flag [isScanning] and the
    disk afterwards. *)
Definition scanAllSymbols (sqrtQ : Q -> Q) (world : string -> turn)
  (isScanning : bool) (d : disk) : list (string * event) * bool * disk :=
  if isScanning then ([], true, d)
  else
    let '(es, d') := scan_from sqrtQ world SYMBOLS d in
    (es, false, d').

End Bot.

(* ------------------------------------------------------------------ *)
(** *** The webhook bot *)

Module WebhookBot.

(** [{ chatId, userInfo, joinedAt }]; [userInfo] is [msg.from], stored and
    never read back, kept as its JSON text. *)
Record user : Type := mkUser {
  chatId : Z;
  userInfo : string;
  joinedAt : Z
}.

(** [{ symbol, side, ts }] *)
Record sent : Type := mkSent {
  symbol : string;
  side : Side;
  ts : Z
}.

(** [users.json], [recent_signals.json], and whether [fs.writeFileSync]
    succeeds on them. *)
Record disk : Type := mkDisk {
  usersFile : file user;
  recentSignalsFile : file sent;
  writable : bool
}.

Definition DEDUP_WINDOW_MS : Z := 60 * 60 * 1000.

Definition loadUsers (d : disk) : list user := readJson (usersFile d).

Definition saveUsers (arr : list user) (d : disk) : disk :=
  if writable d
  then {| usersFile := Rows arr;
          recentSignalsFile := recentSignalsFile d;
          writable := writable d |}
  else d.

Definition loadRecentSignals (d : disk) : list sent :=
  readJson (recentSignalsFile d).

Definition saveRecentSignals (arr : list sent) (d : disk) : disk :=
  if writable d
  then {| usersFile := usersFile d;
          recentSignalsFile := Rows arr;
          writable := writable d |}
  else d.

(** [addUser(chatId, userInfo)] at the instant [now]. *)
Definition addUser (now : Z) (id : Z) (info : string) (d : disk) : disk :=
  let users := loadUsers d in
  match find (fun u => chatId u =? id)%Z users with
  | None => saveUsers (users ++ [mkUser id info now]) d
  | Some _ => d
  end.

Definition removeUser (id : Z) (d : disk) : disk :=
  saveUsers (filter (fun u => negb (chatId u =? id)%Z) (loadUsers d)) d.

(** [isDuplicateSignal(symbol, side)] at the instant [now]: the answer, and
    the disk after the purge. *)
Definition isDuplicateSignal (now : Z) (sym : string) (sd : Side) (d : disk)
  : bool * disk :=
  let recent := loadRecentSignals d in
  let filtered := filter (fun r => now - ts r <=? DEDUP_WINDOW_MS)%Z recent in
  let d' := saveRecentSignals filtered d in
  match find (fun r => String.eqb (symbol r) sym && side_eqb (side r) sd)
             filtered with
  | Some _ => (true, d')
  | None => (false, d')
  end.

(** [recent.filter(r => Date.now() - r.ts <= DEDUP_WINDOW_MS)]: the clock is
    read once for every element, [clock k] for the element at index [k]. *)
Fixpoint keep_from (clock : nat -> Z) (k : nat) (recent : list sent)
  : list sent :=
  match recent with
  | [] => []
  | r :: rest =>
      if (clock k - ts r <=? DEDUP_WINDOW_MS)%Z
      then r :: keep_from clock (S k) rest
      else keep_from clock (S k) rest
  end.

(** [registerSentSignal(symbol, side)]: the entry is stamped at [now], the
    filter reads [clock]. *)
Definition registerSentSignal (now : Z) (clock : nat -> Z) (sym : string)
  (sd : Side) (d : disk) : disk :=
  let recent := loadRecentSignals d ++ [mkSent sym sd now] in
  saveRecentSignals (keep_from clock 0 recent) d.

(** The loop [for (const u of users)] of [broadcastMessage]; [send pos] is
    the one call made for the subscriber at position [pos]. *)
Fixpoint broadcast_from (send : nat -> delivery) (pos : nat)
  (users : list user) (acc : tally) (d : disk) : tally * disk :=
  match users with
  | [] => (acc, d)
  | u :: rest =>
      match send pos with
      | Delivered =>
          broadcast_from send (S pos) rest
            {| success := S (success acc); fail := fail acc |} d
      | Rejected statusCode =>
          broadcast_from send (S pos) rest
            {| success := success acc; fail := S (fail acc) |}
            (match statusCode with
             | Some code => if (code =? 403)%Z then removeUser (chatId u) d
                            else d
             | None => d
             end)
      end
  end.

Definition broadcastMessage (send : nat -> delivery) (d : disk)
  : tally * disk :=
  broadcast_from send 0 (loadUsers d) {| success := 0; fail := 0 |} d.

Definition SYMBOLS : list string :=
  ["BTCUSDT"; "ETHUSDT"; "BNBUSDT"; "SOLUSDT"; "LINKUSDT";
   "DOGEUSDT"; "XRPUSDT"; "LTCUSDT"; "ADAUSDT"; "AVAXUSDT";
   "MATICUSDT"; "ATOMUSDT"; "TRXUSDT"; "XMRUSDT"; "BCHUSDT"]%string.

(** The environment of one symbol's turn in a pass. *)
Record turn : Type := mkTurn {
  net : Priority.source -> attempt;     (** the exchanges *)
  checkedAt : Z;                        (** the clock in [isDuplicateSignal] *)
  registeredAt : Z;                     (** the stamp of [registerSentSignal] *)
  filteredAt : nat -> Z;                (** the clock in its filter *)
  send : nat -> delivery                (** Telegram *)
}.

Inductive event : Type :=
| NoSignal
| Skipped (sd : Side)
| Broadcast (sig : Priority.signal) (result : tally).

(** The body of [for (const symbol of SYMBOLS)] in [scannerPass]. *)
Definition scanSymbol (sqrtQ : Q -> Q) (w : turn) (sym : string) (d : disk)
  : event * disk :=
  match Priority.analyzePhysics sqrtQ (net w) sym with
  | Returned (Some sig) =>
      let '(dup, d1) :=
        isDuplicateSignal (checkedAt w) sym (Priority.side sig) d in
      if dup then (Skipped (Priority.side sig), d1)
      else
        let d2 :=
          registerSentSignal (registeredAt w) (filteredAt w) sym
                             (Priority.side sig) d1 in
        let '(result, d3) := broadcastMessage (send w) d2 in
        (Broadcast sig result, d3)
  | _ => (NoSignal, d)
  end.

Fixpoint scan_from (sqrtQ : Q -> Q) (world : string -> turn)
  (symbols : list string) (d : disk) : list (string * event) * disk :=
  match symbols with
  | [] => ([], d)
  | sym :: rest =>
      let '(e, d1) := scanSymbol sqrtQ (world sym) sym d in
      let '(es, d2) := scan_from sqrtQ world rest d1 in
      ((sym, e) :: es, d2)
  end.

Definition scannerPass (sqrtQ : Q -> Q) (world : string -> turn) (d : disk)
  : list (string * event) * disk :=
  scan_from sqrtQ world SYMBOLS d.

End WebhookBot.

(* ================================================================== *)
(** ** Vocabulary of the statements *)

(** A source fails when its attempt throws, has no usable shape, or maps to
    fewer than 30 candles. *)
Definition fails (a : attempt) : bool :=
  match a with
  | Throws | NoUsableFormat => true
  | Mapped candles => length candles <? 30
  end.

(** A value that is [undefined] or not a finite number. *)
Definition undefined_or_nonfinite (v : jsval) : bool :=
  match v with
  | VNum (Fin _) => false
  | _ => true
  end.

Definition is_finite (x : jsnum) : Prop :=
  match x with Fin _ => True | _ => False end.

Definition pinf_or_nan (x : jsnum) : Prop := x = PInf \/ x = NaN.
Definition ninf_or_nan (x : jsnum) : Prop := x = NInf \/ x = NaN.

Definition fin_or_ninf (x : jsnum) : Prop :=
  match x with Fin _ | NInf => True | _ => False end.

(** A number that is not negative: [NaN] and [Infinity] count. *)
Definition nonneg (x : jsnum) : Prop :=
  match x with
  | Fin q => (0 <= q)%Q
  | PInf | NaN => True
  | NInf => False
  end.

Definition fin_or_nan (x : jsnum) : Prop :=
  match x with Fin _ | NaN => True | _ => False end.

Definition nonneg_pair (st : jsnum * jsnum) : Prop :=
  nonneg (fst st) /\ nonneg (snd st).

(** Equality of values up to the representation of the rationals. *)
Definition veq (v w : jsval) : Prop :=
  match v, w with
  | VUndef, VUndef | VNull, VNull => True
  | VNum x, VNum y => jeq x y
  | _, _ => False
  end.

(** The instant at which a candle opens: its timestamp as a number. *)
Definition instant (c : candle) : jsnum := number (t c).

(** Instants strictly descending, newest first. *)
Definition strictly_descending (candles : list candle) : Prop :=
  StronglySorted (fun a b => jgt (instant a) (instant b) = true) candles.

Definition strictly_ascending (candles : list candle) : Prop :=
  StronglySorted (fun a b => jgt (instant b) (instant a) = true) candles.

Definition ascending (candles : list candle) : Prop :=
  StronglySorted (fun a b => jge (instant b) (instant a) = true) candles.

Definition descending (candles : list candle) : Prop :=
  StronglySorted (fun a b => jge (instant a) (instant b) = true) candles.

(** Instants in ascending order at every adjacent pair of indices. *)
Definition adjacent_ascending (candles : list candle) : Prop :=
  forall i c c',
    nth_error candles i = Some c ->
    nth_error candles (S i) = Some c' ->
    jge (instant c') (instant c) = true.

(** [>] sees the first and the last timestamp of the series in the order of
    their instants.  It does whenever one of the two is not a string, and
    for two strings whose order as text is their order as numbers, as with
    the thirteen digits of [slideMillis]. *)
Definition ends_compared_by_instant (candles : list candle) : Prop :=
  match candles with
  | [] => True
  | c0 :: _ =>
      stamp_gt (t c0) (t (last candles c0))
      = jgt (instant c0) (instant (last candles c0))
  end.

(** The same series with every timestamp converted by [Number]. *)
Definition converted (candles : list candle) : list candle :=
  map (fun c => mkCandle (Plain (instant c)) (open c) (high c) (low c)
                         (close c) (vol c)) candles.

(** A boolean check of strong sortedness, for the concrete series. *)
Fixpoint sortedb {A : Type} (rb : A -> A -> bool) (l : list A) : bool :=
  match l with
  | [] => true
  | x :: tl => forallb (rb x) tl && sortedb rb tl
  end.

(** The network of one scan in which source [s] answers [a]. *)
Definition answering {S : Type} (eqb : S -> S -> bool) (net : S -> attempt)
  (s : S) (a : attempt) : S -> attempt :=
  fun s' => if eqb s' s then a else net s'.

Definition shuffled_eqb (a b : Shuffled.source) : bool :=
  match a, b with
  | Shuffled.BinanceFutures, Shuffled.BinanceFutures
  | Shuffled.BinanceSpot, Shuffled.BinanceSpot
  | Shuffled.BybitV5, Shuffled.BybitV5
  | Shuffled.Bitget, Shuffled.Bitget
  | Shuffled.OKX, Shuffled.OKX => true
  | _, _ => false
  end.

Definition priority_eqb (a b : Priority.source) : bool :=
  match a, b with
  | Priority.BinanceFapi, Priority.BinanceFapi
  | Priority.BinanceApi, Priority.BinanceApi
  | Priority.Bybit, Priority.Bybit => true
  | _, _ => false
  end.

(** The confidence score as the specification words it: the two ratios are
    taken over [entry] itself. *)
Definition confidenceClaimed (sd : Side) (lastRsi lastA entry lastAtr : jsnum)
  : jsnum :=
  let rsiPart :=
    match sd with
    | LONG => jmin (Fin 15) (jsub (Fin 30) lastRsi)
    | SHORT => jmin (Fin 15) (jsub lastRsi (Fin 70))
    end in
  let accPart := jmin (Fin 10) (jmul (jdiv (jabs lastA) entry) (Fin 1000)) in
  let withAcc := jadd (jadd (Fin 70) rsiPart) accPart in
  let total :=
    if jlt (jdiv lastAtr entry) (Fin (5 # 1000)) then jadd withAcc (Fin 5)
    else withAcc in
  jmax (Fin 30) (jmin (Fin 95) (jround total)).

(** The confidence score with the divisor of the source: [entry], or [1] when
    [entry] is [0]. *)
Definition confidenceGuarded (sd : Side) (lastRsi lastA entry lastAtr : jsnum)
  : jsnum :=
  let divisor := jor entry (Fin 1) in
  let rsiPart :=
    match sd with
    | LONG => jmin (Fin 15) (jsub (Fin 30) lastRsi)
    | SHORT => jmin (Fin 15) (jsub lastRsi (Fin 70))
    end in
  let accPart := jmin (Fin 10) (jmul (jdiv (jabs lastA) divisor) (Fin 1000)) in
  let withAcc := jadd (jadd (Fin 70) rsiPart) accPart in
  let total :=
    if jlt (jdiv lastAtr divisor) (Fin (5 # 1000)) then jadd withAcc (Fin 5)
    else withAcc in
  jmax (Fin 30) (jmin (Fin 95) (jround total)).

(** What an entry of an RSI array may hold: [null] during the warm-up, [NaN]
    when a price did not parse, or a number between 0 and 100. *)
Definition rsi_reading (v : jsval) : Prop :=
  match v with
  | VNull | VNum NaN => True
  | VNum (Fin q) => (0 <= q <= 100)%Q
  | _ => False
  end.

(** The stop and the target on their side of the entry, or on it:
    [sl <= entry <= tp] for a LONG, [tp <= entry <= sl] for a SHORT, each
    comparison as JavaScript evaluates it. *)
Definition between_levels (sd : Side) (entry stop target : jsnum) : Prop :=
  match sd with
  | LONG => jge entry stop = true /\ jge target entry = true
  | SHORT => jge stop entry = true /\ jge entry target = true
  end.

(** A price change of a series that does not fall. *)
Definition rising (d : jsnum) : Prop :=
  match d with Fin q => (0 <= q)%Q | _ => False end.

(** A pair [(avgGain, avgLoss)] whose average loss is zero. *)
Definition no_loss (st : jsnum * jsnum) : Prop :=
  match snd st with Fin l => (l == 0)%Q | _ => False end.

(** A call of [bot.sendMessage] that the polling bot tries again: it was
    rejected, and not with status 403 or 400. *)
Definition retried (x : delivery) : Prop :=
  exists statusCode, x = Rejected statusCode /\ Bot.gone statusCode = false.

Definition is_sent (v : Bot.verdict) : bool :=
  match v with Bot.Sent => true | _ => false end.

Definition is_delivered (x : delivery) : bool :=
  match x with Delivered => true | Rejected _ => false end.

(** The log of a pass holds a broadcast of side [sd] for [sym]. *)
Definition bot_announced (sym : string) (sd : Side)
  (es : list (string * Bot.event)) : bool :=
  existsb (fun '(s, e) =>
             String.eqb s sym
             && match e with
                | Bot.Broadcast sig _ => side_eqb (Shuffled.side sig) sd
                | _ => false
                end) es.

Definition webhook_announced (sym : string) (sd : Side)
  (es : list (string * WebhookBot.event)) : bool :=
  existsb (fun '(s, e) =>
             String.eqb s sym
             && match e with
                | WebhookBot.Broadcast sig _ => side_eqb (Priority.side sig) sd
                | _ => false
                end) es.

(* ================================================================== *)
(** ** Concrete series *)

(** A square root for the concrete runs: rounded down to six decimals. *)
Definition sqrtFloor (q : Q) : Q :=
  (inject_Z (Z.sqrt (Qfloor (q * inject_Z (10 ^ 12)))) / inject_Z (10 ^ 6))%Q.

(** Five-minute candles from rows [(high, low, close)], oldest first. *)
Definition candlesOf (rows : list (jsnum * jsnum * jsnum)) : list candle :=
  mapi (fun i '(h, l, c) =>
          mkCandle (Plain (ofZ (300000 * Z.of_nat i))) c h l c (Fin 1)) rows.

Definition row (h l c : Q) : jsnum * jsnum * jsnum := (Fin h, Fin l, Fin c).

(** 36 quiet candles at 103 and a slide to 100, every true range equal to 2:
    an oversold close under the lower band while the fall slows down. *)
Definition slideRows : list (jsnum * jsnum * jsnum) :=
  repeat (row 104 102 103) 36
    ++ [row 103 101 (203 # 2); row (203 # 2) (199 # 2) (201 # 2);
        row (201 # 2) (197 # 2) (801 # 8); row (801 # 8) (785 # 8) 100].

Definition slide : list candle := candlesOf slideRows.

(** The mirror of the slide: 36 quiet candles at 97 and a climb to 100 that
    slows down, every true range equal to 2. *)
Definition climbRows : list (jsnum * jsnum * jsnum) :=
  repeat (row 98 96 97) 36
    ++ [row 99 97 (197 # 2); row (201 # 2) (197 # 2) (199 # 2);
        row (203 # 2) (199 # 2) (799 # 8); row (815 # 8) (799 # 8) 100].

Definition climb : list candle := candlesOf climbRows.

(** The same slide with an unbounded high in the last row. *)
Definition slideInfiniteHigh : list candle :=
  candlesOf (firstn 39 slideRows ++ [(PInf, Fin (785 # 8), Fin 100)]).

(** Rows whose high and low both sit on the previous close: every true range
    is 0. *)
Definition stillRows : list (jsnum * jsnum * jsnum) :=
  repeat (row 100 100 100) 36
    ++ [row 100 100 90; row 90 90 80; row 80 80 70; row 70 70 69].

Definition still : list candle := candlesOf stillRows.

(** A fall that ends on a close of 0 and barely slows down. *)
Definition toZeroRows : list (jsnum * jsnum * jsnum) :=
  let flat (c : Q) := row c c c in
  (repeat (flat (4095 # 128)) 36
     ++ [flat (3071 # 128); flat (2047 # 128); flat (1023 # 128); flat 0])%Q.

Definition toZero : list candle := candlesOf toZeroRows.

(** Thirty candles whose second and third timestamps are exchanged. *)
Definition jumbled : list candle :=
  map (fun ts => mkCandle (Plain (ofZ ts))
                          (Fin 100) (Fin 100) (Fin 100) (Fin 100) (Fin 1))
      ([0; 600000; 300000]
         ++ map (fun i => 300000 * Z.of_nat i) (seq 3 27))%Z.

(** The slide with its timestamps as strings of thirteen digits, the
    milliseconds ["1700000000000"], ["1700000300000"], ... *)
Definition slideMillis : list candle :=
  mapi (fun i c =>
          let ms := (1700000000000 + 300000 * N.of_nat i)%N in
          mkCandle (Text (NilZero.string_of_uint (N.to_uint ms))
                         (ofZ (Z.of_N ms)))
                   (open c) (high c) (low c) (close c) (vol c))
       slide.

(** The slide with its timestamps as strings: ["61"] for the oldest row,
    then ["62"], ... up to ["100"] for the newest. *)
Definition slideText : list candle :=
  mapi (fun i c =>
          mkCandle (Text (NilZero.string_of_uint (Nat.to_uint (61 + i)))
                         (ofNat (61 + i)))
                   (open c) (high c) (low c) (close c) (vol c))
       slide.

(** The slide with a last row whose high did not parse. *)
Definition slideMissingHigh : list candle :=
  candlesOf (firstn 39 slideRows ++ [(NaN, Fin (785 # 8), Fin 100)]).

(** The slide with a first row whose close did not parse. *)
Definition slideMissingFirstClose : list candle :=
  candlesOf ((Fin 104, Fin 102, NaN) :: skipn 1 slideRows).

(** A series with an unparsed close followed by an unbounded negative one,
    that later rises by one step and stalls. *)
Definition brokenRows : list (jsnum * jsnum * jsnum) :=
  repeat (row 100 100 100) 24
    ++ [(Fin 100, Fin 100, NaN); (Fin 100, Fin 100, NInf)]
    ++ repeat (row 100 100 100) 10
    ++ [row 101 101 101; row 101 101 101; row 101 101 101; row 101 101 101].

Definition broken : list candle := candlesOf brokenRows.

Definition risingPrices : list jsnum :=
  map (fun i => ofNat i) (seq 1 15).

(** Five closes whose steps grow by one. *)
Definition steps : list jsnum := [Fin 1; Fin 2; Fin 4; Fin 7; Fin 11].

(** 35 quiet candles at 103 and five more, three points lower, that close
    on one price. *)
Definition shelf : list candle :=
  candlesOf (repeat (row 104 102 103) 35 ++ repeat (row 101 99 100) 5).

(** Writable disks whose two files do not parse yet. *)
Definition blankDisk : Bot.disk := Bot.mkDisk Unreadable Unreadable true.

Definition blankWebhookDisk : WebhookBot.disk :=
  WebhookBot.mkDisk Unreadable Unreadable true.

(** A disk with one subscriber. *)
Definition oneSubscriber : Bot.disk :=
  Bot.mkDisk (Rows [Bot.mkUser 7 "bob" 500]) Unreadable true.

(** A pass at the instant [now] in which every exchange answers with the
    slide for Bitcoin and throws for the other symbols, and Telegram
    delivers. *)
Definition bitcoinSlides (now : Z) (sym : string) : Bot.turn :=
  {| Bot.rnd := fun _ => 0;
     Bot.net := fun _ =>
       if String.eqb sym "BTC/USDT" then Mapped slide else Throws;
     Bot.checkedAt := now;
     Bot.recordedAt := now;
     Bot.send := fun _ _ => Delivered |}.

Definition bitcoinSlidesWebhook (now : Z) (sym : string) : WebhookBot.turn :=
  {| WebhookBot.net := fun _ =>
       if String.eqb sym "BTCUSDT" then Mapped slide else Throws;
     WebhookBot.checkedAt := now;
     WebhookBot.registeredAt := now;
     WebhookBot.filteredAt := fun _ => now;
     WebhookBot.send := fun _ => Delivered |}.

(** The same disk, read-only. *)
Definition readOnlyDisk : Bot.disk :=
  Bot.mkDisk (Rows [Bot.mkUser 7 "bob" 500]) Unreadable false.

(* ================================================================== *)
(** * Properties *)

(** ** Arrays *)

Lemma length_for_from {B : Type} (s n : nat) (f : nat -> B) :
  length (for_from s n f) = n - s.
Proof.
  unfold for_from. now rewrite length_map, length_seq.
Qed.

Lemma nth_error_for_from {B : Type} (s n : nat) (f : nat -> B) (i : nat) :
  i < n - s -> nth_error (for_from s n f) i = Some (f (s + i)).
Proof.
  intros Hi. unfold for_from.
  rewrite nth_error_map, nth_error_seq.
  destruct (Nat.ltb_spec i (n - s)) as [_ | Hge]; [reflexivity | lia].
Qed.

Lemma at_val_for_from (n : nat) (f : nat -> jsval) (i : nat) :
  i < n -> at_val (for_from 0 n f) i = f i.
Proof.
  intros Hi. unfold at_val.
  apply nth_error_nth. rewrite nth_error_for_from by lia. reflexivity.
Qed.

Lemma at_numv_for_from (n : nat) (f : nat -> jsnum) (i : nat) :
  i < n -> at_numv (for_from 0 n f) i = VNum (f i).
Proof.
  intros Hi. unfold at_numv. rewrite nth_error_for_from by lia. reflexivity.
Qed.

Lemma nth_error_mapi_from {A B : Type} (f : nat -> A -> B) (l : list A) :
  forall k i, nth_error (mapi_from f k l) i = option_map (f (k + i)) (nth_error l i).
Proof.
  induction l as [| x l IH]; intros k i.
  - now destruct i.
  - destruct i as [| i]; simpl.
    + now rewrite Nat.add_0_r.
    + rewrite IH. now rewrite Nat.add_succ_r.
Qed.

Lemma nth_error_mapi {A B : Type} (f : nat -> A -> B) (l : list A) (i : nat) :
  nth_error (mapi f l) i = option_map (f i) (nth_error l i).
Proof.
  unfold mapi. now rewrite nth_error_mapi_from.
Qed.

Lemma slice_from_start {A : Type} (b : nat) (arr : list A) :
  slice 0 b arr = firstn b arr.
Proof.
  unfold slice. now rewrite Nat.sub_0_r.
Qed.

Lemma length_slice {A : Type} (a b : nat) (arr : list A) :
  b <= length arr -> length (slice a b arr) = b - a.
Proof.
  intros Hb. unfold slice. rewrite length_firstn, length_skipn. lia.
Qed.

(** The value of a prefix of nulls followed by numbers, read in the second
    part. *)
Lemma at_val_after_prefix (v : jsval) (n : nat) (tail : list jsval) (k : nat) :
  at_val (repeat v n ++ tail) (n + k) = at_val tail k.
Proof.
  unfold at_val. rewrite app_nth2 by (rewrite repeat_length; lia).
  rewrite repeat_length. f_equal. lia.
Qed.

Lemma at_val_map {A : Type} (f : A -> jsval) (l : list A) (k : nat) (x : A) :
  nth_error l k = Some x -> at_val (map f l) k = f x.
Proof.
  intros H. unfold at_val. apply nth_error_nth.
  now rewrite nth_error_map, H.
Qed.

(** ** C1: the RSI when the average loss is zero *)

(** In [rsiFromArray] a zero average loss gives exactly 100 at every index. *)
Lemma rsiFromArray_zero_loss (closes : list jsnum) (period k : nat)
  (st : jsnum * jsnum) :
  period <= length (Priority.changes closes) ->
  nth_error (Priority.rsiAverages closes period) k = Some st ->
  jeqb (snd st) (Fin 0) = true ->
  at_val (Priority.rsiFromArray closes period) (period + k) = VNum (Fin 100).
Proof.
  intros Hlen Hst Hzero. unfold Priority.rsiFromArray.
  destruct (Nat.ltb_spec (length (Priority.changes closes)) period) as [Hlt | _];
    [lia |].
  rewrite at_val_after_prefix.
  rewrite (at_val_map _ _ _ _ Hst).
  destruct st as [avgGain avgLoss]. cbn [snd] in Hzero.
  unfold Priority.rsiValue. now rewrite Hzero.
Qed.

(** In [computeRSI] the same situation gives [100 - 100 / (1 + 100)]. *)
Lemma computeRSI_zero_loss (prices : list jsnum) (period k : nat)
  (st : jsnum * jsnum) :
  period + 1 <= length prices ->
  nth_error (Shuffled.rsiAverages prices period) k = Some st ->
  jeqb (snd st) (Fin 0) = true ->
  at_val (Shuffled.computeRSI prices period) (period + k)
  = VNum (jsub (Fin 100) (jdiv (Fin 100) (jadd (Fin 1) (Fin 100)))).
Proof.
  intros Hlen Hst Hzero. unfold Shuffled.computeRSI.
  destruct (Nat.ltb_spec (length prices) (period + 1)) as [Hlt | _]; [lia |].
  rewrite at_val_after_prefix.
  rewrite (at_val_map _ _ _ _ Hst).
  destruct st as [avgGain avgLoss]. cbn [snd] in Hzero.
  unfold Shuffled.rsiValue. cbv zeta. now rewrite Hzero.
Qed.

(** C1, on the code: for the closes 1, 2, ..., 15 the average loss at index
    14 is exactly zero, [rsiFromArray] answers 100 there, and [computeRSI]
    answers [10000 / 101] (99.0099...), which is not 100: its guard sets the
    relative strength to 100, not the RSI. *)
Theorem computeRSI_zero_loss_is_not_100 :
  option_map (fun st => jeqb (snd st) (Fin 0))
             (nth_error (Shuffled.rsiAverages risingPrices 14) 0) = Some true
  /\ veq (at_val (Shuffled.computeRSI risingPrices 14) 14)
         (VNum (Fin (10000 # 101)))
  /\ ~ veq (at_val (Shuffled.computeRSI risingPrices 14) 14) (VNum (Fin 100))
  /\ at_val (Priority.rsiFromArray risingPrices 14) 14 = VNum (Fin 100).
Proof.
  split; [vm_compute; reflexivity |].
  split; [vm_compute; reflexivity |].
  split; [vm_compute; intros H; discriminate H |].
  vm_compute; reflexivity.
Qed.

(** ** C2: rolling windows during the warm-up *)

(** The claim read on the [sma] of the shuffled generation fails: with period
    3 the value at index 1 is the mean 3/2 of the two values there are. *)
Lemma shuffled_sma_gives_partial_mean :
  1 + 1 < 3
  /\ at_numv (Shuffled.sma [Fin 1; Fin 2; Fin 3] 3) 1 = VNum (Fin (3 # 2))
  /\ undefined_or_nonfinite
       (at_numv (Shuffled.sma [Fin 1; Fin 2; Fin 3] 3) 1) = false.
Proof.
  split; [lia |]. split; reflexivity.
Qed.

(** Once the window is full, [sma] and [stddev] of the priority generation
    work on exactly [len] values. *)
Lemma priority_full_window (sqrtQ : Q -> Q) (arr : list jsnum) (len i : nat) :
  i < length arr -> len <= i + 1 ->
  let win := slice (i + 1 - len) (i + 1) arr in
  length win = len
  /\ at_val (Priority.sma arr len) i = VNum (jdiv (sum win) (ofNat len))
  /\ exists variance,
       at_val (Priority.stddev sqrtQ arr len) i = VNum (jsqrt sqrtQ variance).
Proof.
  intros Hi Hlen win. split; [| split].
  - unfold win. rewrite length_slice by lia. lia.
  - unfold Priority.sma. rewrite at_val_for_from by exact Hi.
    destruct (Nat.ltb_spec (i + 1) len) as [Hlt | _]; [lia | reflexivity].
  - unfold Priority.stddev. rewrite at_val_for_from by exact Hi.
    destruct (Nat.ltb_spec (i + 1) len) as [Hlt | _]; [lia |].
    eexists. reflexivity.
Qed.

(** C2, as the code has it.  At an index whose trailing window of [period]
    values cannot be filled, [sma] and [stddev] of the priority generation
    return [null]; [sma] and [rollingStd] of the shuffled generation return
    the mean and the deviation of the [i + 1] values available. *)
Theorem warmup_windows (sqrtQ : Q -> Q) (arr : list jsnum) (period i : nat)
  (Hi : i < length arr) (Hshort : i + 1 < period) :
  at_val (Priority.sma arr period) i = VNull
  /\ at_val (Priority.stddev sqrtQ arr period) i = VNull
  /\ (let win := firstn (i + 1) arr in
      length win = i + 1
      /\ at_numv (Shuffled.sma arr period) i
         = VNum (jdiv (fold_left (fun a b => jadd a (jor b (Fin 0))) win (Fin 0))
                      (ofNat (i + 1)))
      /\ at_numv (Shuffled.rollingStd sqrtQ arr period) i
         = VNum (let mean := jdiv (sum win) (ofNat (i + 1)) in
                 jsqrt sqrtQ
                   (jdiv (fold_left (fun a b => jadd a (jsquare (jsub b mean)))
                                    win (Fin 0))
                         (ofNat (i + 1))))).
Proof.
  assert (Hwin : slice (i + 1 - period) (i + 1) arr = firstn (i + 1) arr).
  { replace (i + 1 - period) with 0 by lia. apply slice_from_start. }
  assert (Hlen : length (firstn (i + 1) arr) = i + 1).
  { rewrite length_firstn. lia. }
  split; [| split; [| split; [| split]]].
  - unfold Priority.sma. rewrite at_val_for_from by exact Hi.
    destruct (Nat.ltb_spec (i + 1) period) as [_ | Hge]; [reflexivity | lia].
  - unfold Priority.stddev. rewrite at_val_for_from by exact Hi.
    destruct (Nat.ltb_spec (i + 1) period) as [_ | Hge]; [reflexivity | lia].
  - exact Hlen.
  - unfold Shuffled.sma. rewrite at_numv_for_from by exact Hi.
    cbv zeta. now rewrite Hwin, Hlen.
  - unfold Shuffled.rollingStd. rewrite at_numv_for_from by exact Hi.
    cbv zeta. now rewrite Hwin, Hlen.
Qed.

Lemma warmup_windows_witness :
  at_val (Priority.sma [Fin 1; Fin 2; Fin 3] 3) 1 = VNull
  /\ at_val (Priority.stddev sqrtFloor [Fin 1; Fin 2; Fin 3] 3) 1 = VNull.
Proof.
  assert (Hi : 1 < length [Fin 1; Fin 2; Fin 3]) by (simpl; lia).
  assert (Hshort : 1 + 1 < 3) by lia.
  destruct (warmup_windows sqrtFloor [Fin 1; Fin 2; Fin 3] 3 1 Hi Hshort)
    as [Hsma [Hstd _]].
  split; assumption.
Defined.

(** ** C3: the fallback chain *)

Lemma nth_error_upd_same {A : Type} (l : list A) :
  forall i x z, nth_error l i = Some z -> nth_error (upd i x l) i = Some x.
Proof.
  induction l as [| y l IH]; intros [| i] x z H; simpl in *;
    try discriminate; [reflexivity | eauto].
Qed.

Lemma nth_error_upd_other {A : Type} (l : list A) :
  forall i j x, i <> j -> nth_error (upd j x l) i = nth_error l i.
Proof.
  induction l as [| y l IH]; intros [| i] [| j] x Hij; simpl;
    try reflexivity; [congruence | apply IH; congruence].
Qed.

(** Writing [y] over the [x] found at index [i] trades one [x] for one [y]. *)
Lemma upd_trades {A : Type} (l : list A) :
  forall i x y, nth_error l i = Some x ->
                Permutation (y :: l) (x :: upd i y l).
Proof.
  induction l as [| z l IH]; intros [| i] x y H; simpl in *; try discriminate.
  - injection H as ->. apply perm_swap.
  - rewrite (perm_swap z y l).
    rewrite (perm_swap z x (upd i y l)).
    apply perm_skip. now apply IH.
Qed.

Lemma swap_permutes {A : Type} (i j : nat) (l : list A) :
  Permutation (swap i j l) l.
Proof.
  unfold swap.
  destruct (nth_error l i) as [x |] eqn:Hi; [| reflexivity].
  destruct (nth_error l j) as [y |] eqn:Hj; [| reflexivity].
  assert (Hi' : nth_error (upd j x l) i = Some x).
  { destruct (Nat.eq_dec i j) as [-> | Hne].
    - now apply nth_error_upd_same with (z := y).
    - now rewrite nth_error_upd_other. }
  apply Permutation_cons_inv with (a := x).
  rewrite <- (upd_trades (upd j x l) i x y Hi').
  symmetry. now apply upd_trades.
Qed.

Lemma shuffle_from_permutes {A : Type} (rnd : nat -> nat) (i : nat) :
  forall l : list A, Permutation (shuffle_from rnd i l) l.
Proof.
  induction i as [| i IH]; intros l; simpl; [reflexivity |].
  rewrite IH. apply swap_permutes.
Qed.

Lemma shuffle_permutes {A : Type} (rnd : nat -> nat) (l : list A) :
  Permutation (shuffle rnd l) l.
Proof.
  apply shuffle_from_permutes.
Qed.

(** A source that fails is skipped, in both loops. *)
Lemma shuffled_skips_failure (net : Shuffled.source -> attempt) (limit : Z)
  (s : Shuffled.source) (rest : list Shuffled.source) :
  fails (net s) = true ->
  Shuffled.fetch_from net limit (s :: rest) = Shuffled.fetch_from net limit rest.
Proof.
  intros H. cbn [Shuffled.fetch_from Priority.fetch_from].
  destruct (net s) as [| | cs]; try reflexivity.
  cbn [fails] in H. apply Nat.ltb_lt in H.
  destruct (30 <=? length cs) eqn:E; [| reflexivity].
  apply Nat.leb_le in E. lia.
Qed.

Lemma priority_skips_failure (net : Priority.source -> attempt)
  (s : Priority.source) (rest : list Priority.source) :
  fails (net s) = true ->
  Priority.fetch_from net (s :: rest) = Priority.fetch_from net rest.
Proof.
  intros H. cbn [Shuffled.fetch_from Priority.fetch_from].
  destruct (net s) as [| | cs]; try reflexivity.
  cbn [fails] in H. apply Nat.ltb_lt in H.
  destruct (30 <=? length cs) eqn:E; [| reflexivity].
  apply Nat.leb_le in E. lia.
Qed.

Lemma shuffled_fetch_raises_iff (net : Shuffled.source -> attempt) (limit : Z)
  (sources : list Shuffled.source) :
  Shuffled.fetch_from net limit sources = Raised "All data sources failed"
  <-> Forall (fun s => fails (net s) = true) sources.
Proof.
  induction sources as [| s rest IH].
  - simpl. split; [constructor | reflexivity].
  - destruct (fails (net s)) eqn:Hs.
    + rewrite shuffled_skips_failure by exact Hs. rewrite IH.
      split; intros H; [now constructor | now inversion H].
    + split; intros H.
      * cbn [Shuffled.fetch_from Priority.fetch_from] in H.
        destruct (net s) as [| | cs]; try discriminate.
        cbn [fails] in Hs. apply Nat.ltb_ge in Hs.
        destruct (30 <=? length cs) eqn:E; [discriminate |].
        apply Nat.leb_gt in E. lia.
      * inversion H; congruence.
Qed.

Lemma shuffled_fetch_message (net : Shuffled.source -> attempt) (limit : Z)
  (sources : list Shuffled.source) (msg : string) :
  Shuffled.fetch_from net limit sources = Raised msg ->
  msg = "All data sources failed"%string.
Proof.
  induction sources as [| s rest IH]; cbn [Shuffled.fetch_from].
  - congruence.
  - destruct (net s) as [| | cs]; try exact IH.
    destruct (30 <=? length cs); [discriminate | exact IH].
Qed.

Lemma priority_fetch_null_iff (net : Priority.source -> attempt)
  (sources : list Priority.source) :
  Priority.fetch_from net sources = Returned None
  <-> Forall (fun s => fails (net s) = true) sources.
Proof.
  induction sources as [| s rest IH].
  - simpl. split; [constructor | reflexivity].
  - destruct (fails (net s)) eqn:Hs.
    + rewrite priority_skips_failure by exact Hs. rewrite IH.
      split; intros H; [now constructor | now inversion H].
    + split; intros H.
      * cbn [Shuffled.fetch_from Priority.fetch_from] in H.
        destruct (net s) as [| | cs]; try discriminate.
        cbn [fails] in Hs. apply Nat.ltb_ge in Hs.
        destruct (30 <=? length cs) eqn:E; [discriminate |].
        apply Nat.leb_gt in E. lia.
      * inversion H; congruence.
Qed.

Lemma priority_fetch_never_raises (net : Priority.source -> attempt)
  (sources : list Priority.source) (msg : string) :
  Priority.fetch_from net sources <> Raised msg.
Proof.
  induction sources as [| s rest IH]; cbn [Priority.fetch_from].
  - discriminate.
  - destruct (net s) as [| | cs]; try exact IH.
    destruct (30 <=? length cs); [discriminate | exact IH].
Qed.

Lemma shuffled_all_sources (P : Shuffled.source -> Prop) :
  Forall P Shuffled.DATA_SOURCES <-> forall s, P s.
Proof.
  split.
  - intros H s. rewrite Forall_forall in H. apply H.
    destruct s; simpl; tauto.
  - intros H. apply Forall_forall. intros s _. apply H.
Qed.

Lemma priority_all_sources (P : Priority.source -> Prop) :
  Forall P (Priority.sort_by_priority Priority.DATA_SOURCES) <-> forall s, P s.
Proof.
  split.
  - intros H s. rewrite Forall_forall in H. apply H.
    destruct s; simpl; tauto.
  - intros H. apply Forall_forall. intros s _. apply H.
Qed.

Lemma shuffled_fetcher_raises_iff (rnd : nat -> nat)
  (net : Shuffled.source -> attempt) (limit : Z) :
  Shuffled.fetchCandlesFallback rnd net limit = Raised "All data sources failed"
  <-> forall s, fails (net s) = true.
Proof.
  unfold Shuffled.fetchCandlesFallback.
  rewrite shuffled_fetch_raises_iff.
  rewrite <- shuffled_all_sources.
  split; apply Permutation_Forall;
    [apply shuffle_permutes | symmetry; apply shuffle_permutes].
Qed.

(** The claim read on [analyzePhysics] fails: when every source throws, the
    caller gets [null], not an error. *)
Lemma exhausted_sources_give_null :
  (forall s : Shuffled.source, fails ((fun _ => Throws) s) = true)
  /\ Shuffled.analyzePhysics sqrtFloor (fun _ => 0) (fun _ => Throws)
       "BTCUSDT" 120 = Returned None
  /\ (forall s : Priority.source, fails ((fun _ => Throws) s) = true)
  /\ Priority.analyzePhysics sqrtFloor (fun _ => Throws) "BTCUSDT"
     = Returned None.
Proof.
  repeat split; reflexivity.
Qed.

(** C3, as the code has it.  In both fetchers a failing source is skipped
    and the walk goes on with the next one.  [fetchCandlesFallback] throws
    ['All data sources failed'] exactly when every source failed, and
    [fetchCandlesMulti], which never throws, returns [null] exactly then.
    [analyzePhysics] passes no error on to its caller: when every source
    failed it returns [null]. *)
Theorem fallback_chain (sqrtQ : Q -> Q) (rnd : nat -> nat)
  (netS : Shuffled.source -> attempt) (netP : Priority.source -> attempt)
  (limit : Z) (sym : string) :
  (forall s rest, fails (netS s) = true ->
     Shuffled.fetch_from netS limit (s :: rest)
     = Shuffled.fetch_from netS limit rest)
  /\ (forall s rest, fails (netP s) = true ->
        Priority.fetch_from netP (s :: rest) = Priority.fetch_from netP rest)
  /\ (Shuffled.fetchCandlesFallback rnd netS limit
        = Raised "All data sources failed"
      <-> forall s, fails (netS s) = true)
  /\ (forall msg, Shuffled.fetchCandlesFallback rnd netS limit = Raised msg ->
        msg = "All data sources failed"%string)
  /\ (Priority.fetchCandlesMulti netP = Returned None
      <-> forall s, fails (netP s) = true)
  /\ (forall msg, Priority.fetchCandlesMulti netP <> Raised msg)
  /\ (forall msg, Shuffled.analyzePhysics sqrtQ rnd netS sym limit <> Raised msg)
  /\ (forall msg, Priority.analyzePhysics sqrtQ netP sym <> Raised msg)
  /\ ((forall s, fails (netS s) = true) ->
        Shuffled.analyzePhysics sqrtQ rnd netS sym limit = Returned None)
  /\ ((forall s, fails (netP s) = true) ->
        Priority.analyzePhysics sqrtQ netP sym = Returned None).
Proof.
  split; [intros s rest; apply shuffled_skips_failure |].
  split; [intros s rest; apply priority_skips_failure |].
  split; [apply shuffled_fetcher_raises_iff |].
  split; [intros msg; apply shuffled_fetch_message |].
  split.
  { unfold Priority.fetchCandlesMulti. rewrite priority_fetch_null_iff.
    apply priority_all_sources. }
  split; [intros msg; apply priority_fetch_never_raises |].
  split.
  { intros msg. unfold Shuffled.analyzePhysics.
    destruct (Shuffled.fetchCandlesFallback _ _ _); discriminate. }
  split.
  { intros msg. unfold Priority.analyzePhysics.
    destruct (Priority.fetchCandlesMulti netP) as [[cs |] | m]; discriminate. }
  split.
  - intros Hall. unfold Shuffled.analyzePhysics.
    assert (Hr : forall l, Shuffled.fetchCandlesFallback rnd netS l
                           = Raised "All data sources failed").
    { intros l. now apply shuffled_fetcher_raises_iff. }
    now rewrite Hr.
  - intros Hall. unfold Priority.analyzePhysics.
    assert (Hr : Priority.fetchCandlesMulti netP = Returned None).
    { unfold Priority.fetchCandlesMulti. apply priority_fetch_null_iff.
      now apply priority_all_sources. }
    now rewrite Hr.
Qed.

(** ** C8 and C9: chronological order *)

(** *** The order of the instants *)

Lemma Qle_bool_false (a b : Q) : Qle_bool a b = false <-> (b < a)%Q.
Proof.
  split; intros H.
  - destruct (Qlt_le_dec b a) as [Hlt | Hle]; [exact Hlt |].
    apply Qle_bool_iff in Hle. congruence.
  - destruct (Qle_bool a b) eqn:E; [| reflexivity].
    apply Qle_bool_iff in E. lra.
Qed.

Ltac order_cases :=
  unfold jgt, jlt, jge;
  repeat match goal with x : jsnum |- _ => destruct x end;
  simpl; intros; try reflexivity; try discriminate;
  repeat match goal with
         | H : negb _ = true |- _ => apply negb_true_iff in H
         | H : negb _ = false |- _ => apply negb_false_iff in H
         | H : Qle_bool _ _ = true |- _ => apply Qle_bool_iff in H
         | H : Qle_bool _ _ = false |- _ => apply Qle_bool_false in H
         end;
  try match goal with
      | |- negb _ = true => apply negb_true_iff
      | |- negb _ = false => apply negb_false_iff
      end;
  try match goal with
      | |- Qle_bool _ _ = true => apply Qle_bool_iff; lra
      | |- Qle_bool _ _ = false => apply Qle_bool_false; lra
      end.

Lemma jgt_irrefl (x : jsnum) : jgt x x = false.
Proof. order_cases. Qed.

Lemma jgt_asym (x y : jsnum) : jgt x y = true -> jgt y x = false.
Proof. order_cases. Qed.

Lemma jgt_jge (x y : jsnum) : jgt x y = true -> jge x y = true.
Proof. order_cases. Qed.

Lemma jge_not_jgt (x y : jsnum) : jge x y = true -> jgt y x = false.
Proof. order_cases. Qed.

Lemma jge_trans (x y z : jsnum) :
  jge x y = true -> jge y z = true -> jge x z = true.
Proof. order_cases. Qed.

Lemma jge_total (x y : jsnum) :
  jge x y = true -> jgt x y = false -> jge y x = true.
Proof. order_cases. Qed.

Lemma jge_refl_left (x y : jsnum) : jge x y = true -> jge x x = true.
Proof. order_cases. Qed.

Lemma jge_refl_right (x y : jsnum) : jge x y = true -> jge y y = true.
Proof. order_cases. Qed.

(** [>] never holds both ways, on strings as on numbers. *)
Lemma string_ltb_asym (s s' : string) :
  String.ltb s s' = true -> String.ltb s' s = false.
Proof.
  unfold String.ltb. rewrite (String.compare_antisym s s').
  now destruct (String.compare s' s).
Qed.

Lemma stamp_gt_asym (a b : stamp) : stamp_gt a b = true -> stamp_gt b a = false.
Proof.
  destruct a as [s n | n], b as [s' n' | n']; cbn [stamp_gt number];
    try apply jgt_asym.
  apply string_ltb_asym.
Qed.

(** A timestamp that is not a string is compared as a number. *)
Lemma plain_compared_by_instant (a b : stamp) :
  (exists n, a = Plain n) \/ (exists n, b = Plain n) ->
  stamp_gt a b = jgt (number a) (number b).
Proof.
  intros [[n ->] | [n ->]]; [reflexivity |]. now destruct a.
Qed.

Lemma numbers_compared_by_instant (cs : list candle) :
  Forall (fun c => exists n, t c = Plain n) cs -> ends_compared_by_instant cs.
Proof.
  intros H. destruct cs as [| c0 tl]; [exact I |].
  cbn [ends_compared_by_instant]. apply plain_compared_by_instant. left.
  now inversion H.
Qed.

(** *** Sorted lists *)

Lemma sortedb_sound {A : Type} (R : A -> A -> Prop) (rb : A -> A -> bool)
  (l : list A) :
  (forall a b, rb a b = true -> R a b) ->
  sortedb rb l = true -> StronglySorted R l.
Proof.
  intros Hrb. induction l as [| x tl IH]; intros H; [constructor |].
  simpl in H. apply andb_prop in H as [Hx Htl].
  constructor; [now apply IH |].
  rewrite forallb_forall in Hx. apply Forall_forall.
  intros y Hy. apply Hrb. now apply Hx.
Qed.

Lemma strongly_sorted_app {A : Type} (R : A -> A -> Prop) (l1 l2 : list A) :
  StronglySorted R l1 -> StronglySorted R l2 ->
  (forall x y, In x l1 -> In y l2 -> R x y) ->
  StronglySorted R (l1 ++ l2).
Proof.
  intros H1 H2 H12. induction H1 as [| a l Hl IH Ha]; [exact H2 |].
  simpl. constructor.
  - apply IH. intros x y Hx Hy. apply H12; [now right | exact Hy].
  - apply Forall_app. split; [exact Ha |].
    apply Forall_forall. intros y Hy. apply H12; [now left | exact Hy].
Qed.

Lemma strongly_sorted_rev {A : Type} (R : A -> A -> Prop) (l : list A) :
  StronglySorted R l -> StronglySorted (fun a b => R b a) (rev l).
Proof.
  induction 1 as [| a l Hl IH Ha]; [constructor |].
  simpl. apply strongly_sorted_app.
  - exact IH.
  - repeat constructor.
  - intros x y Hx [<- | []]. rewrite Forall_forall in Ha.
    apply Ha. now apply in_rev.
Qed.

Lemma strongly_sorted_skipn {A : Type} (R : A -> A -> Prop) (n : nat) :
  forall l : list A, StronglySorted R l -> StronglySorted R (skipn n l).
Proof.
  induction n as [| n IH]; intros l H; [exact H |].
  destruct l as [| a l]; [constructor |].
  simpl. apply IH. now inversion H.
Qed.

Lemma strongly_sorted_weaken {A : Type} (R R' : A -> A -> Prop) (l : list A) :
  (forall a b, R a b -> R' a b) ->
  StronglySorted R l -> StronglySorted R' l.
Proof.
  intros HR. induction 1 as [| a l Hl IH Ha]; constructor; [exact IH |].
  eapply Forall_impl; [| exact Ha]. intros b. apply HR.
Qed.

Lemma last_in {A : Type} (l : list A) (a d : A) : In (last (a :: l) d) (a :: l).
Proof.
  revert a. induction l as [| b l IH]; intros a; [now left |].
  right. change (last (a :: b :: l) d) with (last (b :: l) d). apply IH.
Qed.

Lemma last_of_cons {A : Type} (l : list A) (a b d : A) :
  last (a :: b :: l) d = last (b :: l) d.
Proof.
  reflexivity.
Qed.

(** In a strongly sorted list every element is related to the last one, or
    is the last one. *)
Lemma sorted_before_last {A : Type} (R : A -> A -> Prop) (l : list A) (d : A) :
  StronglySorted R l ->
  forall x, In x l -> x = last l d \/ R x (last l d).
Proof.
  induction 1 as [| a l Hl IH Ha]; intros x Hx; [destruct Hx |].
  destruct l as [| b l].
  - destruct Hx as [<- | []]. now left.
  - rewrite last_of_cons. destruct Hx as [<- | Hx].
    + right. rewrite Forall_forall in Ha. apply Ha. apply last_in.
    + apply IH. exact Hx.
Qed.

(** *** The normalisation on series whose ends [>] compares by instant *)

Lemma chronological_cons (c0 : candle) (tl : list candle) :
  chronological (c0 :: tl)
  = if stamp_gt (t c0) (t (last (c0 :: tl) c0)) then rev (c0 :: tl)
    else c0 :: tl.
Proof.
  reflexivity.
Qed.

Lemma chronological_of_ascending (cs : list candle) :
  ends_compared_by_instant cs -> ascending cs -> chronological cs = cs.
Proof.
  intros He H. destruct cs as [| c0 tl]; [reflexivity |].
  rewrite chronological_cons. cbn [ends_compared_by_instant] in He. rewrite He.
  destruct (sorted_before_last _ _ c0 H c0 (or_introl eq_refl)) as [Hl | Hle].
  - rewrite <- Hl. now rewrite jgt_irrefl.
  - now rewrite (jge_not_jgt _ _ Hle).
Qed.

Lemma chronological_of_strictly_descending (cs : list candle) :
  ends_compared_by_instant cs -> strictly_descending cs ->
  chronological cs = rev cs.
Proof.
  intros He H. destruct cs as [| c0 tl]; [reflexivity |].
  rewrite chronological_cons. cbn [ends_compared_by_instant] in He. rewrite He.
  destruct (sorted_before_last _ _ c0 H c0 (or_introl eq_refl)) as [Hl | Hgt].
  - destruct tl as [| c1 tl].
    { now destruct (jgt (instant c0) (instant (last [c0] c0))). }
    exfalso. inversion H as [| ? ? _ Hall]; subst.
    rewrite Forall_forall in Hall.
    specialize (Hall (last (c1 :: tl) c0) (last_in tl c1 c0)).
    rewrite last_of_cons in Hl. rewrite <- Hl in Hall.
    rewrite jgt_irrefl in Hall. discriminate Hall.
  - now rewrite Hgt.
Qed.

(** A descending series is reversed into an ascending one, or its first
    instant is not above its last one, every instant is the same, and the
    series stays as it is. *)
Lemma chronological_of_descending (cs : list candle) :
  ends_compared_by_instant cs -> descending cs -> ascending (chronological cs).
Proof.
  intros He H. destruct cs as [| c0 tl]; [constructor |].
  rewrite chronological_cons. cbn [ends_compared_by_instant] in He. rewrite He.
  destruct (jgt (instant c0) (instant (last (c0 :: tl) c0))) eqn:Hgt.
  - apply strongly_sorted_rev in H. exact H.
  - destruct tl as [| c1 tl]; [repeat constructor |].
    assert (Hfirst : forall x, In x (c1 :: tl) ->
                       jge (instant c0) (instant x) = true).
    { inversion H as [| ? ? _ Hall]; subst.
      now rewrite Forall_forall in Hall. }
    set (lst := last (c0 :: c1 :: tl) c0) in *.
    assert (Hlast : jge (instant lst) (instant c0) = true).
    { apply jge_total; [| exact Hgt].
      apply Hfirst. unfold lst. rewrite last_of_cons. apply last_in. }
    assert (Hall : forall x, In x (c0 :: c1 :: tl) ->
                     jge (instant c0) (instant x) = true
                     /\ jge (instant x) (instant lst) = true).
    { intros x Hx. split.
      - destruct Hx as [<- | Hx]; [| now apply Hfirst].
        now apply (jge_refl_right (instant lst)).
      - destruct (sorted_before_last _ _ c0 H x Hx) as [-> | Hxl];
          [| exact Hxl].
        now apply (jge_refl_left _ (instant c0)). }
    clear H He Hgt Hfirst. revert Hall. generalize (c0 :: c1 :: tl) as l.
    induction l as [| a l IH]; intros Hall; constructor.
    + apply IH. intros x Hx. apply Hall. now right.
    + apply Forall_forall. intros y Hy.
      destruct (Hall a (or_introl eq_refl)) as [Ha _].
      destruct (Hall y (or_intror Hy)) as [_ Hy'].
      apply (jge_trans _ (instant lst)); [exact Hy' |].
      now apply (jge_trans _ (instant c0)).
Qed.

Lemma chronological_of_monotone (cs : list candle) :
  ends_compared_by_instant cs ->
  ascending cs \/ descending cs -> ascending (chronological cs).
Proof.
  intros He [Ha | Hd].
  - now rewrite chronological_of_ascending.
  - now apply chronological_of_descending.
Qed.

Lemma slice_last_ascending (limit : Z) (cs : list candle) :
  ascending cs -> ascending (slice_last limit cs).
Proof.
  intros H. unfold slice_last. now apply strongly_sorted_skipn.
Qed.

Lemma ascending_adjacent (cs : list candle) :
  ascending cs -> adjacent_ascending cs.
Proof.
  induction 1 as [| a l Hl IH Ha]; intros i c c' Hc Hc'.
  - now destruct i.
  - destruct i as [| i].
    + injection Hc as <-. rewrite Forall_forall in Ha.
      apply Ha. apply (nth_error_In l 0). exact Hc'.
    + apply (IH i); assumption.
Qed.

(** What a fetcher returns is the normalisation of the payload of one of
    its sources, which had 30 candles or more. *)
Lemma shuffled_fetch_origin (net : Shuffled.source -> attempt) (limit : Z)
  (sources : list Shuffled.source) (out : list candle) :
  Shuffled.fetch_from net limit sources = Returned out ->
  exists s cs, In s sources /\ net s = Mapped cs /\ 30 <= length cs
               /\ out = slice_last limit (chronological cs).
Proof.
  induction sources as [| s rest IH]; cbn [Shuffled.fetch_from];
    [discriminate |].
  assert (Hrest : Shuffled.fetch_from net limit rest = Returned out ->
                  exists s' cs, In s' (s :: rest) /\ net s' = Mapped cs
                                /\ 30 <= length cs
                                /\ out = slice_last limit (chronological cs)).
  { intros H. destruct (IH H) as (s' & cs & Hin & Hrest).
    exists s', cs. split; [now right | exact Hrest]. }
  destruct (net s) as [| | cs] eqn:E; try exact Hrest.
  destruct (Nat.leb_spec 30 (length cs)) as [Hlen | _]; [| exact Hrest].
  intros H. injection H as <-.
  exists s, cs. split; [now left |]. now repeat split.
Qed.

Lemma priority_fetch_origin (net : Priority.source -> attempt)
  (sources : list Priority.source) (out : list candle) :
  Priority.fetch_from net sources = Returned (Some out) ->
  exists s cs, In s sources /\ net s = Mapped cs /\ 30 <= length cs
               /\ out = chronological cs.
Proof.
  induction sources as [| s rest IH]; cbn [Priority.fetch_from];
    [discriminate |].
  assert (Hrest : Priority.fetch_from net rest = Returned (Some out) ->
                  exists s' cs, In s' (s :: rest) /\ net s' = Mapped cs
                                /\ 30 <= length cs
                                /\ out = chronological cs).
  { intros H. destruct (IH H) as (s' & cs & Hin & Hrest).
    exists s', cs. split; [now right | exact Hrest]. }
  destruct (net s) as [| | cs] eqn:E; try exact Hrest.
  destruct (Nat.leb_spec 30 (length cs)) as [Hlen | _]; [| exact Hrest].
  intros H. injection H as <-.
  exists s, cs. split; [now left |]. now repeat split.
Qed.

(** The claim fails on a payload in arbitrary order: the thirty candles of
    [jumbled], whose timestamps are numbers, are accepted and returned as
    they came, with the timestamp at index 1 above the one at index 2. *)
Lemma jumbled_payload_stays_jumbled :
  Shuffled.fetchCandlesFallback (fun _ => 0) (fun _ => Mapped jumbled) 120
  = Returned jumbled
  /\ Priority.fetchCandlesMulti (fun _ => Mapped jumbled)
     = Returned (Some jumbled)
  /\ ~ adjacent_ascending jumbled.
Proof.
  split; [vm_compute; reflexivity |].
  split; [vm_compute; reflexivity |].
  intros H.
  pose proof (H 1 _ _ eq_refl eq_refl) as Hle.
  vm_compute in Hle. discriminate Hle.
Qed.

(** C9, as the code has it.  The series a fetcher returns is the
    normalisation of the payload of a source that had 30 candles or more.
    When the instants of that payload run in one direction, oldest first or
    newest first, and [>] compares its first and last timestamps by their
    instants (they are not both strings, or they are strings whose order as
    text is their order as numbers), the returned series has its instants in
    ascending order at every adjacent pair of indices. *)
Theorem monotone_payload_returned_ascending (rnd : nat -> nat)
  (netS : Shuffled.source -> attempt) (netP : Priority.source -> attempt)
  (limit : Z) :
  (forall out, Shuffled.fetchCandlesFallback rnd netS limit = Returned out ->
     exists s cs,
       netS s = Mapped cs /\ 30 <= length cs
       /\ out = slice_last limit (chronological cs)
       /\ (ends_compared_by_instant cs -> ascending cs \/ descending cs ->
           adjacent_ascending out))
  /\ (forall out, Priority.fetchCandlesMulti netP = Returned (Some out) ->
        exists s cs,
          netP s = Mapped cs /\ 30 <= length cs
          /\ out = chronological cs
          /\ (ends_compared_by_instant cs -> ascending cs \/ descending cs ->
              adjacent_ascending out)).
Proof.
  split; intros out H.
  - apply shuffled_fetch_origin in H as (s & cs & _ & Hs & Hlen & ->).
    exists s, cs. repeat split; try assumption.
    intros He Hmono. apply ascending_adjacent, slice_last_ascending.
    now apply chronological_of_monotone.
  - apply priority_fetch_origin in H as (s & cs & _ & Hs & Hlen & ->).
    exists s, cs. repeat split; try assumption.
    intros He Hmono. apply ascending_adjacent.
    now apply chronological_of_monotone.
Qed.

Lemma monotone_payload_returned_ascending_witness :
  Shuffled.fetchCandlesFallback (fun _ => 0) (fun _ => Mapped (rev slide)) 120
  = Returned slide
  /\ ends_compared_by_instant (rev slide)
  /\ descending (rev slide)
  /\ adjacent_ascending slide.
Proof.
  assert (Hfetch : Shuffled.fetchCandlesFallback
                     (fun _ => 0) (fun _ => Mapped (rev slide)) 120
                   = Returned slide) by (vm_compute; reflexivity).
  assert (Hends : ends_compared_by_instant (rev slide))
    by (vm_compute; reflexivity).
  assert (Hdesc : descending (rev slide)).
  { apply (sortedb_sound _ (fun a b => jge (instant a) (instant b)) _
             (fun a b H => H)).
    vm_compute. reflexivity. }
  split; [exact Hfetch |]. split; [exact Hends |]. split; [exact Hdesc |].
  destruct (proj1 (monotone_payload_returned_ascending
                     (fun _ => 0) (fun _ => Mapped (rev slide))
                     (fun _ => Throws) 120) slide Hfetch)
    as (s & cs & Hs & _ & _ & Hmono).
  injection Hs as <-. apply Hmono; [exact Hends | now right].
Defined.

(** Both fetch loops give the same result on two payloads that the
    normalisation brings to the same series. *)
Lemma shuffled_fetch_mirror (net : Shuffled.source -> attempt)
  (src : Shuffled.source) (cs : list candle) (limit : Z)
  (sources : list Shuffled.source) :
  chronological cs = chronological (rev cs) ->
  Shuffled.fetch_from (answering shuffled_eqb net src (Mapped cs)) limit sources
  = Shuffled.fetch_from (answering shuffled_eqb net src (Mapped (rev cs)))
                        limit sources.
Proof.
  intros Hc.
  induction sources as [| s rest IH]; cbn [Shuffled.fetch_from];
    [reflexivity |].
  change (answering shuffled_eqb net src (Mapped cs) s)
    with (if shuffled_eqb s src then Mapped cs else net s).
  change (answering shuffled_eqb net src (Mapped (rev cs)) s)
    with (if shuffled_eqb s src then Mapped (rev cs) else net s).
  destruct (shuffled_eqb s src).
  - rewrite length_rev, <- Hc. now rewrite IH.
  - now rewrite IH.
Qed.

Lemma priority_fetch_mirror (net : Priority.source -> attempt)
  (src : Priority.source) (cs : list candle)
  (sources : list Priority.source) :
  chronological cs = chronological (rev cs) ->
  Priority.fetch_from (answering priority_eqb net src (Mapped cs)) sources
  = Priority.fetch_from (answering priority_eqb net src (Mapped (rev cs)))
                        sources.
Proof.
  intros Hc.
  induction sources as [| s rest IH]; cbn [Priority.fetch_from];
    [reflexivity |].
  change (answering priority_eqb net src (Mapped cs) s)
    with (if priority_eqb s src then Mapped cs else net s).
  change (answering priority_eqb net src (Mapped (rev cs)) s)
    with (if priority_eqb s src then Mapped (rev cs) else net s).
  destruct (priority_eqb s src).
  - rewrite length_rev, <- Hc. now rewrite IH.
  - now rewrite IH.
Qed.

(** C8, on the code.  The forty rows of [rev slideText] arrive newest first
    with the strings ["100"], ["99"], ... ["61"] as timestamps, strictly
    descending instants.  [>] compares ["100"] and ["61"] as text, finds
    ["100"] below ["61"] and leaves the series newest first; on the
    ascending mirror it finds ["61"] above ["100"] and turns that series
    newest first as well.  Both payloads end in the same series, which is
    not ascending; both fetchers return it, and [analyzePhysics] finds no
    signal in it.  With the same timestamps converted to numbers the
    series is normalised to strictly ascending instants and
    [analyzePhysics] reports the LONG signal of the slide. *)
Theorem string_timestamps_are_not_normalised :
  strictly_descending (rev slideText)
  /\ chronological (rev slideText) = rev slideText
  /\ chronological slideText = rev slideText
  /\ ~ adjacent_ascending (chronological (rev slideText))
  /\ Shuffled.fetchCandlesFallback (fun _ => 0)
       (fun _ => Mapped (rev slideText)) 120
     = Returned (rev slideText)
  /\ Priority.fetchCandlesMulti (fun _ => Mapped (rev slideText))
     = Returned (Some (rev slideText))
  /\ Shuffled.analyzePhysics sqrtFloor (fun _ => 0)
       (fun _ => Mapped (rev slideText)) "BTC/USDT" 120
     = Returned None
  /\ Priority.analyzePhysics sqrtFloor
       (fun _ => Mapped (rev slideText)) "BTCUSDT"
     = Returned None
  /\ chronological (converted (rev slideText)) = converted slideText
  /\ strictly_ascending (converted slideText)
  /\ (match Priority.analyzePhysics sqrtFloor
               (fun _ => Mapped (converted (rev slideText))) "BTCUSDT" with
      | Returned (Some sig) => Some (Priority.side sig)
      | _ => None
      end) = Some LONG.
Proof.
  split.
  { apply (sortedb_sound _ (fun a b => jgt (instant a) (instant b)) _
             (fun a b H => H)).
    vm_compute. reflexivity. }
  split; [vm_compute; reflexivity |].
  split; [vm_compute; reflexivity |].
  split.
  { intros H. pose proof (H 0 _ _ eq_refl eq_refl) as Hle.
    vm_compute in Hle. discriminate Hle. }
  split; [vm_compute; reflexivity |].
  split; [vm_compute; reflexivity |].
  split; [vm_compute; reflexivity |].
  split; [vm_compute; reflexivity |].
  split; [vm_compute; reflexivity |].
  split.
  { apply (sortedb_sound _ (fun a b => jgt (instant b) (instant a)) _
             (fun a b H => H)).
    vm_compute. reflexivity. }
  vm_compute. reflexivity.
Qed.

(** ** The decision, unfolded *)

Lemma shuffled_analyze_some (sqrtQ : Q -> Q) (sym : string)
  (candles : list candle) (sig : Shuffled.signal) :
  Shuffled.analyzeCandles sqrtQ sym candles = Some sig ->
  40 <= length candles
  /\ Shuffled.decide sym (Shuffled.indicators sqrtQ candles) = Some sig.
Proof.
  unfold Shuffled.analyzeCandles.
  destruct (Nat.ltb_spec (length candles) 40); [discriminate | now split].
Qed.

Lemma priority_analyze_some (sqrtQ : Q -> Q) (sym : string)
  (candles : list candle) (sig : Priority.signal) :
  Priority.analyzeCandles sqrtQ sym candles = Some sig ->
  40 <= length candles
  /\ Priority.decide sym (Priority.indicators sqrtQ candles) = Some sig.
Proof.
  unfold Priority.analyzeCandles.
  destruct (Nat.ltb_spec (length candles) 40); [discriminate | now split].
Qed.

(** What a signal of the shuffled generation is made of. *)
Lemma shuffled_decide_some (sym : string) (s : Shuffled.snapshot)
  (sig : Shuffled.signal) :
  Shuffled.decide sym s = Some sig ->
  let e := toNumber (Shuffled.lastClose s) in
  let a := toNumber (Shuffled.lastAtr s) in
  let levels := priceLevels (Shuffled.side sig) e a in
  let r := riskReward e (fst levels) (snd levels) in
  Shuffled.entryRule s = Some (Shuffled.side sig)
  /\ Shuffled.entry sig = e
  /\ Shuffled.sl sig = fst levels
  /\ Shuffled.tp sig = snd levels
  /\ Shuffled.rr sig
     = (if vtruthy r then VNum (toFixed 2 (toNumber r)) else VNull)
  /\ Shuffled.confidence sig
     = Shuffled.confidenceScore (Shuffled.side sig)
         (toNumber (Shuffled.lastRsi s)) (toNumber (Shuffled.lastA s)) e a.
Proof.
  unfold Shuffled.decide.
  destruct (is_null (Shuffled.lastRsi s) || is_null (Shuffled.lastLowerBB s)
            || is_null (Shuffled.lastUpperBB s)
            || is_null (Shuffled.lastAtr s)); [discriminate |].
  destruct (Shuffled.entryRule s) as [sd |]; [| discriminate].
  destruct (priceLevels sd (toNumber (Shuffled.lastClose s))
                        (toNumber (Shuffled.lastAtr s))) as [sl0 tp0] eqn:Hlv.
  intros H. injection H as <-. cbn -[priceLevels riskReward toFixed].
  rewrite Hlv. cbn [fst snd]. repeat split; reflexivity.
Qed.

(** What a signal of the priority generation is made of. *)
Lemma priority_decide_some (sym : string) (s : Priority.snapshot)
  (sig : Priority.signal) :
  Priority.decide sym s = Some sig ->
  let e := toNumber (Priority.lastClose s) in
  let a := toNumber (Priority.lastAtr s) in
  let levels := priceLevels (Priority.side sig) e a in
  Priority.entryRule s = Some (Priority.side sig)
  /\ existsb is_missing
       [Priority.lastRsi s; Priority.lastLower s; Priority.lastUpper s;
        Priority.lastA s; Priority.lastAtr s] = false
  /\ Priority.entry sig = e
  /\ Priority.sl sig = fst levels
  /\ Priority.tp sig = snd levels
  /\ Priority.rr sig = toNumber (riskReward e (fst levels) (snd levels)).
Proof.
  unfold Priority.decide.
  destruct (existsb is_missing _); [discriminate |].
  destruct (Priority.entryRule s) as [sd |]; [| discriminate].
  destruct (priceLevels sd (toNumber (Priority.lastClose s))
                        (toNumber (Priority.lastAtr s))) as [sl0 tp0] eqn:Hlv.
  intros H. injection H as <-. cbn -[priceLevels riskReward].
  rewrite Hlv. cbn [fst snd]. repeat split; reflexivity.
Qed.

(** The entry rules give a side only under their three comparisons. *)
Lemma shuffled_entry_rule (s : Shuffled.snapshot) (sd : Side) :
  Shuffled.entryRule s = Some sd ->
  match sd with
  | LONG =>
      jlt (toNumber (Shuffled.lastRsi s)) (Fin 30) = true
      /\ jlt (toNumber (Shuffled.lastClose s))
             (toNumber (Shuffled.lastLowerBB s)) = true
      /\ jgt (toNumber (Shuffled.lastA s)) (Fin 0) = true
  | SHORT =>
      jgt (toNumber (Shuffled.lastRsi s)) (Fin 70) = true
      /\ jgt (toNumber (Shuffled.lastClose s))
             (toNumber (Shuffled.lastUpperBB s)) = true
      /\ jlt (toNumber (Shuffled.lastA s)) (Fin 0) = true
  end.
Proof.
  unfold Shuffled.entryRule.
  destruct (jgt (toNumber (Shuffled.lastRsi s)) (Fin 70)
            && jgt (toNumber (Shuffled.lastClose s))
                   (toNumber (Shuffled.lastUpperBB s))
            && jlt (toNumber (Shuffled.lastA s)) (Fin 0)) eqn:Hs.
  - intros H. injection H as <-.
    apply andb_prop in Hs as [Hs ?]. apply andb_prop in Hs as [? ?]. tauto.
  - destruct (jlt (toNumber (Shuffled.lastRsi s)) (Fin 30)
              && jlt (toNumber (Shuffled.lastClose s))
                     (toNumber (Shuffled.lastLowerBB s))
              && jgt (toNumber (Shuffled.lastA s)) (Fin 0)) eqn:Hl;
      [| discriminate].
    intros H. injection H as <-.
    apply andb_prop in Hl as [Hl ?]. apply andb_prop in Hl as [? ?]. tauto.
Qed.

Lemma priority_entry_rule (s : Priority.snapshot) (sd : Side) :
  Priority.entryRule s = Some sd ->
  match sd with
  | LONG =>
      jlt (toNumber (Priority.lastRsi s)) (Fin 30) = true
      /\ jlt (toNumber (Priority.lastClose s))
             (toNumber (Priority.lastLower s)) = true
      /\ jgt (toNumber (Priority.lastA s)) (Fin 0) = true
  | SHORT =>
      jgt (toNumber (Priority.lastRsi s)) (Fin 70) = true
      /\ jgt (toNumber (Priority.lastClose s))
             (toNumber (Priority.lastUpper s)) = true
      /\ jlt (toNumber (Priority.lastA s)) (Fin 0) = true
  end.
Proof.
  unfold Priority.entryRule.
  destruct (jlt (toNumber (Priority.lastRsi s)) (Fin 30)
            && jlt (toNumber (Priority.lastClose s))
                   (toNumber (Priority.lastLower s))
            && jgt (toNumber (Priority.lastA s)) (Fin 0)) eqn:Hl.
  - intros H. injection H as <-.
    apply andb_prop in Hl as [Hl ?]. apply andb_prop in Hl as [? ?]. tauto.
  - destruct (jgt (toNumber (Priority.lastRsi s)) (Fin 70)
              && jgt (toNumber (Priority.lastClose s))
                     (toNumber (Priority.lastUpper s))
              && jlt (toNumber (Priority.lastA s)) (Fin 0)) eqn:Hs;
      [| discriminate].
    intros H. injection H as <-.
    apply andb_prop in Hs as [Hs ?]. apply andb_prop in Hs as [? ?]. tauto.
Qed.

(** ** Exact arithmetic of the price levels *)

Lemma Qabs_of (x y : Q) : (0 <= y -> x == y \/ x == - y -> Qabs x == y)%Q.
Proof.
  intros Hy [H | H]; rewrite H.
  - now apply Qabs_pos.
  - rewrite Qabs_opp. now apply Qabs_pos.
Qed.

(** With a finite entry and a finite ATR above zero the ratio of the two
    distances is 2, on both sides. *)
Lemma riskReward_two (sd : Side) (e a : Q) :
  (0 < a)%Q ->
  exists q,
    riskReward (Fin e) (fst (priceLevels sd (Fin e) (Fin a)))
               (snd (priceLevels sd (Fin e) (Fin a))) = VNum (Fin q)
    /\ (q == 2)%Q.
Proof.
  intros Ha.
  assert (Hk : forall x y : Q,
             (Qabs x == 3 * a)%Q -> (Qabs y == (3 # 2) * a)%Q ->
             exists q,
               (if truthy (jdiv (Fin (Qabs x)) (Fin (Qabs y)))
                then VNum (jdiv (Fin (Qabs x)) (Fin (Qabs y)))
                else VNull) = VNum (Fin q) /\ (q == 2)%Q).
  { intros x y Hx Hy. unfold jdiv, is_zero.
    destruct (Qeq_bool (Qabs y) 0) eqn:E.
    - apply Qeq_bool_iff in E. rewrite Hy in E. lra.
    - assert (Hq : (Qabs x / Qabs y == 2)%Q).
      { rewrite Hx, Hy. field. lra. }
      unfold truthy, is_zero.
      destruct (Qeq_bool (Qabs x / Qabs y) 0) eqn:E2.
      + apply Qeq_bool_iff in E2. rewrite Hq in E2. lra.
      + simpl. eexists. split; [reflexivity | exact Hq]. }
  destruct sd; cbn [priceLevels fst snd]; unfold riskReward;
    cbn [jsub jadd jopp jmul jabs]; apply Hk; apply Qabs_of; lra.
Qed.

(** With an ATR of zero the ratio is [0 / 0], and [NaN || null] is
    [null]. *)
Lemma riskReward_null (sd : Side) (e a : Q) :
  (a == 0)%Q ->
  riskReward (Fin e) (fst (priceLevels sd (Fin e) (Fin a)))
             (snd (priceLevels sd (Fin e) (Fin a))) = VNull.
Proof.
  intros Ha.
  assert (Hk : forall x y : Q,
             (Qabs x == 0)%Q -> (Qabs y == 0)%Q ->
             (if truthy (jdiv (Fin (Qabs x)) (Fin (Qabs y)))
              then VNum (jdiv (Fin (Qabs x)) (Fin (Qabs y)))
              else VNull) = VNull).
  { intros x y Hx Hy. unfold jdiv, is_zero.
    apply Qeq_bool_iff in Hx, Hy. now rewrite Hx, Hy. }
  destruct sd; cbn [priceLevels fst snd]; unfold riskReward;
    cbn [jsub jadd jopp jmul jabs]; apply Hk; apply Qabs_of; lra.
Qed.

Lemma toFixed2_of_two (q : Q) : (q == 2)%Q -> jeq (toFixed 2 (Fin q)) (Fin 2).
Proof.
  intros H.
  assert (E1 : Qle_bool (pow10 21) (Qabs q) = false) by now rewrite H.
  assert (E2 : is_neg q = false) by (unfold is_neg; now rewrite H).
  assert (E3 : Qfloor (Qabs q * pow10 2 + (1 # 2)) = 200%Z) by now rewrite H.
  unfold toFixed. rewrite E1, E2, E3. reflexivity.
Qed.

(** ** The close at the last index is part of the Bollinger window *)

Lemma fold_absorbs_pinf (g : jsnum -> jsnum) (l : list jsnum) :
  g PInf = PInf ->
  forall acc, pinf_or_nan acc \/ In PInf l ->
              pinf_or_nan (fold_left (fun a b => jadd a (g b)) l acc).
Proof.
  intros Hg. induction l as [| b l IH]; intros acc H; simpl.
  - destruct H as [H | []]. exact H.
  - apply IH. destruct H as [[-> | ->] | [-> | Hin]].
    + left. destruct (g b); simpl; unfold pinf_or_nan; auto.
    + left. right. reflexivity.
    + left. rewrite Hg. destruct acc; simpl; unfold pinf_or_nan; auto.
    + now right.
Qed.

Lemma fold_absorbs_ninf (g : jsnum -> jsnum) (l : list jsnum) :
  g NInf = NInf ->
  forall acc, ninf_or_nan acc \/ In NInf l ->
              ninf_or_nan (fold_left (fun a b => jadd a (g b)) l acc).
Proof.
  intros Hg. induction l as [| b l IH]; intros acc H; simpl.
  - destruct H as [H | []]. exact H.
  - apply IH. destruct H as [[-> | ->] | [-> | Hin]].
    + left. destruct (g b); simpl; unfold ninf_or_nan; auto.
    + left. right. reflexivity.
    + left. rewrite Hg. destruct acc; simpl; unfold ninf_or_nan; auto.
    + now right.
Qed.

Lemma is_neg_ofNat (n : nat) : is_neg (inject_Z (Z.of_nat n)) = false.
Proof.
  unfold is_neg. apply negb_false_iff. apply Qle_bool_iff.
  change 0%Q with (inject_Z 0). rewrite <- Zle_Qle. lia.
Qed.

Lemma jdiv_pinf_or_nan (x : jsnum) (n : nat) :
  pinf_or_nan x -> pinf_or_nan (jdiv x (ofNat n)).
Proof.
  intros [-> | ->]; unfold ofNat; simpl; [| now right].
  rewrite is_neg_ofNat. now left.
Qed.

Lemma jdiv_ninf_or_nan (x : jsnum) (n : nat) :
  ninf_or_nan x -> ninf_or_nan (jdiv x (ofNat n)).
Proof.
  intros [-> | ->]; unfold ofNat; simpl; [| now right].
  rewrite is_neg_ofNat. now left.
Qed.

(** The trailing window at the last index holds the last value. *)
Lemma last_in_window {A : Type} (arr : list A) (period : nat) (x : A) :
  1 <= period ->
  nth_error arr (length arr - 1) = Some x ->
  In x (slice (length arr - 1 + 1 - period) (length arr - 1 + 1) arr).
Proof.
  intros Hp Hx.
  assert (Hlen : length arr - 1 < length arr).
  { apply nth_error_Some. now rewrite Hx. }
  unfold slice.
  set (a := length arr - 1 + 1 - period).
  apply (nth_error_In _ (length arr - 1 - a)).
  rewrite nth_error_firstn.
  destruct (Nat.ltb_spec (length arr - 1 - a) (length arr - 1 + 1 - a));
    [| unfold a in *; lia].
  rewrite nth_error_skipn. rewrite <- Hx. f_equal. unfold a. lia.
Qed.

Lemma jsqrt_not_ninf (sqrtQ : Q -> Q) (x : jsnum) : jsqrt sqrtQ x <> NInf.
Proof.
  destruct x as [q | | |]; simpl; try discriminate.
  destruct (is_neg q); discriminate.
Qed.

Lemma twice_not_ninf (x : jsnum) : x <> NInf -> jmul (Fin 2) x <> NInf.
Proof.
  intros Hx. destruct x as [q | | |].
  - discriminate.
  - vm_compute. discriminate.
  - congruence.
  - discriminate.
Qed.

(** The bands at the last index, in both generations: a middle [m] that is
    the mean of a window with the last close in it, and a half-width [w]
    that is never [-Infinity]. *)
Lemma shuffled_bands (sqrtQ : Q -> Q) (candles : list candle) :
  1 <= length candles ->
  let s := Shuffled.indicators sqrtQ candles in
  exists c m w,
    Shuffled.lastClose s = VNum c
    /\ Shuffled.lastLowerBB s = VNum (jsub m w)
    /\ Shuffled.lastUpperBB s = VNum (jadd m w)
    /\ w <> NInf
    /\ (c = PInf -> pinf_or_nan m)
    /\ (c = NInf -> ninf_or_nan m).
Proof.
  intros Hlen. unfold Shuffled.indicators.
  cbn [Shuffled.lastClose Shuffled.lastLowerBB Shuffled.lastUpperBB].
  set (closes := map close candles).
  assert (Hcl : length closes = length candles) by apply length_map.
  assert (Hidx : length closes - 1 < length closes) by lia.
  destruct (nth_error closes (length closes - 1)) as [c |] eqn:Hc;
    [| apply nth_error_None in Hc; lia].
  set (win := slice (length closes - 1 + 1 - 20) (length closes - 1 + 1) closes).
  exists c,
    (jdiv (fold_left (fun a b => jadd a (jor b (Fin 0))) win (Fin 0))
          (ofNat (length win))),
    (jmul (Fin 2)
       (toNumber (vor (at_numv (Shuffled.rollingStd sqrtQ closes 20)
                               (length closes - 1)) (Fin 0)))).
  assert (Hsma : nth_error (Shuffled.sma closes 20) (length closes - 1)
                 = Some (jdiv (fold_left (fun a b => jadd a (jor b (Fin 0)))
                                         win (Fin 0))
                              (ofNat (length win)))).
  { unfold Shuffled.sma. rewrite nth_error_for_from by lia. reflexivity. }
  split; [unfold at_numv; now rewrite Hc |].
  split.
  { unfold at_numv, Shuffled.lowerBand. rewrite nth_error_mapi, Hsma.
    reflexivity. }
  split.
  { unfold at_numv, Shuffled.upperBand. rewrite nth_error_mapi, Hsma.
    reflexivity. }
  split.
  { apply twice_not_ninf. unfold Shuffled.rollingStd.
    rewrite at_numv_for_from by exact Hidx. unfold vor. cbn [vtruthy].
    destruct (truthy _); cbn [toNumber]; [apply jsqrt_not_ninf | discriminate]. }
  assert (Hin : In c win) by (apply last_in_window; [lia | exact Hc]).
  split; intros ->.
  - apply jdiv_pinf_or_nan.
    apply (fold_absorbs_pinf (fun b => jor b (Fin 0))); [reflexivity | now right].
  - apply jdiv_ninf_or_nan.
    apply (fold_absorbs_ninf (fun b => jor b (Fin 0))); [reflexivity | now right].
Qed.

Lemma priority_bands (sqrtQ : Q -> Q) (candles : list candle) :
  20 <= length candles ->
  let s := Priority.indicators sqrtQ candles in
  exists c m w,
    Priority.lastClose s = VNum c
    /\ Priority.lastLower s = VNum (jsub m w)
    /\ Priority.lastUpper s = VNum (jadd m w)
    /\ w <> NInf
    /\ (c = PInf -> pinf_or_nan m)
    /\ (c = NInf -> ninf_or_nan m).
Proof.
  intros Hlen. unfold Priority.indicators, Priority.computeVelocityAcceleration.
  cbn [Priority.lastClose Priority.lastLower Priority.lastUpper].
  set (closes := map close candles).
  assert (Hcl : length closes = length candles) by apply length_map.
  assert (Hidx : length closes - 1 < length closes) by lia.
  destruct (nth_error closes (length closes - 1)) as [c |] eqn:Hc;
    [| apply nth_error_None in Hc; lia].
  set (win := slice (length closes - 1 + 1 - 20) (length closes - 1 + 1) closes).
  assert (Hsma : nth_error (Priority.sma closes 20) (length closes - 1)
                 = Some (VNum (jdiv (sum win) (ofNat 20)))).
  { unfold Priority.sma. rewrite nth_error_for_from by lia.
    cbn [Nat.add].
    destruct (Nat.ltb_spec (length closes - 1 + 1) 20); [lia | reflexivity]. }
  assert (Hsd : exists variance,
             at_val (Priority.stddev sqrtQ closes 20) (length closes - 1)
             = VNum (jsqrt sqrtQ variance)).
  { unfold Priority.stddev. rewrite at_val_for_from by exact Hidx.
    destruct (Nat.ltb_spec (length closes - 1 + 1) 20); [lia |].
    eexists. reflexivity. }
  destruct Hsd as [variance Hsd].
  exists c, (jdiv (sum win) (ofNat 20)), (jmul (Fin 2) (jsqrt sqrtQ variance)).
  split; [unfold at_numv; now rewrite Hc |].
  split.
  { unfold at_val, Priority.bbLower.
    erewrite nth_error_nth by (rewrite nth_error_mapi, Hsma; reflexivity).
    cbn [is_null toNumber]. fold (at_val (Priority.stddev sqrtQ closes 20)
                                         (length closes - 1)).
    now rewrite Hsd. }
  split.
  { unfold at_val, Priority.bbUpper.
    erewrite nth_error_nth by (rewrite nth_error_mapi, Hsma; reflexivity).
    cbn [is_null toNumber]. fold (at_val (Priority.stddev sqrtQ closes 20)
                                         (length closes - 1)).
    now rewrite Hsd. }
  split; [apply twice_not_ninf, jsqrt_not_ninf |].
  assert (Hin : In c win) by (apply last_in_window; [lia | exact Hc]).
  split; intros ->.
  - apply jdiv_pinf_or_nan.
    apply (fold_absorbs_pinf (fun b => b)); [reflexivity | now right].
  - apply jdiv_ninf_or_nan.
    apply (fold_absorbs_ninf (fun b => b)); [reflexivity | now right].
Qed.

(** A close that is under the lower band or over the upper band is a finite
    number. *)
Lemma outside_bands_is_finite (c m w : jsnum) :
  w <> NInf ->
  (c = PInf -> pinf_or_nan m) ->
  (c = NInf -> ninf_or_nan m) ->
  jlt c (jsub m w) = true \/ jgt c (jadd m w) = true ->
  is_finite c.
Proof.
  intros Hw Hp Hn H. destruct c as [q | | |]; [exact I | | |].
  - destruct (Hp eq_refl) as [-> | ->];
      destruct w; simpl in H; try congruence; destruct H; discriminate.
  - destruct (Hn eq_refl) as [-> | ->];
      destruct w; simpl in H; try congruence; destruct H; discriminate.
  - simpl in H. destruct H as [H | H]; [discriminate |].
    unfold jgt in H. destruct (jadd m w); discriminate.
Qed.

Lemma shuffled_entry_is_finite (sqrtQ : Q -> Q) (sym : string)
  (candles : list candle) (sig : Shuffled.signal) :
  Shuffled.analyzeCandles sqrtQ sym candles = Some sig ->
  is_finite (Shuffled.entry sig).
Proof.
  intros H. apply shuffled_analyze_some in H as [Hlen H].
  apply shuffled_decide_some in H as (Hrule & He & _).
  apply shuffled_entry_rule in Hrule.
  destruct (shuffled_bands sqrtQ candles ltac:(lia))
    as (c & m & w & Hc & Hlo & Hup & Hw & Hp & Hn).
  rewrite He, Hc. cbn [toNumber].
  rewrite Hc, Hlo, Hup in Hrule. cbn [toNumber] in Hrule.
  apply (outside_bands_is_finite c m w Hw Hp Hn).
  destruct (Shuffled.side sig); [left | right]; apply Hrule.
Qed.

Lemma priority_entry_is_finite (sqrtQ : Q -> Q) (sym : string)
  (candles : list candle) (sig : Priority.signal) :
  Priority.analyzeCandles sqrtQ sym candles = Some sig ->
  is_finite (Priority.entry sig).
Proof.
  intros H. apply priority_analyze_some in H as [Hlen H].
  apply priority_decide_some in H as (Hrule & _ & He & _).
  apply priority_entry_rule in Hrule.
  destruct (priority_bands sqrtQ candles ltac:(lia))
    as (c & m & w & Hc & Hlo & Hup & Hw & Hp & Hn).
  rewrite He, Hc. cbn [toNumber].
  rewrite Hc, Hlo, Hup in Hrule. cbn [toNumber] in Hrule.
  apply (outside_bands_is_finite c m w Hw Hp Hn).
  destruct (Priority.side sig); [left | right]; apply Hrule.
Qed.

(** ** C5: the price levels *)

Lemma levels_by_side (sd : Side) (e a : jsnum) :
  match sd with
  | LONG =>
      fst (priceLevels sd e a) = jsub e (jmul (Fin (3 # 2)) a)
      /\ snd (priceLevels sd e a) = jadd e (jmul (Fin 3) a)
  | SHORT =>
      fst (priceLevels sd e a) = jadd e (jmul (Fin (3 # 2)) a)
      /\ snd (priceLevels sd e a) = jsub e (jmul (Fin 3) a)
  end.
Proof.
  destruct sd; split; reflexivity.
Qed.

Lemma jeq_fin (x : jsnum) (q : Q) :
  jeq x (Fin q) -> exists p, x = Fin p /\ (p == q)%Q.
Proof.
  destruct x as [p | | |]; simpl; try contradiction.
  intros H. now exists p.
Qed.

(** C5.  In every signal the entry is the last close; a LONG signal has
    [sl = entry - 1.5 * ATR] and [tp = entry + 3.0 * ATR], a SHORT signal
    [sl = entry + 1.5 * ATR] and [tp = entry - 3.0 * ATR], with the ATR of
    the last index; and a LONG signal at entry 100 with ATR 2 has
    [sl = 97], [tp = 106] and [rr = 2.00].  Both generations. *)
Theorem price_levels_of_signal (sqrtQ : Q -> Q) (sym : string)
  (candles : list candle) :
  (forall sig, Shuffled.analyzeCandles sqrtQ sym candles = Some sig ->
     let s := Shuffled.indicators sqrtQ candles in
     let e := toNumber (Shuffled.lastClose s) in
     let atr := toNumber (Shuffled.lastAtr s) in
     Shuffled.entry sig = e
     /\ match Shuffled.side sig with
        | LONG =>
            Shuffled.sl sig = jsub e (jmul (Fin (3 # 2)) atr)
            /\ Shuffled.tp sig = jadd e (jmul (Fin 3) atr)
        | SHORT =>
            Shuffled.sl sig = jadd e (jmul (Fin (3 # 2)) atr)
            /\ Shuffled.tp sig = jsub e (jmul (Fin 3) atr)
        end
     /\ (Shuffled.side sig = LONG -> jeq e (Fin 100) -> jeq atr (Fin 2) ->
         jeq (Shuffled.sl sig) (Fin 97)
         /\ jeq (Shuffled.tp sig) (Fin 106)
         /\ veq (Shuffled.rr sig) (VNum (Fin 2))))
  /\ (forall sig, Priority.analyzeCandles sqrtQ sym candles = Some sig ->
        let s := Priority.indicators sqrtQ candles in
        let e := toNumber (Priority.lastClose s) in
        let atr := toNumber (Priority.lastAtr s) in
        Priority.entry sig = e
        /\ match Priority.side sig with
           | LONG =>
               Priority.sl sig = jsub e (jmul (Fin (3 # 2)) atr)
               /\ Priority.tp sig = jadd e (jmul (Fin 3) atr)
           | SHORT =>
               Priority.sl sig = jadd e (jmul (Fin (3 # 2)) atr)
               /\ Priority.tp sig = jsub e (jmul (Fin 3) atr)
           end
        /\ (Priority.side sig = LONG -> jeq e (Fin 100) -> jeq atr (Fin 2) ->
            jeq (Priority.sl sig) (Fin 97)
            /\ jeq (Priority.tp sig) (Fin 106)
            /\ jeq (Priority.rr sig) (Fin 2))).
Proof.
  split; intros sig H s e atr.
  - apply shuffled_analyze_some in H as [_ H].
    apply shuffled_decide_some in H as (_ & He & Hsl & Htp & Hrr & _).
    fold s e atr in He, Hsl, Htp, Hrr.
    pose proof (levels_by_side (Shuffled.side sig) e atr) as Hlv.
    split; [exact He |]. split.
    { destruct (Shuffled.side sig); rewrite Hsl, Htp; exact Hlv. }
    intros Hside He100 Ha2.
    apply jeq_fin in He100 as (qe & Hqe & He100).
    apply jeq_fin in Ha2 as (qa & Hqa & Ha2).
    rewrite Hsl, Htp, Hrr, Hside, Hqe, Hqa.
    destruct (riskReward_two LONG qe qa ltac:(lra)) as (q & Hq & Hq2).
    rewrite Hq. cbn [vtruthy toNumber truthy].
    assert (Hz : is_zero q = false).
    { unfold is_zero. destruct (Qeq_bool q 0) eqn:E; [| reflexivity].
      apply Qeq_bool_iff in E. lra. }
    rewrite Hz. cbn [negb veq].
    split; [| split; [| now apply toFixed2_of_two]]; simpl; lra.
  - apply priority_analyze_some in H as [_ H].
    apply priority_decide_some in H as (_ & _ & He & Hsl & Htp & Hrr).
    fold s e atr in He, Hsl, Htp, Hrr.
    pose proof (levels_by_side (Priority.side sig) e atr) as Hlv.
    split; [exact He |]. split.
    { destruct (Priority.side sig); rewrite Hsl, Htp; exact Hlv. }
    intros Hside He100 Ha2.
    apply jeq_fin in He100 as (qe & Hqe & He100).
    apply jeq_fin in Ha2 as (qa & Hqa & Ha2).
    rewrite Hsl, Htp, Hrr, Hside, Hqe, Hqa.
    destruct (riskReward_two LONG qe qa ltac:(lra)) as (q & Hq & Hq2).
    rewrite Hq. cbn [toNumber].
    split; [| split; [| exact Hq2]]; simpl; lra.
Qed.

Lemma price_levels_of_signal_witness :
  match Shuffled.analyzeCandles sqrtFloor "BTC/USDT" slide with
  | Some sig =>
      jeq (Shuffled.entry sig) (Fin 100)
      /\ jeq (Shuffled.sl sig) (Fin 97)
      /\ jeq (Shuffled.tp sig) (Fin 106)
      /\ veq (Shuffled.rr sig) (VNum (Fin 2))
  | None => False
  end
  /\ match Priority.analyzeCandles sqrtFloor "BTCUSDT" slide with
     | Some sig =>
         jeq (Priority.entry sig) (Fin 100)
         /\ jeq (Priority.sl sig) (Fin 97)
         /\ jeq (Priority.tp sig) (Fin 106)
         /\ jeq (Priority.rr sig) (Fin 2)
     | None => False
     end.
Proof.
  split.
  - destruct (Shuffled.analyzeCandles sqrtFloor "BTC/USDT" slide)
      as [sig |] eqn:E; [| vm_compute in E; discriminate E].
    destruct (proj1 (price_levels_of_signal sqrtFloor "BTC/USDT" slide) sig E)
      as (He & _ & Hex).
    assert (Hside : Shuffled.side sig = LONG).
    { vm_compute in E. injection E as <-. reflexivity. }
    assert (He100 : jeq (toNumber (Shuffled.lastClose
                                     (Shuffled.indicators sqrtFloor slide)))
                        (Fin 100)) by (vm_compute; reflexivity).
    assert (Ha2 : jeq (toNumber (Shuffled.lastAtr
                                   (Shuffled.indicators sqrtFloor slide)))
                      (Fin 2)) by (vm_compute; reflexivity).
    split; [now rewrite He | exact (Hex Hside He100 Ha2)].
  - destruct (Priority.analyzeCandles sqrtFloor "BTCUSDT" slide)
      as [sig |] eqn:E; [| vm_compute in E; discriminate E].
    destruct (proj2 (price_levels_of_signal sqrtFloor "BTCUSDT" slide) sig E)
      as (He & _ & Hex).
    assert (Hside : Priority.side sig = LONG).
    { vm_compute in E. injection E as <-. reflexivity. }
    assert (He100 : jeq (toNumber (Priority.lastClose
                                     (Priority.indicators sqrtFloor slide)))
                        (Fin 100)) by (vm_compute; reflexivity).
    assert (Ha2 : jeq (toNumber (Priority.lastAtr
                                   (Priority.indicators sqrtFloor slide)))
                      (Fin 2)) by (vm_compute; reflexivity).
    split; [now rewrite He | exact (Hex Hside He100 Ha2)].
Defined.

(** The SHORT side on a run: the climb to 100 with an ATR of 2 gives
    [sl = 103], [tp = 94] and [rr = 2] in both generations. *)
Lemma short_signal_on_climb :
  match Shuffled.analyzeCandles sqrtFloor "BTC/USDT" climb with
  | Some sig =>
      Shuffled.side sig = SHORT
      /\ jeq (Shuffled.entry sig) (Fin 100)
      /\ jeq (Shuffled.sl sig) (Fin 103)
      /\ jeq (Shuffled.tp sig) (Fin 94)
      /\ veq (Shuffled.rr sig) (VNum (Fin 2))
  | None => False
  end
  /\ match Priority.analyzeCandles sqrtFloor "BTCUSDT" climb with
     | Some sig =>
         Priority.side sig = SHORT
         /\ jeq (Priority.entry sig) (Fin 100)
         /\ jeq (Priority.sl sig) (Fin 103)
         /\ jeq (Priority.tp sig) (Fin 94)
         /\ jeq (Priority.rr sig) (Fin 2)
     | None => False
     end.
Proof.
  split; vm_compute; repeat split; reflexivity.
Qed.

(** ** C10 and C7: the risk-reward ratio *)





(** With an ATR of zero the shuffled generation reports [rr = null] ... *)
Lemma shuffled_rr_null_at_zero_atr (sqrtQ : Q -> Q) (sym : string)
  (candles : list candle) (sig : Shuffled.signal) (a : Q) :
  Shuffled.analyzeCandles sqrtQ sym candles = Some sig ->
  toNumber (Shuffled.lastAtr (Shuffled.indicators sqrtQ candles)) = Fin a ->
  (a == 0)%Q ->
  Shuffled.rr sig = VNull.
Proof.
  intros H Hatr Ha.
  pose proof (shuffled_entry_is_finite _ _ _ _ H) as Hfin.
  apply shuffled_analyze_some in H as [_ H].
  apply shuffled_decide_some in H as (_ & He & _ & _ & Hrr & _).
  rewrite Hrr, <- He, Hatr.
  destruct (Shuffled.entry sig) as [e | | |]; try contradiction.
  now rewrite (riskReward_null (Shuffled.side sig) e a Ha).
Qed.

(** ... and the priority generation reports [Number(null)], the number 0. *)
Lemma priority_rr_zero_at_zero_atr (sqrtQ : Q -> Q) (sym : string)
  (candles : list candle) (sig : Priority.signal) (a : Q) :
  Priority.analyzeCandles sqrtQ sym candles = Some sig ->
  toNumber (Priority.lastAtr (Priority.indicators sqrtQ candles)) = Fin a ->
  (a == 0)%Q ->
  Priority.rr sig = Fin 0.
Proof.
  intros H Hatr Ha.
  pose proof (priority_entry_is_finite _ _ _ _ H) as Hfin.
  apply priority_analyze_some in H as [_ H].
  apply priority_decide_some in H as (_ & _ & He & _ & _ & Hrr).
  rewrite Hrr, <- He, Hatr.
  destruct (Priority.entry sig) as [e | | |]; try contradiction.
  now rewrite (riskReward_null (Priority.side sig) e a Ha).
Qed.

(** C7, on the code: on the series [still], whose true ranges are all 0, the
    ATR at the last index is 0 and both generations emit a LONG signal with
    [sl = tp = entry]; the shuffled generation reports [rr = null], the
    priority generation reports the number 0. *)
Theorem zero_atr_risk_reward :
  veq (Priority.lastAtr (Priority.indicators sqrtFloor still)) (VNum (Fin 0))
  /\ option_map (fun sig => (Priority.side sig,
                             jeqb (Priority.sl sig) (Priority.entry sig),
                             jeqb (Priority.tp sig) (Priority.entry sig),
                             Priority.rr sig))
                (Priority.analyzeCandles sqrtFloor "BTCUSDT" still)
     = Some (LONG, true, true, Fin 0)
  /\ option_map (fun sig => (Shuffled.side sig, Shuffled.rr sig))
                (Shuffled.analyzeCandles sqrtFloor "BTC/USDT" still)
     = Some (LONG, VNull).
Proof.
  split; [vm_compute; reflexivity |].
  split; vm_compute; reflexivity.
Qed.

(** ** C6: the confidence score *)

Lemma Qle_bool_inject (a b : Z) :
  Qle_bool (inject_Z a) (inject_Z b) = (a <=? b)%Z.
Proof.
  unfold Qle_bool, inject_Z. simpl. now rewrite !Z.mul_1_r.
Qed.

Lemma jlt_int (a b : Z) : jlt (ofZ a) (ofZ b) = (a <? b)%Z.
Proof.
  unfold ofZ, jlt. rewrite Qle_bool_inject, Z.leb_antisym.
  apply negb_involutive.
Qed.

Lemma clamp_int (k : Z) :
  exists n : Z,
    jmax (ofZ 30) (jmin (ofZ 95) (ofZ k)) = ofZ n /\ (30 <= n <= 95)%Z.
Proof.
  assert (Hmin : jmin (ofZ 95) (ofZ k)
                 = if jlt (ofZ k) (ofZ 95) then ofZ k else ofZ 95)
    by reflexivity.
  rewrite Hmin, jlt_int.
  destruct (Z.ltb_spec k 95) as [Hk | Hk].
  - assert (Hmax : jmax (ofZ 30) (ofZ k)
                   = if jlt (ofZ 30) (ofZ k) then ofZ k else ofZ 30)
      by reflexivity.
    rewrite Hmax, jlt_int.
    destruct (Z.ltb_spec 30 k) as [Hk' | Hk'].
    + exists k. split; [reflexivity | lia].
    + exists 30%Z. split; [reflexivity | lia].
  - exists 95%Z. split; [reflexivity | lia].
Qed.

(** Rounding and clamping a number that is finite or [-Infinity] gives an
    integer from 30 to 95. *)
Lemma clamp_range (x : jsnum) :
  fin_or_ninf x ->
  exists n : Z,
    jmax (Fin 30) (jmin (Fin 95) (jround x)) = ofZ n /\ (30 <= n <= 95)%Z.
Proof.
  destruct x as [q | | |]; try contradiction; intros _.
  - exact (clamp_int (Qfloor (q + (1 # 2)))).
  - exists 30%Z. split; [reflexivity | lia].
Qed.

Lemma rsi_part_is_finite (sd : Side) (rsi : jsnum) :
  match sd with
  | LONG => jlt rsi (Fin 30) = true
  | SHORT => jgt rsi (Fin 70) = true
  end ->
  exists q,
    match sd with
    | LONG => jmin (Fin 15) (jsub (Fin 30) rsi)
    | SHORT => jmin (Fin 15) (jsub rsi (Fin 70))
    end = Fin q.
Proof.
  destruct sd, rsi as [r | | |]; cbn; intros H; try discriminate H;
    try (eexists; reflexivity);
    match goal with
    | |- context [if ?b then _ else _] => destruct b; eexists; reflexivity
    end.
Qed.

Lemma acc_part_is_bounded (acc : jsnum) (d : Q) :
  acc <> NaN -> is_zero d = false ->
  fin_or_ninf (jmin (Fin 10) (jmul (jdiv (jabs acc) (Fin d)) (Fin 1000))).
Proof.
  intros Hacc Hd.
  assert (Hinf : fin_or_ninf
                   (jmin (Fin 10) (jmul (jdiv PInf (Fin d)) (Fin 1000)))).
  { cbn [jdiv]. destruct (is_neg d); vm_compute; exact I. }
  destruct acc as [a | | |]; cbn [jabs]; [| exact Hinf | exact Hinf | congruence].
  cbn [jdiv]. rewrite Hd. cbn [jmul]. unfold jmin.
  destruct (jlt _ _); exact I.
Qed.

Lemma jadd_fin_or_ninf (q : Q) (x : jsnum) :
  fin_or_ninf x -> fin_or_ninf (jadd (Fin q) x) /\ fin_or_ninf (jadd x (Fin q)).
Proof.
  destruct x; simpl; tauto.
Qed.

(** The score is an integer from 30 to 95 for a finite entry, whatever the
    RSI, the acceleration and the ATR of a signal are. *)
Lemma confidence_in_range (sd : Side) (rsi acc atr : jsnum) (e : Q) :
  match sd with
  | LONG => jlt rsi (Fin 30) = true
  | SHORT => jgt rsi (Fin 70) = true
  end ->
  acc <> NaN ->
  exists n : Z,
    Shuffled.confidenceScore sd rsi acc (Fin e) atr = ofZ n
    /\ (30 <= n <= 95)%Z.
Proof.
  intros Hrsi Hacc. unfold Shuffled.confidenceScore. cbv zeta.
  apply clamp_range.
  destruct (rsi_part_is_finite sd rsi Hrsi) as [q Hq].
  assert (Hd : exists d, jor (Fin e) (Fin 1) = Fin d /\ is_zero d = false).
  { unfold jor, truthy. destruct (is_zero e) eqn:E; cbn [negb].
    - exists 1%Q. split; reflexivity.
    - exists e. split; [reflexivity | exact E]. }
  destruct Hd as (d & -> & Hd).
  pose proof (acc_part_is_bounded acc d Hacc Hd) as Hacc'.
  assert (Hc2 : fin_or_ninf
            (jadd match sd with
                  | LONG => jadd (Fin 70) (jmin (Fin 15) (jsub (Fin 30) rsi))
                  | SHORT => jadd (Fin 70) (jmin (Fin 15) (jsub rsi (Fin 70)))
                  end
                  (jmin (Fin 10)
                        (jmul (jdiv (jabs acc) (Fin d)) (Fin 1000))))).
  { destruct sd; rewrite Hq; cbn [jadd]; now apply jadd_fin_or_ninf. }
  destruct (jlt (jdiv atr (Fin d)) (Fin (5 # 1000))); [| exact Hc2].
  now apply jadd_fin_or_ninf.
Qed.

Lemma confidence_is_guarded (sd : Side) (rsi acc e atr : jsnum) :
  Shuffled.confidenceScore sd rsi acc e atr
  = confidenceGuarded sd rsi acc e atr.
Proof.
  destruct sd; reflexivity.
Qed.

Lemma guarded_is_claimed (sd : Side) (rsi acc e atr : jsnum) :
  truthy e = true ->
  confidenceGuarded sd rsi acc e atr = confidenceClaimed sd rsi acc e atr.
Proof.
  intros He. unfold confidenceGuarded, confidenceClaimed, jor.
  now rewrite He.
Qed.

(** The claim fails where the entry is 0: the series [toZero] gives a LONG
    signal at entry 0 whose confidence is 88, while the score taken over
    [entry] itself is 95 there. *)
Lemma confidence_at_zero_entry :
  option_map
    (fun sig =>
       let s := Shuffled.indicators sqrtFloor toZero in
       (Shuffled.side sig, Shuffled.entry sig, Shuffled.confidence sig,
        confidenceClaimed (Shuffled.side sig)
          (toNumber (Shuffled.lastRsi s)) (toNumber (Shuffled.lastA s))
          (Shuffled.entry sig) (toNumber (Shuffled.lastAtr s))))
    (Shuffled.analyzeCandles sqrtFloor "BTC/USDT" toZero)
  = Some (LONG, Fin 0, Fin 88, Fin 95).
Proof.
  vm_compute. reflexivity.
Qed.

(** C6, as the code has it.  The confidence of every signal is an integer
    from 30 to 95; it is 70 plus [min(15, 30 - RSI)] for LONG or
    [min(15, RSI - 70)] for SHORT, plus [min(10, |acceleration| / d * 1000)],
    plus 5 if [ATR / d < 0.005], rounded to the nearest integer and clamped
    to [30, 95], where the divisor [d] is the entry, or 1 when the entry is
    0.  For an entry other than 0 this is the score taken over the entry
    itself. *)
Theorem confidence_of_signal (sqrtQ : Q -> Q) (sym : string)
  (candles : list candle) (sig : Shuffled.signal)
  (H : Shuffled.analyzeCandles sqrtQ sym candles = Some sig) :
  let s := Shuffled.indicators sqrtQ candles in
  let rsi := toNumber (Shuffled.lastRsi s) in
  let acc := toNumber (Shuffled.lastA s) in
  let atr := toNumber (Shuffled.lastAtr s) in
  (exists n : Z, Shuffled.confidence sig = ofZ n /\ (30 <= n <= 95)%Z)
  /\ Shuffled.confidence sig
     = confidenceGuarded (Shuffled.side sig) rsi acc (Shuffled.entry sig) atr
  /\ (truthy (Shuffled.entry sig) = true ->
      Shuffled.confidence sig
      = confidenceClaimed (Shuffled.side sig) rsi acc (Shuffled.entry sig) atr).
Proof.
  intros s rsi acc atr.
  pose proof (shuffled_entry_is_finite _ _ _ _ H) as Hfin.
  apply shuffled_analyze_some in H as [_ H].
  apply shuffled_decide_some in H as (Hrule & He & _ & _ & _ & Hconf).
  fold s in Hrule, He, Hconf. fold rsi acc atr in Hconf.
  rewrite <- He in Hconf.
  apply shuffled_entry_rule in Hrule. fold rsi acc in Hrule.
  assert (Hformula : Shuffled.confidence sig
                     = confidenceGuarded (Shuffled.side sig) rsi acc
                                         (Shuffled.entry sig) atr).
  { rewrite Hconf. apply confidence_is_guarded. }
  split; [| split; [exact Hformula |]].
  - rewrite Hconf.
    destruct (Shuffled.entry sig) as [e | | |]; try contradiction.
    apply confidence_in_range.
    + destruct (Shuffled.side sig); apply Hrule.
    + intros Hnan. rewrite Hnan in Hrule.
      destruct (Shuffled.side sig); destruct Hrule as (_ & _ & Ha);
        discriminate Ha.
  - intros Htruthy. rewrite Hformula. now apply guarded_is_claimed.
Qed.

Lemma confidence_of_signal_witness :
  match Shuffled.analyzeCandles sqrtFloor "BTC/USDT" slide with
  | Some sig =>
      exists n : Z, Shuffled.confidence sig = ofZ n /\ (30 <= n <= 95)%Z
  | None => False
  end.
Proof.
  destruct (Shuffled.analyzeCandles sqrtFloor "BTC/USDT" slide)
    as [sig |] eqn:E; [| vm_compute in E; discriminate E].
  exact (proj1 (confidence_of_signal sqrtFloor "BTC/USDT" slide sig E)).
Defined.

(** ** The RSI is never infinite *)

Lemma fold_left_invariant {S X : Type} (P : S -> Prop) (f : S -> X -> S)
  (l : list X) :
  (forall s x, P s -> P (f s x)) -> forall s0, P s0 -> P (fold_left f l s0).
Proof.
  intros Hf. induction l as [| x l IH]; intros s0 H0; simpl; [exact H0 |].
  apply IH, Hf, H0.
Qed.

Lemma run_invariant {S D : Type} (P : S -> Prop) (step : S -> D -> S)
  (ds : list D) :
  (forall s d, P s -> P (step s d)) ->
  forall st, P st -> Forall P (run step st ds).
Proof.
  intros Hs. induction ds as [| d ds IH]; intros st H0; simpl; constructor.
  - now apply Hs.
  - apply IH. now apply Hs.
Qed.

Lemma nonneg_jadd (x y : jsnum) : nonneg x -> nonneg y -> nonneg (jadd x y).
Proof.
  destruct x, y; simpl; try tauto. intros. lra.
Qed.

Lemma nonneg_jabs (x : jsnum) : nonneg (jabs x).
Proof.
  destruct x; simpl; try exact I. apply Qabs_nonneg.
Qed.

Lemma is_zero_false (q : Q) : is_zero q = false <-> ~ (q == 0)%Q.
Proof.
  unfold is_zero. split.
  - intros H E. apply Qeq_bool_iff in E. congruence.
  - intros H. destruct (Qeq_bool q 0) eqn:E; [| reflexivity].
    apply Qeq_bool_iff in E. contradiction.
Qed.

Lemma is_pos_true (q : Q) : is_pos q = true <-> (0 < q)%Q.
Proof.
  unfold is_pos. rewrite negb_true_iff. split.
  - intros H. destruct (Qlt_le_dec 0 q) as [Hlt | Hle]; [exact Hlt |].
    apply Qle_bool_iff in Hle. congruence.
  - intros H. destruct (Qle_bool q 0) eqn:E; [| reflexivity].
    apply Qle_bool_iff in E. lra.
Qed.

Lemma is_neg_false (q : Q) : (0 <= q)%Q -> is_neg q = false.
Proof.
  intros H. unfold is_neg. apply negb_false_iff. now apply Qle_bool_iff.
Qed.

Lemma nonneg_jmul (x : jsnum) (k : Q) :
  nonneg x -> (0 <= k)%Q -> nonneg (jmul x (Fin k)).
Proof.
  destruct x as [q | | |]; simpl; try tauto; intros Hx Hk.
  - now apply Qmult_le_0_compat.
  - unfold inf_signed. destruct (is_zero k) eqn:Ez; [exact I |].
    assert (Hp : is_pos k = true).
    { apply is_pos_true. apply is_zero_false in Ez. lra. }
    now rewrite Hp.
Qed.

Lemma nonneg_jdiv (x y : jsnum) : nonneg x -> nonneg y -> nonneg (jdiv x y).
Proof.
  destruct x as [a | | |], y as [b | | |]; simpl; try tauto; intros Ha Hb;
    try lra.
  - destruct (is_zero b) eqn:Eb.
    + destruct (is_zero a) eqn:Ea; [exact I |].
      assert (Hp : is_pos a = true).
      { apply is_pos_true. apply is_zero_false in Ea. lra. }
      now rewrite Hp.
    + simpl. unfold Qdiv. apply Qmult_le_0_compat; [exact Ha |].
      now apply Qinv_le_0_compat.
  - now rewrite is_neg_false.
Qed.

Lemma nonneg_ofNat (n : nat) : nonneg (ofNat n).
Proof.
  unfold ofNat, nonneg. change 0%Q with (inject_Z 0). rewrite <- Zle_Qle. lia.
Qed.

Lemma nonneg_wilder (period : nat) (prev x : jsnum) :
  1 <= period -> nonneg prev -> nonneg x -> nonneg (wilder period prev x).
Proof.
  intros Hp Hprev Hx. unfold wilder.
  apply nonneg_jdiv; [| apply nonneg_ofNat].
  apply nonneg_jadd; [| exact Hx].
  unfold ofZ. apply nonneg_jmul; [exact Hprev |].
  change 0%Q with (inject_Z 0). rewrite <- Zle_Qle. lia.
Qed.

Lemma jge_zero_nonneg (d : jsnum) : jge d (Fin 0) = true -> nonneg d.
Proof.
  destruct d; simpl; try discriminate; try tauto.
  intros H. now apply Qle_bool_iff.
Qed.

Lemma jgt_zero_nonneg (d : jsnum) : jgt d (Fin 0) = true -> nonneg d.
Proof.
  unfold jgt. destruct d; simpl; try discriminate; try tauto.
  intros H. apply negb_true_iff in H.
  destruct (Qlt_le_dec 0 q) as [Hlt | Hle]; [lra |].
  apply Qle_bool_iff in Hle. congruence.
Qed.

Lemma shuffled_averages_nonneg (prices : list jsnum) (period : nat) :
  1 <= period ->
  Forall nonneg_pair (Shuffled.rsiAverages prices period).
Proof.
  intros Hp. unfold Shuffled.rsiAverages.
  assert (Hseed : nonneg_pair (Shuffled.seedAverages (Shuffled.deltas prices)
                                                     period)).
  { unfold Shuffled.seedAverages.
    match goal with
    | |- context [fold_left ?f ?l ?s0] =>
        assert (Hinv : nonneg_pair (fold_left f l s0))
    end.
    { apply fold_left_invariant.
      - intros [g l] i [Hg Hl]. cbn [fst snd] in *.
        destruct (jge _ _) eqn:E; split; cbn [fst snd]; try assumption.
        + apply nonneg_jadd; [exact Hg | now apply jge_zero_nonneg].
        + apply nonneg_jadd; [exact Hl | apply nonneg_jabs].
      - split; simpl; lra. }
    destruct (fold_left _ _ _) as [g l]. destruct Hinv as [Hg Hl].
    split; cbn [fst snd] in *; apply nonneg_jdiv;
      try assumption; apply nonneg_ofNat. }
  constructor; [exact Hseed |].
  apply run_invariant; [| exact Hseed].
  intros [g l] d [Hg Hl]. cbn [fst snd] in *.
  unfold Shuffled.smoothAverages. split; cbn [fst snd];
    apply nonneg_wilder; try assumption.
  - destruct (jgt d (Fin 0)) eqn:E; [now apply jgt_zero_nonneg | simpl; lra].
  - destruct (jlt d (Fin 0)); [apply nonneg_jabs | simpl; lra].
Qed.

Lemma rs_plus_one (g l : jsnum) :
  nonneg g -> nonneg l -> jeqb l (Fin 0) = false ->
  fin_or_nan (jsub (Fin 100) (jdiv (Fin 100) (jadd (Fin 1) (jdiv g l)))).
Proof.
  intros Hg Hl Hz.
  pose proof (nonneg_jdiv g l Hg Hl) as Hrs.
  destruct (jdiv g l) as [r | | |]; try contradiction; try exact I.
  simpl in Hrs. cbn [jadd jdiv].
  assert (Ez : is_zero (1 + r) = false) by (apply is_zero_false; lra).
  rewrite Ez. exact I.
Qed.

Lemma shuffled_rsiValue_range (st : jsnum * jsnum) :
  nonneg_pair st -> fin_or_nan (Shuffled.rsiValue st).
Proof.
  destruct st as [g l]. intros [Hg Hl]. cbn [fst snd] in *.
  unfold Shuffled.rsiValue.
  destruct (jeqb l (Fin 0)) eqn:E; [vm_compute; exact I |].
  now apply rs_plus_one.
Qed.

Lemma priority_averages_nonneg (closes : list jsnum) (period : nat) :
  1 <= period ->
  Forall nonneg_pair (Priority.rsiAverages closes period).
Proof.
  intros Hp. unfold Priority.rsiAverages.
  assert (Hseed : nonneg_pair (Priority.seedAverages (Priority.changes closes)
                                                     period)).
  { unfold Priority.seedAverages.
    match goal with
    | |- context [fold_left ?f ?l ?s0] =>
        assert (Hinv : nonneg_pair (fold_left f l s0))
    end.
    { apply fold_left_invariant.
      - intros [g l] i [Hg Hl]. cbn [fst snd] in *.
        destruct (jgt _ _) eqn:E; split; cbn [fst snd]; try assumption.
        + apply nonneg_jadd; [exact Hg | now apply jgt_zero_nonneg].
        + apply nonneg_jadd; [exact Hl | apply nonneg_jabs].
      - split; simpl; lra. }
    destruct (fold_left _ _ _) as [g l]. destruct Hinv as [Hg Hl].
    split; cbn [fst snd] in *; apply nonneg_jdiv;
      try assumption; apply nonneg_ofNat. }
  constructor; [exact Hseed |].
  apply run_invariant; [| exact Hseed].
  intros [g l] d [Hg Hl]. cbn [fst snd] in *.
  unfold Priority.smoothAverages. split; cbn [fst snd];
    apply nonneg_wilder; try assumption.
  - destruct (jgt d (Fin 0)) eqn:E; [now apply jgt_zero_nonneg | simpl; lra].
  - destruct (jlt d (Fin 0)); [apply nonneg_jabs | simpl; lra].
Qed.

Lemma priority_rsiValue_range (st : jsnum * jsnum) :
  nonneg_pair st -> fin_or_nan (Priority.rsiValue st).
Proof.
  destruct st as [g l]. intros [Hg Hl]. cbn [fst snd] in *.
  unfold Priority.rsiValue.
  destruct (jeqb l (Fin 0)) eqn:E; [exact I |].
  now apply rs_plus_one.
Qed.

(** A read in a mapped array is [undefined] or the image of an element. *)
Lemma at_val_map_cases {A : Type} (f : A -> jsval) (l : list A) (k : nat) :
  at_val (map f l) k = VUndef \/ exists x, In x l /\ at_val (map f l) k = f x.
Proof.
  destruct (nth_error l k) as [x |] eqn:E.
  - right. exists x. split; [eapply nth_error_In; exact E |].
    now apply at_val_map.
  - left. unfold at_val. apply nth_overflow.
    rewrite length_map. now apply nth_error_None.
Qed.

(** A value that is [undefined] or not finite, and not an infinity, is
    [null], [undefined] or [NaN]. *)
Lemma nonfinite_is_missing (v : jsval) :
  undefined_or_nonfinite v = true ->
  v <> VNum PInf -> v <> VNum NInf -> is_missing v = true.
Proof.
  destruct v as [| | [q | | |]]; simpl; congruence.
Qed.

Lemma shuffled_rsi_never_infinite (sqrtQ : Q -> Q) (candles : list candle) :
  40 <= length candles ->
  let v := Shuffled.lastRsi (Shuffled.indicators sqrtQ candles) in
  v <> VNum PInf /\ v <> VNum NInf.
Proof.
  intros Hlen. unfold Shuffled.indicators. cbn [Shuffled.lastRsi].
  set (closes := map close candles).
  assert (Hcl : length closes = length candles) by apply length_map.
  unfold Shuffled.computeRSI.
  destruct (Nat.ltb_spec (length closes) (14 + 1)) as [Hlt | _]; [lia |].
  replace (length closes - 1) with (14 + (length closes - 15)) by lia.
  rewrite at_val_after_prefix.
  destruct (at_val_map_cases (fun st => VNum (Shuffled.rsiValue st))
              (Shuffled.rsiAverages closes 14) (length closes - 15))
    as [-> | (st & Hin & ->)]; [split; discriminate |].
  pose proof (shuffled_averages_nonneg closes 14 ltac:(lia)) as Hall.
  rewrite Forall_forall in Hall.
  pose proof (shuffled_rsiValue_range st (Hall st Hin)) as Hr.
  destruct (Shuffled.rsiValue st); try contradiction; split; discriminate.
Qed.

Lemma priority_rsi_never_infinite (sqrtQ : Q -> Q) (candles : list candle) :
  40 <= length candles ->
  let v := Priority.lastRsi (Priority.indicators sqrtQ candles) in
  v <> VNum PInf /\ v <> VNum NInf.
Proof.
  intros Hlen. unfold Priority.indicators, Priority.computeVelocityAcceleration.
  cbn [Priority.lastRsi].
  set (closes := map close candles).
  assert (Hcl : length closes = length candles) by apply length_map.
  unfold Priority.rsiFromArray.
  assert (Hch : length (Priority.changes closes) = length closes - 1).
  { unfold Priority.changes. apply length_for_from. }
  destruct (Nat.ltb_spec (length (Priority.changes closes)) 14) as [Hlt | _];
    [lia |].
  replace (length closes - 1) with (14 + (length closes - 15)) by lia.
  rewrite at_val_after_prefix.
  destruct (at_val_map_cases (fun st => VNum (Priority.rsiValue st))
              (Priority.rsiAverages closes 14) (length closes - 15))
    as [-> | (st & Hin & ->)]; [split; discriminate |].
  pose proof (priority_averages_nonneg closes 14 ltac:(lia)) as Hall.
  rewrite Forall_forall in Hall.
  pose proof (priority_rsiValue_range st (Hall st Hin)) as Hr.
  destruct (Priority.rsiValue st); try contradiction; split; discriminate.
Qed.

(** ** The bands and the acceleration of the priority generation *)

Lemma nan_absorbs (g : jsnum -> jsnum) (l : list jsnum) :
  forall acc, acc = NaN \/ (exists b, In b l /\ g b = NaN) ->
              fold_left (fun a b => jadd a (g b)) l acc = NaN.
Proof.
  induction l as [| x l IH]; intros acc H; simpl.
  - destruct H as [H | (b & [] & _)]. exact H.
  - apply IH. destruct H as [-> | (b & [-> | Hin] & Hb)].
    + now left.
    + left. rewrite Hb. now destruct acc.
    + right. now exists b.
Qed.

Lemma finite_fold (g : jsnum -> jsnum) (l : list jsnum) :
  (forall b, is_finite b -> is_finite (g b)) ->
  Forall is_finite l ->
  forall acc, is_finite acc ->
              is_finite (fold_left (fun a b => jadd a (g b)) l acc).
Proof.
  intros Hg Hl. induction Hl as [| x l Hx Hl IH]; intros acc Hacc; simpl;
    [exact Hacc |].
  apply IH. specialize (Hg x Hx).
  destruct acc, (g x); try contradiction; exact I.
Qed.

Lemma finite_or_not (l : list jsnum) :
  Forall is_finite l \/ exists b, In b l /\ ~ is_finite b.
Proof.
  induction l as [| x l [IH | (b & Hin & Hb)]].
  - left. constructor.
  - destruct x as [q | | |];
      [left; constructor; [exact I | exact IH] | right | right | right];
      eexists; (split; [left; reflexivity | intros H; exact H]).
  - right. exists b. split; [now right | exact Hb].
Qed.

(** The variance of a window with a value that is not finite is [NaN]. *)
Lemma variance_of_nonfinite_window (win : list jsnum) (n : nat) (b : jsnum) :
  In b win -> ~ is_finite b ->
  let mean := jdiv (sum win) (ofNat n) in
  fold_left (fun a x => jadd a (jsquare (jsub x mean))) win (Fin 0) = NaN.
Proof.
  intros Hin Hb mean.
  apply (nan_absorbs (fun x => jsquare (jsub x mean))).
  right. exists b. split; [exact Hin |].
  destruct b as [q | | |]; [exfalso; apply Hb; exact I | | |].
  - assert (Hm : pinf_or_nan mean).
    { apply jdiv_pinf_or_nan.
      apply (fold_absorbs_pinf (fun x => x)); [reflexivity | now right]. }
    destruct Hm as [-> | ->]; reflexivity.
  - assert (Hm : ninf_or_nan mean).
    { apply jdiv_ninf_or_nan.
      apply (fold_absorbs_ninf (fun x => x)); [reflexivity | now right]. }
    destruct Hm as [-> | ->]; reflexivity.
  - reflexivity.
Qed.

Lemma is_zero_ofNat (n : nat) : 1 <= n -> is_zero (inject_Z (Z.of_nat n)) = false.
Proof.
  intros Hn. apply is_zero_false. intros H.
  unfold Qeq in H. simpl in H. lia.
Qed.

Lemma finite_jdiv_nat (x : jsnum) (n : nat) :
  1 <= n -> is_finite x -> is_finite (jdiv x (ofNat n)).
Proof.
  intros Hn Hx. destruct x as [q | | |]; try contradiction.
  unfold ofNat. cbn [jdiv]. now rewrite is_zero_ofNat.
Qed.

(** The two bands of the priority generation at the last index: both are
    [NaN] when the window of twenty closes holds a value that is not finite,
    and neither is an infinity. *)
Lemma priority_bands_range (sqrtQ : Q -> Q) (candles : list candle) :
  20 <= length candles ->
  let s := Priority.indicators sqrtQ candles in
  let closes := map close candles in
  let win := slice (length closes - 1 + 1 - 20) (length closes - 1 + 1) closes in
  (exists lo up, Priority.lastLower s = VNum lo /\ Priority.lastUpper s = VNum up
                 /\ fin_or_nan lo /\ fin_or_nan up)
  /\ (is_missing (Priority.lastLower s) = false -> Forall is_finite win).
Proof.
  intros Hlen s closes win.
  assert (Hcl : length closes = length candles) by apply length_map.
  assert (Hidx : length closes - 1 < length closes) by lia.
  set (mean := jdiv (sum win) (ofNat 20)).
  set (variance :=
         jdiv (fold_left (fun a b => jadd a (jsquare (jsub b mean))) win (Fin 0))
              (ofNat 20)).
  assert (Hlo : Priority.lastLower s
                = VNum (jsub mean (jmul (Fin 2) (jsqrt sqrtQ variance)))
                /\ Priority.lastUpper s
                   = VNum (jadd mean (jmul (Fin 2) (jsqrt sqrtQ variance)))).
  { unfold s, Priority.indicators, Priority.computeVelocityAcceleration.
    cbn [Priority.lastLower Priority.lastUpper]. fold closes.
    assert (Hsma : nth_error (Priority.sma closes 20) (length closes - 1)
                   = Some (VNum mean)).
    { unfold Priority.sma. rewrite nth_error_for_from by lia. cbn [Nat.add].
      destruct (Nat.ltb_spec (length closes - 1 + 1) 20); [lia | reflexivity]. }
    assert (Hsd : at_val (Priority.stddev sqrtQ closes 20) (length closes - 1)
                  = VNum (jsqrt sqrtQ variance)).
    { unfold Priority.stddev. rewrite at_val_for_from by exact Hidx.
      destruct (Nat.ltb_spec (length closes - 1 + 1) 20); [lia | reflexivity]. }
    split.
    - unfold at_val, Priority.bbLower.
      erewrite nth_error_nth by (rewrite nth_error_mapi, Hsma; reflexivity).
      cbn [is_null toNumber].
      fold (at_val (Priority.stddev sqrtQ closes 20) (length closes - 1)).
      now rewrite Hsd.
    - unfold at_val, Priority.bbUpper.
      erewrite nth_error_nth by (rewrite nth_error_mapi, Hsma; reflexivity).
      cbn [is_null toNumber].
      fold (at_val (Priority.stddev sqrtQ closes 20) (length closes - 1)).
      now rewrite Hsd. }
  destruct Hlo as [Hlo Hup].
  destruct (finite_or_not win) as [Hfin | (b & Hin & Hb)].
  - split; [| intros _; exact Hfin].
    exists (jsub mean (jmul (Fin 2) (jsqrt sqrtQ variance))),
           (jadd mean (jmul (Fin 2) (jsqrt sqrtQ variance))).
    split; [exact Hlo |]. split; [exact Hup |].
    assert (Hmean : is_finite mean).
    { apply finite_jdiv_nat; [lia |].
      apply (finite_fold (fun b => b)); [tauto | exact Hfin | exact I]. }
    assert (Hvar : is_finite variance).
    { apply finite_jdiv_nat; [lia |].
      apply (finite_fold (fun b => jsquare (jsub b mean)));
        [| exact Hfin | exact I].
      intros x Hx. destruct x, mean; try contradiction; exact I. }
    destruct mean as [m | | |]; try contradiction.
    destruct variance as [v | | |]; try contradiction.
    cbn [jsqrt]. destruct (is_neg v); split; exact I.
  - assert (Hvar : variance = NaN).
    { unfold variance, mean.
      now rewrite (variance_of_nonfinite_window win 20 b Hin Hb). }
    rewrite Hvar in Hlo, Hup. cbn [jsqrt jmul] in Hlo, Hup.
    assert (Hlo' : Priority.lastLower s = VNum NaN)
      by (rewrite Hlo; now destruct mean).
    assert (Hup' : Priority.lastUpper s = VNum NaN)
      by (rewrite Hup; now destruct mean).
    split.
    + exists NaN, NaN. repeat split; assumption.
    + rewrite Hlo'. discriminate.
Qed.

Lemma in_window (arr : list jsnum) (a b k : nat) :
  a <= k -> k < b -> b <= length arr -> In (at_num arr k) (slice a b arr).
Proof.
  intros Hak Hkb Hb. unfold slice, at_num.
  apply (nth_error_In _ (k - a)).
  rewrite nth_error_firstn.
  destruct (Nat.ltb_spec (k - a) (b - a)); [| lia].
  rewrite nth_error_skipn. replace (a + (k - a)) with k by lia.
  apply nth_error_nth'. lia.
Qed.

Lemma at_val_cons_for_from (x : jsval) (n : nat) (f : nat -> jsval) (k : nat) :
  1 <= k -> k < n -> at_val (x :: for_from 1 n f) k = f k.
Proof.
  intros Hk Hn. unfold at_val. destruct k as [| k]; [lia |].
  cbn [nth]. apply nth_error_nth.
  rewrite nth_error_for_from by lia. reflexivity.
Qed.

(** When the twenty closes of the window are finite, the acceleration of the
    priority generation at the last index is a finite number. *)
Lemma priority_acceleration_finite (sqrtQ : Q -> Q) (candles : list candle) :
  40 <= length candles ->
  let closes := map close candles in
  Forall is_finite
         (slice (length closes - 1 + 1 - 20) (length closes - 1 + 1) closes) ->
  exists q, Priority.lastA (Priority.indicators sqrtQ candles) = VNum (Fin q).
Proof.
  intros Hlen closes Hwin.
  assert (Hcl : length closes = length candles) by apply length_map.
  unfold Priority.indicators, Priority.computeVelocityAcceleration.
  cbn [Priority.lastA]. fold closes.
  set (len := length closes) in *.
  assert (Hclose : forall k, len - 20 <= k -> k < len ->
                             exists q, at_num closes k = Fin q).
  { intros k Hk1 Hk2. rewrite Forall_forall in Hwin.
    specialize (Hwin (at_num closes k)).
    destruct (at_num closes k) as [q | | |] eqn:E;
      [now exists q | exfalso | exfalso | exfalso];
      apply Hwin; rewrite <- E; apply in_window; unfold len in *; lia. }
  set (pc := Priority.priceChange closes).
  assert (Hpc : forall k, len - 19 <= k -> k < len ->
                          exists q, toNumber (vor (at_val pc k) (Fin 0)) = Fin q).
  { intros k Hk1 Hk2. unfold pc, Priority.priceChange. fold len.
    rewrite at_val_cons_for_from by lia.
    destruct (Hclose k ltac:(lia) Hk2) as [q1 ->].
    destruct (Hclose (k - 1) ltac:(lia) ltac:(lia)) as [q2 ->].
    unfold vor. cbn [jsub jopp jadd vtruthy].
    destruct (truthy _); eexists; reflexivity. }
  assert (Hpclen : length pc = len).
  { unfold pc, Priority.priceChange. cbn [length]. rewrite length_for_from.
    fold len. lia. }
  set (v := Priority.velocity pc).
  assert (Hv : forall i, len - 17 <= i -> i < len ->
                         exists q, at_val v i = VNum (Fin q)).
  { intros i Hi1 Hi2. unfold v, Priority.velocity.
    rewrite at_val_for_from by lia.
    destruct (Nat.ltb_spec i 2); [lia |].
    destruct (Hpc i ltac:(lia) Hi2) as [q1 ->].
    destruct (Hpc (i - 1) ltac:(lia) ltac:(lia)) as [q2 ->].
    destruct (Hpc (i - 2) ltac:(lia) ltac:(lia)) as [q3 ->].
    eexists. reflexivity. }
  assert (Hvlen : length v = len).
  { unfold v, Priority.velocity. rewrite length_for_from. lia. }
  unfold Priority.accelerationOf. fold v.
  rewrite at_val_cons_for_from by lia.
  destruct (Hv (len - 1) ltac:(lia) ltac:(lia)) as [q1 ->].
  destruct (Hv (len - 1 - 1) ltac:(lia) ltac:(lia)) as [q2 ->].
  eexists. reflexivity.
Qed.

(** ** C4: no signal without indicators *)

Lemma shuffled_decide_checked (sym : string) (s : Shuffled.snapshot)
  (sig : Shuffled.signal) :
  Shuffled.decide sym s = Some sig ->
  is_null (Shuffled.lastRsi s) = false
  /\ is_null (Shuffled.lastLowerBB s) = false
  /\ is_null (Shuffled.lastUpperBB s) = false
  /\ is_null (Shuffled.lastAtr s) = false.
Proof.
  unfold Shuffled.decide.
  destruct (is_null (Shuffled.lastRsi s)); [discriminate |].
  destruct (is_null (Shuffled.lastLowerBB s)); [discriminate |].
  destruct (is_null (Shuffled.lastUpperBB s)); [discriminate |].
  destruct (is_null (Shuffled.lastAtr s)); [discriminate |].
  tauto.
Qed.

(** A value that is [null], [undefined] or [NaN] is [null] or fails every
    comparison. *)
Lemma missing_fails_comparisons (v : jsval) :
  is_missing v = true ->
  v = VNull \/ (forall x, jlt (toNumber v) x = false
                          /\ jgt (toNumber v) x = false
                          /\ jlt x (toNumber v) = false
                          /\ jgt x (toNumber v) = false).
Proof.
  destruct v as [| | [q | | |]]; simpl; try discriminate; intros _;
    [right | now left | right];
    intros x; unfold jgt; destruct x; simpl; tauto.
Qed.

(** When one band is [NaN], the comparison with the other band fails. *)
Lemma lower_nan_blocks_short (c m w : jsnum) :
  w <> NInf -> jsub m w = NaN -> jgt c (jadd m w) = false.
Proof.
  intros Hw H. unfold jgt.
  destruct m, w; simpl in *; try congruence; destruct c; reflexivity.
Qed.

Lemma upper_nan_blocks_long (c m w : jsnum) :
  w <> NInf -> jadd m w = NaN -> jlt c (jsub m w) = false.
Proof.
  intros Hw H.
  destruct m, w; simpl in *; try congruence; destruct c; reflexivity.
Qed.

Lemma shuffled_missing_gives_no_signal (sqrtQ : Q -> Q) (sym : string)
  (candles : list candle) :
  let s := Shuffled.indicators sqrtQ candles in
  is_missing (Shuffled.lastRsi s) = true
  \/ is_missing (Shuffled.lastLowerBB s) = true
  \/ is_missing (Shuffled.lastUpperBB s) = true
  \/ is_missing (Shuffled.lastA s) = true
  \/ is_null (Shuffled.lastAtr s) = true ->
  Shuffled.analyzeCandles sqrtQ sym candles = None.
Proof.
  intros s Hmiss.
  destruct (Shuffled.analyzeCandles sqrtQ sym candles) as [sig |] eqn:E;
    [exfalso | reflexivity].
  apply shuffled_analyze_some in E as [Hlen E]. fold s in E.
  pose proof (shuffled_decide_checked _ _ _ E)
    as (Hn1 & Hn2 & Hn3 & Hn4).
  apply shuffled_decide_some in E as (Hrule & _).
  apply shuffled_entry_rule in Hrule.
  destruct (shuffled_bands sqrtQ candles ltac:(lia))
    as (c & m & w & Hc & Hlo & Hup & Hw & _).
  fold s in Hc, Hlo, Hup.
  destruct Hmiss as [Hm | [Hm | [Hm | [Hm | Hm]]]].
  - apply missing_fails_comparisons in Hm as [Hm | Hm].
    + rewrite Hm in Hn1. discriminate Hn1.
    + destruct (Shuffled.side sig); destruct Hrule as (Hr & _);
        rewrite (proj1 (Hm _)) in Hr || rewrite (proj1 (proj2 (Hm _))) in Hr;
        discriminate Hr.
  - rewrite Hlo in Hm. rewrite Hc, Hlo, Hup in Hrule. cbn [toNumber] in Hrule.
    assert (Hnan : jsub m w = NaN).
    { destruct (jsub m w); simpl in Hm; try discriminate Hm. reflexivity. }
    destruct (Shuffled.side sig); destruct Hrule as (_ & Hb & _).
    + rewrite Hnan in Hb. destruct c; discriminate Hb.
    + rewrite (lower_nan_blocks_short c m w Hw Hnan) in Hb. discriminate Hb.
  - rewrite Hup in Hm. rewrite Hc, Hlo, Hup in Hrule. cbn [toNumber] in Hrule.
    assert (Hnan : jadd m w = NaN).
    { destruct (jadd m w); simpl in Hm; try discriminate Hm. reflexivity. }
    destruct (Shuffled.side sig); destruct Hrule as (_ & Hb & _).
    + rewrite (upper_nan_blocks_long c m w Hw Hnan) in Hb. discriminate Hb.
    + rewrite Hnan in Hb. unfold jgt in Hb. discriminate Hb.
  - apply missing_fails_comparisons in Hm as [Hm | Hm].
    + rewrite Hm in Hrule. cbn [toNumber] in Hrule.
      destruct (Shuffled.side sig); destruct Hrule as (_ & _ & Ha);
        discriminate Ha.
    + destruct (Shuffled.side sig); destruct Hrule as (_ & _ & Ha);
        rewrite (proj1 (Hm _)) in Ha || rewrite (proj1 (proj2 (Hm _))) in Ha;
        discriminate Ha.
  - rewrite Hm in Hn4. discriminate Hn4.
Qed.

Lemma priority_missing_gives_no_signal (sqrtQ : Q -> Q) (sym : string)
  (candles : list candle) :
  let s := Priority.indicators sqrtQ candles in
  is_missing (Priority.lastRsi s) = true
  \/ is_missing (Priority.lastLower s) = true
  \/ is_missing (Priority.lastUpper s) = true
  \/ is_missing (Priority.lastA s) = true
  \/ is_missing (Priority.lastAtr s) = true ->
  Priority.analyzeCandles sqrtQ sym candles = None.
Proof.
  intros s Hmiss. unfold Priority.analyzeCandles.
  destruct (length candles <? 40); [reflexivity |].
  fold s. unfold Priority.decide.
  assert (Hex : existsb is_missing
                  [Priority.lastRsi s; Priority.lastLower s;
                   Priority.lastUpper s; Priority.lastA s;
                   Priority.lastAtr s] = true).
  { cbn [existsb].
    destruct Hmiss as [Hm | [Hm | [Hm | [Hm | Hm]]]]; rewrite Hm;
      rewrite ?orb_true_r; reflexivity. }
  now rewrite Hex.
Qed.

(** In the priority generation a signal needs a finite RSI, finite bands and
    a finite acceleration. *)
Lemma priority_nonfinite_gives_no_signal (sqrtQ : Q -> Q) (sym : string)
  (candles : list candle) :
  let s := Priority.indicators sqrtQ candles in
  undefined_or_nonfinite (Priority.lastRsi s) = true
  \/ undefined_or_nonfinite (Priority.lastLower s) = true
  \/ undefined_or_nonfinite (Priority.lastUpper s) = true
  \/ undefined_or_nonfinite (Priority.lastA s) = true ->
  Priority.analyzeCandles sqrtQ sym candles = None.
Proof.
  intros s H.
  destruct (Nat.ltb_spec (length candles) 40) as [Hlt | Hlen].
  { unfold Priority.analyzeCandles.
    destruct (Nat.ltb_spec (length candles) 40); [reflexivity | lia]. }
  destruct (priority_bands_range sqrtQ candles ltac:(lia))
    as ((lo & up & Hlo & Hup & Hflo & Hfup) & Hwin).
  fold s in Hlo, Hup, Hwin.
  destruct (is_missing (Priority.lastLower s)) eqn:Emiss.
  { apply priority_missing_gives_no_signal. fold s. tauto. }
  specialize (Hwin eq_refl).
  destruct H as [H | [H | [H | H]]].
  - apply priority_missing_gives_no_signal. fold s. left.
    destruct (priority_rsi_never_infinite sqrtQ candles Hlen) as [H1 H2].
    now apply nonfinite_is_missing.
  - apply priority_missing_gives_no_signal. fold s. right. left.
    apply nonfinite_is_missing; [exact H | |]; rewrite Hlo; intros E;
      injection E as ->; contradiction.
  - apply priority_missing_gives_no_signal. fold s. right. right. left.
    apply nonfinite_is_missing; [exact H | |]; rewrite Hup; intros E;
      injection E as ->; contradiction.
  - destruct (priority_acceleration_finite sqrtQ candles Hlen Hwin) as [q Hq].
    fold s in Hq. rewrite Hq in H. discriminate H.
Qed.

(** In the shuffled generation a signal needs a finite RSI. *)
Lemma shuffled_nonfinite_rsi_gives_no_signal (sqrtQ : Q -> Q) (sym : string)
  (candles : list candle) :
  undefined_or_nonfinite
    (Shuffled.lastRsi (Shuffled.indicators sqrtQ candles)) = true ->
  Shuffled.analyzeCandles sqrtQ sym candles = None.
Proof.
  intros H.
  destruct (Nat.ltb_spec (length candles) 40) as [Hlt | Hlen].
  { unfold Shuffled.analyzeCandles.
    destruct (Nat.ltb_spec (length candles) 40); [reflexivity | lia]. }
  apply shuffled_missing_gives_no_signal. left.
  destruct (shuffled_rsi_never_infinite sqrtQ candles Hlen) as [H1 H2].
  now apply nonfinite_is_missing.
Qed.

(** The claim fails on a non-finite ATR: with an unbounded high in the last
    candle the ATR at the last index is [Infinity] and both generations emit
    a LONG signal, with [sl = -Infinity] and [tp = Infinity]. *)
Lemma infinite_atr_gives_signal :
  undefined_or_nonfinite
    (Shuffled.lastAtr (Shuffled.indicators sqrtFloor slideInfiniteHigh)) = true
  /\ option_map (fun sig => (Shuffled.side sig, Shuffled.sl sig,
                             Shuffled.tp sig, Shuffled.rr sig))
       (Shuffled.analyzeCandles sqrtFloor "BTC/USDT" slideInfiniteHigh)
     = Some (LONG, NInf, PInf, VNull)
  /\ undefined_or_nonfinite
       (Priority.lastAtr (Priority.indicators sqrtFloor slideInfiniteHigh))
     = true
  /\ option_map (fun sig => (Priority.side sig, Priority.sl sig,
                             Priority.tp sig, Priority.rr sig))
       (Priority.analyzeCandles sqrtFloor "BTCUSDT" slideInfiniteHigh)
     = Some (LONG, NInf, PInf, Fin 0).
Proof.
  split; [vm_compute; reflexivity |].
  split; [vm_compute; reflexivity |].
  split; vm_compute; reflexivity.
Qed.

(** In the shuffled generation an ATR that is [NaN] passes too ... *)
Lemma shuffled_nan_atr_gives_signal :
  Shuffled.lastAtr (Shuffled.indicators sqrtFloor slideMissingHigh) = VNum NaN
  /\ option_map (fun sig => (Shuffled.side sig, Shuffled.sl sig,
                             Shuffled.tp sig, Shuffled.rr sig))
       (Shuffled.analyzeCandles sqrtFloor "BTC/USDT" slideMissingHigh)
     = Some (LONG, NaN, NaN, VNull)
  /\ Priority.analyzeCandles sqrtFloor "BTCUSDT" slideMissingHigh = None.
Proof.
  split; [vm_compute; reflexivity |].
  split; vm_compute; reflexivity.
Qed.

(** ... and so do bands at [-Infinity], with which it emits a SHORT
    signal. *)
Lemma shuffled_infinite_bands_give_signal :
  Shuffled.lastLowerBB (Shuffled.indicators sqrtFloor broken) = VNum NInf
  /\ Shuffled.lastUpperBB (Shuffled.indicators sqrtFloor broken) = VNum NInf
  /\ option_map Shuffled.side
       (Shuffled.analyzeCandles sqrtFloor "BTC/USDT" broken) = Some SHORT
  /\ Priority.analyzeCandles sqrtFloor "BTCUSDT" broken = None.
Proof.
  split; [vm_compute; reflexivity |].
  split; [vm_compute; reflexivity |].
  split; vm_compute; reflexivity.
Qed.

(** C4, as the code has it.  A series of fewer than 40 candles gives no
    signal, and so does a series whose RSI at the last index is undefined or
    not finite.  In the priority generation so does a series whose lower
    band, upper band or acceleration is undefined or not finite, or whose
    ATR is [null], [undefined] or [NaN]; in the shuffled generation a series
    whose lower band, upper band or acceleration is [null], [undefined] or
    [NaN], or whose ATR is [null].  [analyzePhysics] raises nothing. *)
Theorem no_signal_without_indicators (sqrtQ : Q -> Q) (sym : string)
  (candles : list candle) :
  (length candles < 40 ->
   Shuffled.analyzeCandles sqrtQ sym candles = None
   /\ Priority.analyzeCandles sqrtQ sym candles = None)
  /\ (let s := Shuffled.indicators sqrtQ candles in
      undefined_or_nonfinite (Shuffled.lastRsi s) = true
      \/ is_missing (Shuffled.lastLowerBB s) = true
      \/ is_missing (Shuffled.lastUpperBB s) = true
      \/ is_missing (Shuffled.lastA s) = true
      \/ is_null (Shuffled.lastAtr s) = true ->
      Shuffled.analyzeCandles sqrtQ sym candles = None)
  /\ (let s := Priority.indicators sqrtQ candles in
      undefined_or_nonfinite (Priority.lastRsi s) = true
      \/ undefined_or_nonfinite (Priority.lastLower s) = true
      \/ undefined_or_nonfinite (Priority.lastUpper s) = true
      \/ undefined_or_nonfinite (Priority.lastA s) = true
      \/ is_missing (Priority.lastAtr s) = true ->
      Priority.analyzeCandles sqrtQ sym candles = None)
  /\ (forall rnd net limit msg,
        Shuffled.analyzePhysics sqrtQ rnd net sym limit <> Raised msg)
  /\ (forall net msg, Priority.analyzePhysics sqrtQ net sym <> Raised msg).
Proof.
  split.
  { intros Hlen. unfold Shuffled.analyzeCandles, Priority.analyzeCandles.
    destruct (Nat.ltb_spec (length candles) 40); [now split | lia]. }
  split.
  { intros s [H | H].
    - now apply shuffled_nonfinite_rsi_gives_no_signal.
    - apply shuffled_missing_gives_no_signal. fold s. tauto. }
  split.
  { intros s [H | [H | [H | [H | H]]]].
    - apply priority_nonfinite_gives_no_signal. fold s. tauto.
    - apply priority_nonfinite_gives_no_signal. fold s. tauto.
    - apply priority_nonfinite_gives_no_signal. fold s. tauto.
    - apply priority_nonfinite_gives_no_signal. fold s. tauto.
    - apply priority_missing_gives_no_signal. fold s. tauto. }
  split.
  - intros rnd net limit msg. unfold Shuffled.analyzePhysics.
    destruct (Shuffled.fetchCandlesFallback _ _ _); discriminate.
  - intros net msg. unfold Priority.analyzePhysics.
    destruct (Priority.fetchCandlesMulti net) as [[cs |] | m]; discriminate.
Qed.

Lemma no_signal_without_indicators_witness :
  length (firstn 39 slide) < 40
  /\ Shuffled.analyzeCandles sqrtFloor "BTC/USDT" (firstn 39 slide) = None
  /\ Priority.analyzeCandles sqrtFloor "BTC/USDT" (firstn 39 slide) = None
  /\ undefined_or_nonfinite
       (Shuffled.lastRsi (Shuffled.indicators sqrtFloor slideMissingFirstClose))
     = true
  /\ Shuffled.analyzeCandles sqrtFloor "BTC/USDT" slideMissingFirstClose = None
  /\ is_missing
       (Priority.lastAtr (Priority.indicators sqrtFloor slideMissingHigh)) = true
  /\ Priority.analyzeCandles sqrtFloor "BTCUSDT" slideMissingHigh = None.
Proof.
  assert (Hlen : length (firstn 39 slide) < 40) by (vm_compute; lia).
  assert (Hrsi : undefined_or_nonfinite
                   (Shuffled.lastRsi
                      (Shuffled.indicators sqrtFloor slideMissingFirstClose))
                 = true)
    by (vm_compute; reflexivity).
  assert (Hnan : is_missing
                   (Priority.lastAtr
                      (Priority.indicators sqrtFloor slideMissingHigh)) = true)
    by (vm_compute; reflexivity).
  pose proof (no_signal_without_indicators sqrtFloor "BTC/USDT"
                (firstn 39 slide)) as (Hshort & _).
  pose proof (no_signal_without_indicators sqrtFloor "BTC/USDT"
                slideMissingFirstClose) as (_ & Hshuf & _).
  pose proof (no_signal_without_indicators sqrtFloor "BTCUSDT"
                slideMissingHigh) as (_ & _ & Hprio & _).
  split; [exact Hlen |].
  split; [exact (proj1 (Hshort Hlen)) |].
  split; [exact (proj2 (Hshort Hlen)) |].
  split; [exact Hrsi |].
  split; [apply Hshuf; left; exact Hrsi |].
  split; [exact Hnan |].
  apply Hprio. right. right. right. right. exact Hnan.
Defined.

Lemma fallback_chain_witness :
  (forall s : Shuffled.source, fails ((fun _ => Mapped (firstn 29 slide)) s) = true)
  /\ Shuffled.fetchCandlesFallback (fun _ => 0)
       (fun _ => Mapped (firstn 29 slide)) 120
     = Raised "All data sources failed"
  /\ Shuffled.analyzePhysics sqrtFloor (fun _ => 0)
       (fun _ => Mapped (firstn 29 slide)) "BTCUSDT" 120 = Returned None
  /\ Priority.fetchCandlesMulti (fun _ => Mapped (firstn 29 slide))
     = Returned None.
Proof.
  assert (HS : forall s : Shuffled.source,
             fails ((fun _ => Mapped (firstn 29 slide)) s) = true)
    by (intros _; vm_compute; reflexivity).
  assert (HP : forall s : Priority.source,
             fails ((fun _ => Mapped (firstn 29 slide)) s) = true)
    by (intros _; vm_compute; reflexivity).
  destruct (fallback_chain sqrtFloor (fun _ => 0)
              (fun _ => Mapped (firstn 29 slide))
              (fun _ => Mapped (firstn 29 slide)) 120 "BTCUSDT")
    as (_ & _ & Hraise & _ & Hnull & _ & _ & _ & HaS & _).
  split; [exact HS |].
  split; [exact (proj2 Hraise HS) |].
  split; [exact (HaS HS) |].
  exact (proj2 Hnull HP).
Defined.

(* ================================================================== *)
(** * Further properties of the engine *)

(** ** The RSI: range and warm-up *)

Lemma length_run {S D : Type} (step : S -> D -> S) (ds : list D) :
  forall st, length (run step st ds) = length ds.
Proof.
  induction ds as [| d ds IH]; intros st; simpl; [reflexivity |].
  now rewrite IH.
Qed.

Lemma hundred_minus (rs : jsnum) :
  nonneg rs ->
  rsi_reading (VNum (jsub (Fin 100) (jdiv (Fin 100) (jadd (Fin 1) rs)))).
Proof.
  destruct rs as [r | | |]; simpl; intros H; try exact I; try contradiction.
  - destruct (is_zero (1 + r)) eqn:E.
    + unfold is_zero in E. apply Qeq_bool_iff in E. lra.
    + simpl.
      assert (H1 : (0 < 1 + r)%Q) by lra.
      assert (H2 : (0 <= 100 / (1 + r))%Q).
      { apply Qle_shift_div_l; [exact H1 | lra]. }
      assert (H3 : (100 / (1 + r) <= 100)%Q).
      { apply Qle_shift_div_r; [exact H1 | lra]. }
      lra.
  - lra.
Qed.

Lemma shuffled_rsiValue_reading (st : jsnum * jsnum) :
  nonneg_pair st -> rsi_reading (VNum (Shuffled.rsiValue st)).
Proof.
  destruct st as [g l]. intros [Hg Hl]. cbn [fst snd] in Hg, Hl.
  unfold Shuffled.rsiValue.
  destruct (jeqb l (Fin 0)).
  - apply hundred_minus. simpl. lra.
  - apply hundred_minus. now apply nonneg_jdiv.
Qed.

Lemma priority_rsiValue_reading (st : jsnum * jsnum) :
  nonneg_pair st -> rsi_reading (VNum (Priority.rsiValue st)).
Proof.
  destruct st as [g l]. intros [Hg Hl]. cbn [fst snd] in Hg, Hl.
  unfold Priority.rsiValue.
  destruct (jeqb l (Fin 0)).
  - simpl. lra.
  - apply hundred_minus. now apply nonneg_jdiv.
Qed.

Lemma at_val_repeat_map {A : Type} (n : nat) (f : A -> jsval) (l : list A)
  (P : jsval -> Prop) (i : nat) :
  P VNull -> Forall (fun x => P (f x)) l ->
  i < n + length l ->
  P (at_val (repeat VNull n ++ map f l) i).
Proof.
  intros Hnull Hall Hi.
  destruct (Nat.lt_ge_cases i n) as [Hlt | Hge].
  - unfold at_val. rewrite app_nth1 by (rewrite repeat_length; exact Hlt).
    rewrite nth_repeat_lt by exact Hlt. exact Hnull.
  - replace i with (n + (i - n)) by lia.
    rewrite at_val_after_prefix.
    destruct (nth_error l (i - n)) as [x |] eqn:E.
    + rewrite (at_val_map f l _ x E).
      rewrite Forall_forall in Hall. apply Hall. eapply nth_error_In; eauto.
    + apply nth_error_None in E. lia.
Qed.

Lemma at_val_repeat (v : jsval) (n i : nat) : i < n -> at_val (repeat v n) i = v.
Proof. intros H. unfold at_val. now apply nth_repeat_lt. Qed.

Lemma length_shuffled_rsiAverages (prices : list jsnum) (period : nat) :
  period + 1 <= length prices ->
  period + length (Shuffled.rsiAverages prices period) = length prices.
Proof.
  intros H. unfold Shuffled.rsiAverages. cbn [length].
  rewrite length_run, length_skipn. unfold Shuffled.deltas.
  rewrite length_for_from. lia.
Qed.

Lemma length_priority_rsiAverages (closes : list jsnum) (period : nat) :
  period + 1 <= length closes ->
  period + length (Priority.rsiAverages closes period) = length closes.
Proof.
  intros H. unfold Priority.rsiAverages. cbn [length].
  rewrite length_run, length_skipn. unfold Priority.changes.
  rewrite length_for_from. lia.
Qed.

(** X1.  Every entry of the array returned by [computeRSI] and by
    [rsiFromArray], for a period of at least 1, is [null], [NaN] or a number
    between 0 and 100: neither function can return a negative value, a value
    above 100 or an infinity, whatever the prices are. *)
Theorem rsi_between_0_and_100 (prices : list jsnum) (period i : nat)
  (Hperiod : 1 <= period) (Hi : i < length prices) :
  rsi_reading (at_val (Shuffled.computeRSI prices period) i)
  /\ rsi_reading (at_val (Priority.rsiFromArray prices period) i).
Proof.
  split.
  - unfold Shuffled.computeRSI.
    destruct (length prices <? period + 1) eqn:E.
    + rewrite at_val_repeat by exact Hi. exact I.
    + apply Nat.ltb_ge in E.
      apply at_val_repeat_map; [exact I | |].
      * pose proof (shuffled_averages_nonneg prices period Hperiod) as H.
        eapply Forall_impl; [| exact H].
        intros st Hst. now apply shuffled_rsiValue_reading.
      * rewrite length_shuffled_rsiAverages by exact E. exact Hi.
  - unfold Priority.rsiFromArray.
    destruct (length (Priority.changes prices) <? period) eqn:E.
    + rewrite at_val_repeat by exact Hi. exact I.
    + apply Nat.ltb_ge in E. unfold Priority.changes in E.
      rewrite length_for_from in E.
      apply at_val_repeat_map; [exact I | |].
      * pose proof (priority_averages_nonneg prices period Hperiod) as H.
        eapply Forall_impl; [| exact H].
        intros st Hst. now apply priority_rsiValue_reading.
      * rewrite length_priority_rsiAverages by lia. exact Hi.
Qed.

Lemma at_val_prefix_null (n : nat) (tail : list jsval) (i : nat) :
  i < n -> at_val (repeat VNull n ++ tail) i = VNull.
Proof.
  intros H. unfold at_val.
  rewrite app_nth1 by (rewrite repeat_length; exact H).
  now apply nth_repeat_lt.
Qed.

Lemma at_val_map_num {A : Type} (n : nat) (f : A -> jsnum) (l : list A) (i : nat) :
  n <= i -> i < n + length l ->
  exists x, at_val (repeat VNull n ++ map (fun a => VNum (f a)) l) i = VNum x.
Proof.
  intros Hge Hlt.
  replace i with (n + (i - n)) by lia.
  rewrite at_val_after_prefix.
  destruct (nth_error l (i - n)) as [a |] eqn:E.
  - exists (f a). now apply (at_val_map (fun a => VNum (f a)) l _ a).
  - apply nth_error_None in E. lia.
Qed.

(** X2.  The warm-up of the two RSI functions: the entries before index
    [period] are [null], and so is every entry when there are fewer than
    [period + 1] prices; from index [period] on every entry is a number. *)
Theorem rsi_warmup (prices : list jsnum) (period i : nat)
  (Hi : i < length prices) :
  (i < period \/ length prices < period + 1 ->
   at_val (Shuffled.computeRSI prices period) i = VNull
   /\ at_val (Priority.rsiFromArray prices period) i = VNull)
  /\ (period <= i -> period + 1 <= length prices ->
      (exists x, at_val (Shuffled.computeRSI prices period) i = VNum x)
      /\ (exists x, at_val (Priority.rsiFromArray prices period) i = VNum x)).
Proof.
  unfold Shuffled.computeRSI, Priority.rsiFromArray, Priority.changes.
  rewrite length_for_from.
  split.
  - intros H.
    destruct (length prices <? period + 1) eqn:E1;
      destruct (length prices - 1 <? period) eqn:E2;
      try apply Nat.ltb_ge in E1; try apply Nat.ltb_ge in E2;
      try apply Nat.ltb_lt in E1; try apply Nat.ltb_lt in E2;
      try lia.
    + split; apply at_val_repeat; exact Hi.
    + destruct H as [H | H]; [| lia].
      split; apply at_val_prefix_null; exact H.
  - intros Hge Hlen.
    destruct (length prices <? period + 1) eqn:E1;
      [apply Nat.ltb_lt in E1; lia |].
    destruct (length prices - 1 <? period) eqn:E2;
      [apply Nat.ltb_lt in E2; lia |].
    split.
    + apply (at_val_map_num period Shuffled.rsiValue); [exact Hge |].
      rewrite length_shuffled_rsiAverages by exact Hlen. exact Hi.
    + apply (at_val_map_num period Priority.rsiValue); [exact Hge |].
      rewrite length_priority_rsiAverages by exact Hlen. exact Hi.
Qed.

Lemma rsi_warmup_witness :
  at_val (Shuffled.computeRSI risingPrices 14) 13 = VNull
  /\ at_val (Priority.rsiFromArray risingPrices 14) 13 = VNull
  /\ (exists x, at_val (Shuffled.computeRSI risingPrices 14) 14 = VNum x)
  /\ (exists x, at_val (Priority.rsiFromArray risingPrices 14) 14 = VNum x).
Proof.
  assert (Hlen : length risingPrices = 15) by reflexivity.
  assert (H13 : 13 < length risingPrices) by (rewrite Hlen; lia).
  assert (H14 : 14 < length risingPrices) by (rewrite Hlen; lia).
  destruct (rsi_warmup risingPrices 14 13 H13) as [Hnull _].
  destruct (rsi_warmup risingPrices 14 14 H14) as [_ Hnum].
  destruct (Hnull (or_introl (Nat.lt_succ_diag_r 13))) as [A B].
  destruct (Hnum (Nat.le_refl 14)) as [C D]; [rewrite Hlen; lia |].
  split; [exact A |]. split; [exact B |]. split; [exact C | exact D].
Defined.

Lemma rsi_between_0_and_100_witness :
  rsi_reading (at_val (Shuffled.computeRSI risingPrices 14) 14)
  /\ rsi_reading (at_val (Priority.rsiFromArray risingPrices 14) 14).
Proof.
  apply rsi_between_0_and_100; [lia |].
  change (length risingPrices) with 15. lia.
Defined.

(** ** One entry for each close *)

Lemma length_mapi_from {A B : Type} (f : nat -> A -> B) (l : list A) :
  forall k, length (mapi_from f k l) = length l.
Proof.
  induction l as [| x l IH]; intros k; simpl; [reflexivity |].
  now rewrite IH.
Qed.

Lemma length_trueRanges (highs lows closes : list jsnum) :
  length (trueRanges highs lows closes) = length closes - 1.
Proof. unfold trueRanges. apply length_for_from. Qed.

Lemma length_seeded {A : Type} (v : jsval) (f : A -> jsval) (period n : nat)
  (step : A -> jsnum -> A) (st : A) (ds : list jsnum) :
  1 <= period -> length ds = n - 1 -> period <= length ds ->
  length (repeat v period ++ map f (st :: run step st (skipn period ds))) = n.
Proof.
  intros Hp Hds Hle.
  rewrite length_app, repeat_length, length_map. cbn [length].
  rewrite length_run, length_skipn. lia.
Qed.

(** X3.  Every indicator array has one entry for each close, so that the
    index [closes.length - 1] reads the same candle in all of them; the one
    exception is [computeVelocityAcceleration] on an empty series, whose two
    arrays hold a single [null]. *)
Theorem indicator_arrays_align (sqrtQ : Q -> Q) (highs lows closes : list jsnum)
  (period : nat) (Hperiod : 1 <= period) :
  let n := length closes in
  (length (Shuffled.computeRSI closes period) = n
   /\ length (Shuffled.sma closes period) = n
   /\ length (Shuffled.rollingStd sqrtQ closes period) = n
   /\ length (Shuffled.upperBand (Shuffled.sma closes period)
                (Shuffled.rollingStd sqrtQ closes period)) = n
   /\ length (Shuffled.lowerBand (Shuffled.sma closes period)
                (Shuffled.rollingStd sqrtQ closes period)) = n
   /\ length (Shuffled.acceleration
                (Shuffled.sma (Shuffled.priceChanges closes) period)) = n
   /\ length (Shuffled.computeATR highs lows closes period) = n)
  /\ (length (Priority.rsiFromArray closes period) = n
      /\ length (Priority.sma closes period) = n
      /\ length (Priority.stddev sqrtQ closes period) = n
      /\ length (Priority.bbUpper (Priority.sma closes period)
                   (Priority.stddev sqrtQ closes period)) = n
      /\ length (Priority.bbLower (Priority.sma closes period)
                   (Priority.stddev sqrtQ closes period)) = n
      /\ length (Priority.atrFromCandles highs lows closes period) = n
      /\ length (fst (Priority.computeVelocityAcceleration closes)) = Nat.max 1 n
      /\ length (snd (Priority.computeVelocityAcceleration closes)) = Nat.max 1 n).
Proof.
  intros n. subst n.
  assert (Hsma : length (Shuffled.sma closes period) = length closes).
  { unfold Shuffled.sma. rewrite length_for_from. lia. }
  assert (Hsmp : length (Priority.sma closes period) = length closes).
  { unfold Priority.sma. rewrite length_for_from. lia. }
  split.
  - split.
    { unfold Shuffled.computeRSI.
      destruct (length closes <? period + 1) eqn:E.
      - apply repeat_length.
      - apply Nat.ltb_ge in E.
        rewrite length_app, repeat_length, length_map.
        now apply length_shuffled_rsiAverages. }
    split; [exact Hsma |].
    split; [unfold Shuffled.rollingStd; rewrite length_for_from; lia |].
    split; [unfold Shuffled.upperBand, mapi; now rewrite length_mapi_from |].
    split; [unfold Shuffled.lowerBand, mapi; now rewrite length_mapi_from |].
    split.
    { unfold Shuffled.acceleration, Shuffled.sma, Shuffled.priceChanges.
      rewrite !length_for_from. lia. }
    unfold Shuffled.computeATR. cbv zeta.
    pose proof (length_trueRanges highs lows closes) as Htr.
    destruct (length (trueRanges highs lows closes) <? period) eqn:E.
    + apply repeat_length.
    + apply Nat.ltb_ge in E. unfold slice.
      apply length_seeded; [exact Hperiod | exact Htr | exact E].
  - split.
    { unfold Priority.rsiFromArray.
      destruct (length (Priority.changes closes) <? period) eqn:E.
      - apply repeat_length.
      - apply Nat.ltb_ge in E. unfold Priority.changes in E.
        rewrite length_for_from in E.
        rewrite length_app, repeat_length, length_map.
        apply length_priority_rsiAverages. lia. }
    split; [exact Hsmp |].
    split; [unfold Priority.stddev; rewrite length_for_from; lia |].
    split; [unfold Priority.bbUpper, mapi; now rewrite length_mapi_from |].
    split; [unfold Priority.bbLower, mapi; now rewrite length_mapi_from |].
    split.
    { unfold Priority.atrFromCandles. cbv zeta.
      pose proof (length_trueRanges highs lows closes) as Htr.
      destruct (length (trueRanges highs lows closes) <? period) eqn:E.
      - apply repeat_length.
      - apply Nat.ltb_ge in E.
        apply length_seeded; [exact Hperiod | exact Htr | exact E]. }
    assert (Hv : length (Priority.velocity (Priority.priceChange closes))
                 = Nat.max 1 (length closes)).
    { unfold Priority.velocity, Priority.priceChange. cbn [length].
      rewrite !length_for_from. lia. }
    unfold Priority.computeVelocityAcceleration. cbn [fst snd].
    split; [exact Hv |].
    unfold Priority.accelerationOf. cbn [length].
    rewrite length_for_from, Hv. lia.
Qed.

Lemma indicator_arrays_align_witness :
  length (Shuffled.computeATR (map high slide) (map low slide)
            (map close slide) 14) = length (map close slide)
  /\ length (Priority.atrFromCandles (map high slide) (map low slide)
               (map close slide) 14) = length (map close slide).
Proof.
  assert (H : 1 <= 14) by lia.
  pose proof (indicator_arrays_align sqrtFloor (map high slide) (map low slide)
                (map close slide) 14 H) as [HS HP].
  split.
  - apply HS.
  - apply HP.
Defined.

(** ** The ATR *)

Lemma nonneg_jmax (x y : jsnum) : nonneg y -> nonneg (jmax x y).
Proof.
  destruct x as [a | | |], y as [b | | |]; simpl; intros H;
    try exact I; try contradiction; try exact H.
  destruct (Qle_bool b a) eqn:E; simpl; [| exact H].
  apply Qle_bool_iff in E. lra.
Qed.

Lemma nonneg_jor (x y : jsnum) : nonneg x -> nonneg y -> nonneg (jor x y).
Proof. intros Hx Hy. unfold jor. now destruct (truthy x). Qed.

Lemma nonneg_trueRanges (highs lows closes : list jsnum) :
  Forall nonneg (trueRanges highs lows closes).
Proof.
  unfold trueRanges, for_from. apply Forall_forall. intros x Hx.
  apply in_map_iff in Hx. destruct Hx as [i [<- _]].
  apply nonneg_jmax, nonneg_jabs.
Qed.

Lemma nonneg_sum (l : list jsnum) : Forall nonneg l -> nonneg (sum l).
Proof.
  intros H. unfold sum.
  assert (G : forall acc, nonneg acc -> nonneg (fold_left jadd l acc)).
  { induction H as [| x l Hx Hl IH]; intros acc Hacc; simpl; [exact Hacc |].
    apply IH. now apply nonneg_jadd. }
  apply G. simpl. lra.
Qed.

Lemma nonneg_at_num (l : list jsnum) (i : nat) :
  Forall nonneg l -> nonneg (at_num l i).
Proof.
  intros H. unfold at_num.
  destruct (nth_in_or_default i l NaN) as [Hin | ->]; [| exact I].
  rewrite Forall_forall in H. now apply H.
Qed.

Lemma forall_firstn {A : Type} (P : A -> Prop) (n : nat) (l : list A) :
  Forall P l -> Forall P (firstn n l).
Proof.
  intros H. rewrite <- (firstn_skipn n l) in H.
  apply Forall_app in H. exact (proj1 H).
Qed.

Lemma forall_skipn {A : Type} (P : A -> Prop) (n : nat) (l : list A) :
  Forall P l -> Forall P (skipn n l).
Proof.
  intros H. rewrite <- (firstn_skipn n l) in H.
  apply Forall_app in H. exact (proj2 H).
Qed.

Lemma nonneg_smoothed (period : nat) (x0 : jsnum) (trs : list jsnum) :
  1 <= period -> nonneg x0 -> Forall nonneg trs ->
  Forall nonneg (x0 :: run (wilder period) x0 (skipn period trs)).
Proof.
  intros Hp H0 Htr. constructor; [exact H0 |].
  pose proof (forall_skipn nonneg period trs Htr) as Hs.
  revert x0 H0. induction Hs as [| d ds Hd Hds IH]; intros x0 H0; simpl.
  - constructor.
  - constructor.
    + now apply nonneg_wilder.
    + apply IH. now apply nonneg_wilder.
Qed.

Lemma at_val_seeded (v : jsval) (P : jsnum -> Prop) (period : nat)
  (l : list jsnum) (i : nat) :
  Forall P l -> period <= i -> i < period + length l ->
  exists x, at_val (repeat v period ++ map VNum l) i = VNum x /\ P x.
Proof.
  intros Hl Hge Hlt.
  replace i with (period + (i - period)) by lia.
  rewrite at_val_after_prefix.
  destruct (nth_error l (i - period)) as [a |] eqn:E.
  - exists a. split; [now apply (at_val_map VNum l _ a) |].
    rewrite Forall_forall in Hl. apply Hl. eapply nth_error_In; eauto.
  - apply nth_error_None in E. lia.
Qed.

(** X4.  The ATR is never negative and never [-Infinity].  [computeATR]
    returns a number at every index (it fills the warm-up with the first
    average); [atrFromCandles] returns [null] before index [period] and when
    there are at most [period] candles, and a number afterwards. *)
Theorem atr_never_negative (highs lows closes : list jsnum) (period i : nat)
  (Hperiod : 1 <= period) (Hi : i < length closes) :
  (exists x, at_val (Shuffled.computeATR highs lows closes period) i = VNum x
             /\ nonneg x)
  /\ (i < period \/ length closes <= period ->
      at_val (Priority.atrFromCandles highs lows closes period) i = VNull)
  /\ (period <= i -> period < length closes ->
      exists x, at_val (Priority.atrFromCandles highs lows closes period) i
                = VNum x /\ nonneg x).
Proof.
  pose proof (nonneg_trueRanges highs lows closes) as Htr.
  pose proof (length_trueRanges highs lows closes) as Hlen.
  split; [| split].
  - unfold Shuffled.computeATR. cbv zeta.
    destruct (length (trueRanges highs lows closes) <? period) eqn:E.
    + rewrite at_val_repeat by exact Hi. eexists. split; [reflexivity |].
      apply nonneg_jdiv; [now apply nonneg_sum |].
      apply nonneg_jor; [apply nonneg_ofNat | simpl; lra].
    + apply Nat.ltb_ge in E.
      set (initial := jdiv (sum (slice 0 period (trueRanges highs lows closes)))
                           (ofNat period)).
      assert (H0 : nonneg initial).
      { apply nonneg_jdiv; [| apply nonneg_ofNat].
        apply nonneg_sum. unfold slice. now apply forall_firstn, forall_skipn. }
      destruct (Nat.lt_ge_cases i period) as [Hlt | Hge].
      * unfold at_val. rewrite app_nth1 by (rewrite repeat_length; exact Hlt).
        rewrite nth_repeat_lt by exact Hlt.
        eexists. split; [reflexivity |].
        apply nonneg_jor; [exact H0 | simpl; lra].
      * apply at_val_seeded; [now apply nonneg_smoothed | exact Hge |].
        cbn [length]. rewrite length_run, length_skipn. lia.
  - intros H. unfold Priority.atrFromCandles. cbv zeta.
    destruct (length (trueRanges highs lows closes) <? period) eqn:E.
    + now apply at_val_repeat.
    + apply Nat.ltb_ge in E. destruct H as [H | H]; [| lia].
      now apply at_val_prefix_null.
  - intros Hge Hlong. unfold Priority.atrFromCandles. cbv zeta.
    destruct (length (trueRanges highs lows closes) <? period) eqn:E;
      [apply Nat.ltb_lt in E; lia |].
    apply Nat.ltb_ge in E.
    apply at_val_seeded; [| exact Hge |].
    + apply nonneg_smoothed; [exact Hperiod | | exact Htr].
      apply nonneg_jdiv; [| apply nonneg_ofNat].
      apply fold_left_invariant; [| simpl; lra].
      intros s k Hs. apply nonneg_jadd; [exact Hs |].
      now apply nonneg_at_num.
    + cbn [length]. rewrite length_run, length_skipn. lia.
Qed.

Lemma atr_never_negative_witness :
  (exists x, at_val (Shuffled.computeATR (map high slide) (map low slide)
                       (map close slide) 14) 39 = VNum x /\ nonneg x)
  /\ (exists x, at_val (Priority.atrFromCandles (map high slide) (map low slide)
                          (map close slide) 14) 39 = VNum x /\ nonneg x).
Proof.
  assert (Hp : 1 <= 14) by lia.
  assert (Hi : 39 < length (map close slide)) by (vm_compute; lia).
  destruct (atr_never_negative (map high slide) (map low slide)
              (map close slide) 14 39 Hp Hi) as [HS [_ HP]].
  split; [exact HS |].
  apply HP; [lia | vm_compute; lia].
Defined.

(** ** The entry rules and the levels *)

Lemma oversold_not_overbought (r : jsnum) :
  jlt r (Fin 30) = true -> jgt r (Fin 70) = false.
Proof.
  destruct r as [q | | |]; simpl; intros H; try reflexivity; try discriminate H.
  apply negb_true_iff in H. apply negb_false_iff.
  apply Qle_bool_iff. destruct (Qle_bool 30 q) eqn:E; [discriminate H |].
  destruct (Qlt_le_dec q 30) as [Hlt | Hge].
  - lra.
  - apply Qle_bool_iff in Hge. congruence.
Qed.

(** X5.  The conditions of a LONG and of a SHORT never hold together, so
    the two independent [if]s of the shuffled generation decide as an
    [if ... else if] does, and the two generations take the same side on the
    same indicator values. *)
Theorem entry_rules_exclusive (c rsi lower upper a atr : jsval) :
  let long := jlt (toNumber rsi) (Fin 30)
              && jlt (toNumber c) (toNumber lower)
              && jgt (toNumber a) (Fin 0) in
  let short := jgt (toNumber rsi) (Fin 70)
               && jgt (toNumber c) (toNumber upper)
               && jlt (toNumber a) (Fin 0) in
  long && short = false
  /\ Shuffled.entryRule (Shuffled.mkSnapshot c rsi lower upper a atr)
     = (if long then Some LONG else if short then Some SHORT else None)
  /\ Shuffled.entryRule (Shuffled.mkSnapshot c rsi lower upper a atr)
     = Priority.entryRule (Priority.mkSnapshot c rsi lower upper a atr).
Proof.
  intros long short.
  assert (Hex : long && short = false).
  { subst long short.
    destruct (jlt (toNumber rsi) (Fin 30)) eqn:E; [| reflexivity].
    rewrite (oversold_not_overbought _ E). cbn [andb].
    now rewrite andb_false_r. }
  assert (Hrule : Shuffled.entryRule (Shuffled.mkSnapshot c rsi lower upper a atr)
                  = (if long then Some LONG else if short then Some SHORT else None)).
  { unfold Shuffled.entryRule. cbn [Shuffled.lastRsi Shuffled.lastClose
      Shuffled.lastLowerBB Shuffled.lastUpperBB Shuffled.lastA].
    fold long. fold short.
    destruct long, short; try reflexivity. discriminate Hex. }
  split; [exact Hex |]. split; [exact Hrule |].
  rewrite Hrule. reflexivity.
Qed.

(** The ATR at the last index of 40 candles or more is a number that is
    not negative. *)
Lemma shuffled_last_atr (sqrtQ : Q -> Q) (candles : list candle) :
  40 <= length candles ->
  exists x, Shuffled.lastAtr (Shuffled.indicators sqrtQ candles) = VNum x
            /\ nonneg x.
Proof.
  intros Hlen. unfold Shuffled.indicators. cbv zeta. cbn [Shuffled.lastAtr].
  set (highs := map high candles). set (lows := map low candles).
  set (closes := map close candles).
  assert (Hc : length closes = length candles) by apply length_map.
  rewrite Hc.
  pose proof (nonneg_trueRanges highs lows closes) as Htr.
  pose proof (length_trueRanges highs lows closes) as Htl.
  unfold Shuffled.computeATR. cbv zeta.
  destruct (length (trueRanges highs lows closes) <? 14) eqn:E;
    [apply Nat.ltb_lt in E; lia |].
  apply at_val_seeded; [| lia |].
  - apply nonneg_smoothed; [lia | | exact Htr].
    apply nonneg_jdiv; [| apply nonneg_ofNat].
    apply nonneg_sum. unfold slice. now apply forall_firstn, forall_skipn.
  - cbn [length]. rewrite length_run, length_skipn. lia.
Qed.

Lemma priority_last_atr (sqrtQ : Q -> Q) (candles : list candle) :
  40 <= length candles ->
  exists x, Priority.lastAtr (Priority.indicators sqrtQ candles) = VNum x
            /\ nonneg x.
Proof.
  intros Hlen. unfold Priority.indicators. cbv zeta.
  destruct (Priority.computeVelocityAcceleration (map close candles))
    as [vArr aArr].
  cbn [Priority.lastAtr].
  set (highs := map high candles). set (lows := map low candles).
  set (closes := map close candles).
  assert (Hc : length closes = length candles) by apply length_map.
  rewrite Hc.
  pose proof (nonneg_trueRanges highs lows closes) as Htr.
  pose proof (length_trueRanges highs lows closes) as Htl.
  unfold Priority.atrFromCandles. cbv zeta.
  destruct (length (trueRanges highs lows closes) <? 14) eqn:E;
    [apply Nat.ltb_lt in E; lia |].
  apply at_val_seeded; [| lia |].
  - apply nonneg_smoothed; [lia | | exact Htr].
    apply nonneg_jdiv; [| apply nonneg_ofNat].
    apply fold_left_invariant; [| simpl; lra].
    intros st k Hs. apply nonneg_jadd; [exact Hs |].
    now apply nonneg_at_num.
  - cbn [length]. rewrite length_run, length_skipn. lia.
Qed.

Lemma levels_between (sd : Side) (e : Q) (a : jsnum) :
  nonneg a -> a <> NaN ->
  between_levels sd (Fin e) (fst (priceLevels sd (Fin e) a))
                 (snd (priceLevels sd (Fin e) a)).
Proof.
  intros Ha Hnan.
  destruct a as [q | | |]; [| | contradiction | congruence].
  - cbn [nonneg] in Ha.
    destruct sd; cbn [priceLevels fst snd between_levels jsub jadd jopp jmul jge];
      split; apply Qle_bool_iff; lra.
  - destruct sd; split; reflexivity.
Qed.

Lemma analyzed_is_long_enough_shuffled (sqrtQ : Q -> Q) (sym : string)
  (candles : list candle) (sig : Shuffled.signal) :
  Shuffled.analyzeCandles sqrtQ sym candles = Some sig -> 40 <= length candles.
Proof.
  unfold Shuffled.analyzeCandles.
  destruct (Nat.ltb_spec (length candles) 40); [discriminate | lia].
Qed.

Lemma analyzed_is_long_enough_priority (sqrtQ : Q -> Q) (sym : string)
  (candles : list candle) (sig : Priority.signal) :
  Priority.analyzeCandles sqrtQ sym candles = Some sig -> 40 <= length candles.
Proof.
  unfold Priority.analyzeCandles.
  destruct (Nat.ltb_spec (length candles) 40); [discriminate | lia].
Qed.

(** X6.  The levels of a signal never sit on the wrong side of the entry:
    [sl <= entry <= tp] for a LONG and [tp <= entry <= sl] for a SHORT, in
    every signal of the priority generation, and in every signal of the
    shuffled generation whose ATR is not [NaN] (that generation lets a [NaN]
    through, and then both levels are [NaN]).  The ATR is never negative, and
    subtracting a number that is not negative never gives more, in doubles
    as in exact arithmetic; the levels may coincide with the entry. *)
Theorem levels_never_cross_entry (sqrtQ : Q -> Q) (sym : string)
  (candles : list candle) :
  (forall sig, Shuffled.analyzeCandles sqrtQ sym candles = Some sig ->
     toNumber (Shuffled.lastAtr (Shuffled.indicators sqrtQ candles)) <> NaN ->
     between_levels (Shuffled.side sig) (Shuffled.entry sig)
                    (Shuffled.sl sig) (Shuffled.tp sig))
  /\ (forall sig, Priority.analyzeCandles sqrtQ sym candles = Some sig ->
        between_levels (Priority.side sig) (Priority.entry sig)
                       (Priority.sl sig) (Priority.tp sig)).
Proof.
  split.
  - intros sig H Hnan.
    pose proof (shuffled_entry_is_finite _ _ _ _ H) as Hfin.
    destruct (shuffled_last_atr sqrtQ candles
                (analyzed_is_long_enough_shuffled _ _ _ _ H)) as [x [Hx Hpos]].
    destruct (shuffled_analyze_some _ _ _ _ H) as [_ Hd].
    destruct (shuffled_decide_some _ _ _ Hd) as [_ [He [Hsl [Htp _]]]].
    rewrite Hx in Hsl, Htp, Hnan. cbn [toNumber] in Hsl, Htp, Hnan.
    rewrite <- He in Hsl, Htp. rewrite Hsl, Htp.
    destruct (Shuffled.entry sig) as [e | | |]; try contradiction.
    now apply levels_between.
  - intros sig H.
    pose proof (priority_entry_is_finite _ _ _ _ H) as Hfin.
    destruct (priority_last_atr sqrtQ candles
                (analyzed_is_long_enough_priority _ _ _ _ H)) as [x [Hx Hpos]].
    destruct (priority_analyze_some _ _ _ _ H) as [_ Hd].
    assert (Hnan : x <> NaN).
    { intros ->. unfold Priority.decide in Hd. rewrite Hx in Hd.
      cbn [existsb is_missing] in Hd. rewrite !orb_true_r in Hd.
      discriminate Hd. }
    destruct (priority_decide_some _ _ _ Hd) as [_ [_ [He [Hsl [Htp _]]]]].
    rewrite Hx in Hsl, Htp. cbn [toNumber] in Hsl, Htp.
    rewrite <- He in Hsl, Htp. rewrite Hsl, Htp.
    destruct (Priority.entry sig) as [e | | |]; try contradiction.
    now apply levels_between.
Qed.

Lemma levels_never_cross_entry_witness :
  match Priority.analyzeCandles sqrtFloor "BTCUSDT" climb with
  | Some sig =>
      between_levels (Priority.side sig) (Priority.entry sig)
                     (Priority.sl sig) (Priority.tp sig)
  | None => False
  end
  /\ match Shuffled.analyzeCandles sqrtFloor "BTC/USDT" slideInfiniteHigh with
     | Some sig =>
         between_levels (Shuffled.side sig) (Shuffled.entry sig)
                        (Shuffled.sl sig) (Shuffled.tp sig)
     | None => False
     end.
Proof.
  split.
  - destruct (Priority.analyzeCandles sqrtFloor "BTCUSDT" climb)
      as [sig |] eqn:E; [| vm_compute in E; discriminate E].
    exact (proj2 (levels_never_cross_entry sqrtFloor "BTCUSDT" climb) sig E).
  - destruct (Shuffled.analyzeCandles sqrtFloor "BTC/USDT" slideInfiniteHigh)
      as [sig |] eqn:E; [| vm_compute in E; discriminate E].
    apply (proj1 (levels_never_cross_entry sqrtFloor "BTC/USDT"
                    slideInfiniteHigh) sig E).
    vm_compute. discriminate.
Defined.

(** ** The Bollinger bands *)

Lemma at_val_nth_error (l : list jsval) (i : nat) (v : jsval) :
  nth_error l i = Some v -> at_val l i = v.
Proof. intros H. unfold at_val. now apply nth_error_nth. Qed.

Lemma at_val_mapi (f : nat -> jsval -> jsval) (l : list jsval) (i : nat)
  (v : jsval) :
  nth_error l i = Some v -> at_val (mapi f l) i = f i v.
Proof.
  intros H. apply at_val_nth_error. rewrite nth_error_mapi, H. reflexivity.
Qed.

Lemma at_val_mapi_none (f : nat -> jsval -> jsval) (l : list jsval) (i : nat) :
  nth_error l i = None -> at_val (mapi f l) i = VUndef.
Proof.
  intros H. unfold at_val. apply nth_overflow.
  unfold mapi. rewrite length_mapi_from. now apply nth_error_None.
Qed.

Lemma nonneg_jsqrt (sqrtQ : Q -> Q) (x : jsnum) :
  (forall q, (0 <= sqrtQ q)%Q) -> nonneg (jsqrt sqrtQ x).
Proof.
  intros Hsqrt. destruct x as [a | | |]; simpl; try exact I.
  destruct (is_neg a); simpl; [exact I | apply Hsqrt].
Qed.

Lemma nonneg_twice (x : jsnum) : nonneg x -> nonneg (jmul (Fin 2) x).
Proof.
  destruct x as [a | | |]; simpl; intros H; try exact I; try contradiction.
  lra.
Qed.

Lemma around (m w : jsnum) (lo up : Q) :
  nonneg w -> jsub m w = Fin lo -> jadd m w = Fin up ->
  exists mq, m = Fin mq /\ (lo <= mq <= up)%Q.
Proof.
  destruct m as [mq | | |], w as [wq | | |]; simpl; intros Hw Hlo Hup;
    try discriminate Hlo; try discriminate Hup.
  injection Hlo as <-. injection Hup as <-.
  exists mq. split; [reflexivity |]. lra.
Qed.

(** X7.  Where both Bollinger bands are finite the moving average is finite
    too and lies between them, [lower <= average <= upper]: twice a
    deviation that is not negative is taken from the average on one side and
    added on the other.  The square root is only asked not to be negative. *)
Theorem bands_around_average (sqrtQ : Q -> Q) (closes : list jsnum)
  (period i : nat) (lo up : Q) (Hsqrt : forall q, (0 <= sqrtQ q)%Q) :
  (at_numv (Shuffled.lowerBand (Shuffled.sma closes period)
              (Shuffled.rollingStd sqrtQ closes period)) i = VNum (Fin lo) ->
   at_numv (Shuffled.upperBand (Shuffled.sma closes period)
              (Shuffled.rollingStd sqrtQ closes period)) i = VNum (Fin up) ->
   exists m, at_numv (Shuffled.sma closes period) i = VNum (Fin m)
             /\ (lo <= m <= up)%Q)
  /\ (at_val (Priority.bbLower (Priority.sma closes period)
                (Priority.stddev sqrtQ closes period)) i = VNum (Fin lo) ->
      at_val (Priority.bbUpper (Priority.sma closes period)
                (Priority.stddev sqrtQ closes period)) i = VNum (Fin up) ->
      exists m, at_val (Priority.sma closes period) i = VNum (Fin m)
                /\ (lo <= m <= up)%Q).
Proof.
  split.
  - unfold Shuffled.lowerBand, Shuffled.upperBand, at_numv.
    rewrite !nth_error_mapi.
    destruct (nth_error (Shuffled.sma closes period) i) as [m |] eqn:Em;
      cbn [option_map]; [| discriminate].
    intros Hlo Hup. injection Hlo as Hlo. injection Hup as Hup.
    set (w := jmul (Fin 2)
                (toNumber (vor (match nth_error
                                        (Shuffled.rollingStd sqrtQ closes period) i
                                with Some x => VNum x | None => VUndef end)
                               (Fin 0)))) in *.
    assert (Hw : nonneg w).
    { subst w. apply nonneg_twice.
      destruct (nth_error (Shuffled.rollingStd sqrtQ closes period) i)
        as [x |] eqn:Ex.
      - unfold vor. cbn [vtruthy].
        assert (Hx : nonneg x).
        { apply nth_error_In in Ex. unfold Shuffled.rollingStd, for_from in Ex.
          apply in_map_iff in Ex. destruct Ex as [k [<- _]].
          now apply nonneg_jsqrt. }
        destruct (truthy x); cbn [toNumber]; [exact Hx | simpl; lra].
      - simpl. lra. }
    destruct (around m w lo up Hw Hlo Hup) as [mq [-> Hb]].
    exists mq. split; [reflexivity | exact Hb].
  - unfold Priority.bbLower, Priority.bbUpper.
    intros Hlo Hup.
    destruct (nth_error (Priority.sma closes period) i) as [m |] eqn:Em;
      [| rewrite (at_val_mapi_none _ _ _ Em) in Hlo; discriminate Hlo].
    rewrite (at_val_mapi _ _ _ _ Em) in Hlo.
    rewrite (at_val_mapi _ _ _ _ Em) in Hup.
    rewrite (at_val_nth_error _ _ _ Em).
    destruct (is_null m) eqn:En; [discriminate Hlo |].
    injection Hlo as Hlo. injection Hup as Hup.
    set (w := jmul (Fin 2)
                (toNumber (at_val (Priority.stddev sqrtQ closes period) i))) in *.
    assert (Hw : nonneg w).
    { subst w. apply nonneg_twice.
      unfold Priority.stddev.
      destruct (at_val_map_cases
                  (fun i => if i + 1 <? period then VNull
                            else VNum (jsqrt sqrtQ
                                   (jdiv (fold_left
                                      (fun a b => jadd a (jsquare (jsub b
                                         (jdiv (sum (slice (i + 1 - period) (i + 1) closes))
                                               (ofNat period)))))
                                      (slice (i + 1 - period) (i + 1) closes) (Fin 0))
                                   (ofNat period))))
                  (seq 0 (length closes - 0)) i) as [H | [k [_ H]]].
      - unfold for_from. cbv zeta. rewrite H. simpl. lra.
      - unfold for_from. cbv zeta. rewrite H.
        destruct (k + 1 <? period); [simpl; lra |].
        cbn [toNumber]. now apply nonneg_jsqrt. }
    destruct (around (toNumber m) w lo up Hw Hlo Hup) as [mq [Hm Hb]].
    destruct m as [| | x]; try discriminate En.
    + cbn [toNumber] in Hm. discriminate Hm.
    + cbn [toNumber] in Hm. subst x.
      exists mq. split; [reflexivity | exact Hb].
Qed.

Lemma sqrtFloor_nonneg (q : Q) : (0 <= sqrtFloor q)%Q.
Proof.
  unfold sqrtFloor. apply Qle_shift_div_l; [reflexivity |].
  rewrite Qmult_0_l.
  change 0%Q with (inject_Z 0). rewrite <- Zle_Qle. apply Z.sqrt_nonneg.
Qed.

Lemma bands_around_average_witness :
  exists lo up m,
    at_numv (Shuffled.sma (map close slide) 20) 39 = VNum (Fin m)
    /\ (lo <= m <= up)%Q.
Proof.
  destruct (at_numv (Shuffled.lowerBand (Shuffled.sma (map close slide) 20)
                       (Shuffled.rollingStd sqrtFloor (map close slide) 20)) 39)
    as [| | [lo | | |]] eqn:El; try (vm_compute in El; discriminate El).
  destruct (at_numv (Shuffled.upperBand (Shuffled.sma (map close slide) 20)
                       (Shuffled.rollingStd sqrtFloor (map close slide) 20)) 39)
    as [| | [up | | |]] eqn:Eu; try (vm_compute in Eu; discriminate Eu).
  destruct (proj1 (bands_around_average sqrtFloor (map close slide) 20 39 lo up
                     sqrtFloor_nonneg) El Eu) as [m Hm].
  exists lo, up, m. exact Hm.
Defined.

(** ** Velocity and acceleration *)

Lemma length_priceChange (closes : list jsnum) :
  1 <= length closes -> length (Priority.priceChange closes) = length closes.
Proof.
  intros H. unfold Priority.priceChange. cbn [length].
  rewrite length_for_from. lia.
Qed.

Lemma length_velocity (pc : list jsval) : length (Priority.velocity pc) = length pc.
Proof. unfold Priority.velocity. rewrite length_for_from. lia. Qed.

(** X8.  The warm-up of [computeVelocityAcceleration]: the velocity is
    [null] at indices 0 and 1, the acceleration at indices 0, 1 and 2, and
    both are numbers at every later index of the series. *)
Theorem velocity_warmup (closes : list jsnum) (i : nat)
  (Hi : i < length closes) :
  let v := fst (Priority.computeVelocityAcceleration closes) in
  let a := snd (Priority.computeVelocityAcceleration closes) in
  (i < 2 -> at_val v i = VNull)
  /\ (2 <= i -> exists x, at_val v i = VNum x)
  /\ (i < 3 -> at_val a i = VNull)
  /\ (3 <= i -> exists x, at_val a i = VNum x).
Proof.
  unfold Priority.computeVelocityAcceleration. cbn [fst snd].
  set (pc := Priority.priceChange closes).
  assert (Hpc : length pc = length closes) by (apply length_priceChange; lia).
  assert (Hv : forall k, k < length closes ->
                 at_val (Priority.velocity pc) k
                 = if k <? 2 then VNull
                   else VNum (jdiv (jadd (jadd
                                 (toNumber (vor (at_val pc k) (Fin 0)))
                                 (toNumber (vor (at_val pc (k - 1)) (Fin 0))))
                                 (toNumber (vor (at_val pc (k - 2)) (Fin 0))))
                              (Fin 3))).
  { intros k Hk. unfold Priority.velocity. now rewrite at_val_for_from by lia. }
  assert (Ha : forall k, 1 <= k -> k < length closes ->
                 at_val (Priority.accelerationOf (Priority.velocity pc)) k
                 = if is_null (at_val (Priority.velocity pc) k)
                      || is_null (at_val (Priority.velocity pc) (k - 1))
                   then VNull
                   else VNum (jsub (toNumber (at_val (Priority.velocity pc) k))
                                   (toNumber (at_val (Priority.velocity pc) (k - 1))))).
  { intros k Hk1 Hk2. unfold Priority.accelerationOf.
    rewrite at_val_cons_for_from by (rewrite ?length_velocity; lia).
    reflexivity. }
  split; [| split; [| split]].
  - intros H. rewrite Hv by exact Hi.
    destruct (Nat.ltb_spec i 2); [reflexivity | lia].
  - intros H. rewrite Hv by exact Hi.
    destruct (Nat.ltb_spec i 2); [lia | eexists; reflexivity].
  - intros H. destruct i as [| i]; [reflexivity |].
    rewrite Ha by lia. rewrite (Hv (S i - 1)) by lia.
    destruct (Nat.ltb_spec (S i - 1) 2); [| lia].
    cbn [is_null]. now rewrite orb_true_r.
  - intros H. rewrite Ha by lia.
    rewrite (Hv i), (Hv (i - 1)) by lia.
    destruct (Nat.ltb_spec i 2); [lia |].
    destruct (Nat.ltb_spec (i - 1) 2); [lia |].
    cbn [is_null orb]. eexists; reflexivity.
Qed.

Lemma velocity_warmup_witness :
  at_val (snd (Priority.computeVelocityAcceleration (map close slide))) 2 = VNull
  /\ exists x,
       at_val (snd (Priority.computeVelocityAcceleration (map close slide))) 3
       = VNum x.
Proof.
  assert (H2 : 2 < length (map close slide)) by (vm_compute; lia).
  assert (H3 : 3 < length (map close slide)) by (vm_compute; lia).
  split.
  - apply (velocity_warmup (map close slide) 2 H2). lia.
  - apply (velocity_warmup (map close slide) 3 H3). lia.
Defined.

Lemma skipn_cons_nth {A : Type} (d : A) (l : list A) :
  forall n, n < length l -> skipn n l = nth n l d :: skipn (S n) l.
Proof.
  induction l as [| x l IH]; intros n H; simpl in H; [lia |].
  destruct n as [| n]; [reflexivity |].
  cbn [skipn nth]. apply IH. lia.
Qed.

Lemma window_of_three (arr : list jsnum) (i : nat) :
  2 <= i -> i < length arr ->
  slice (i + 1 - 3) (i + 1) arr
  = [at_num arr (i - 2); at_num arr (i - 1); at_num arr i].
Proof.
  intros H2 Hi. unfold slice, at_num.
  replace (i + 1 - (i + 1 - 3)) with 3 by lia.
  replace (i + 1 - 3) with (i - 2) by lia.
  rewrite (skipn_cons_nth NaN) by lia.
  rewrite (skipn_cons_nth NaN) by lia.
  rewrite (skipn_cons_nth NaN) by lia.
  replace (S (i - 2)) with (i - 1) by lia.
  replace (S (i - 1)) with i by lia.
  reflexivity.
Qed.

(** The change between two closes that are one value counts as 0 in the
    velocity: it is 0, or [NaN] when the value is not finite, and
    [NaN || 0] is 0. *)
Lemma flat_change (c : jsnum) : jor (jsub c c) (Fin 0) = Fin 0.
Proof.
  destruct c as [q | | |]; try reflexivity.
  unfold jor, jsub, jopp, jadd, truthy, is_zero.
  assert (E : Qeq_bool (q + - q) 0 = true) by (apply Qeq_bool_iff; ring).
  now rewrite E.
Qed.

Lemma flat_term (c : jsnum) :
  toNumber (vor (VNum (jsub c c)) (Fin 0)) = Fin 0.
Proof.
  pose proof (flat_change c) as H. unfold jor in H. unfold vor.
  cbn [vtruthy]. now destruct (truthy (jsub c c)).
Qed.

Lemma shuffled_flat_acceleration (closes : list jsnum) (i : nat) (c : jsnum) :
  4 <= i -> i < length closes ->
  (forall k, k <= 4 -> at_num closes (i - k) = c) ->
  exists q,
    at_numv (Shuffled.acceleration
               (Shuffled.sma (Shuffled.priceChanges closes) 3)) i
    = VNum (Fin q) /\ (q == 0)%Q.
Proof.
  intros Hi4 Hi Hflat.
  set (pcs := Shuffled.priceChanges closes).
  assert (Hlen : length pcs = length closes).
  { unfold pcs, Shuffled.priceChanges. rewrite length_for_from. lia. }
  assert (Hpc : forall k, i - 3 <= k -> k <= i ->
                  jor (at_num pcs k) (Fin 0) = Fin 0).
  { intros k Hk1 Hk2. unfold pcs, Shuffled.priceChanges, at_num at 1.
    pose proof (nth_error_for_from 0 (length closes)
                  (fun i => jsub (at_num closes i)
                              (if i =? 0 then at_num closes 0
                               else at_num closes (i - 1))) k) as E.
    rewrite (nth_error_nth _ _ NaN (E ltac:(lia))). cbn [Nat.add].
    destruct (Nat.eqb_spec k 0); [lia |].
    replace k with (i - (i - k)) at 1 by lia.
    replace (k - 1) with (i - (i - k + 1)) by lia.
    rewrite !Hflat by lia. apply flat_change. }
  assert (Hv : forall k, i - 1 <= k -> k <= i ->
                 at_num (Shuffled.sma pcs 3) k
                 = Fin ((0 + 0 + 0 + 0) / 3)).
  { intros k Hk1 Hk2. unfold Shuffled.sma, at_num at 1.
    pose proof (nth_error_for_from 0 (length pcs)
                  (fun i =>
                     jdiv (fold_left (fun a b => jadd a (jor b (Fin 0)))
                             (slice (i + 1 - 3) (i + 1) pcs) (Fin 0))
                          (ofNat (length (slice (i + 1 - 3) (i + 1) pcs)))) k) as E.
    rewrite (nth_error_nth _ _ NaN (E ltac:(lia))). cbn [Nat.add].
    rewrite window_of_three by lia. cbn [fold_left length].
    rewrite !Hpc by lia. reflexivity. }
  unfold Shuffled.acceleration.
  rewrite at_numv_for_from
    by (unfold Shuffled.sma; rewrite length_for_from; lia).
  destruct (Nat.eqb_spec i 0); [lia |].
  rewrite !Hv by lia.
  eexists. split; [reflexivity | reflexivity].
Qed.

Lemma priority_flat_acceleration (closes : list jsnum) (i : nat) (c : jsnum) :
  4 <= i -> i < length closes ->
  (forall k, k <= 4 -> at_num closes (i - k) = c) ->
  exists q,
    at_val (snd (Priority.computeVelocityAcceleration closes)) i
    = VNum (Fin q) /\ (q == 0)%Q.
Proof.
  intros Hi4 Hi Hflat.
  unfold Priority.computeVelocityAcceleration. cbn [snd].
  set (pc := Priority.priceChange closes).
  assert (Hlen : length pc = length closes) by (apply length_priceChange; lia).
  assert (Hpc : forall k, i - 3 <= k -> k <= i ->
                  toNumber (vor (at_val pc k) (Fin 0)) = Fin 0).
  { intros k Hk1 Hk2. unfold pc, Priority.priceChange.
    rewrite at_val_cons_for_from by lia.
    replace k with (i - (i - k)) at 1 by lia.
    replace (k - 1) with (i - (i - k + 1)) by lia.
    rewrite !Hflat by lia. apply flat_term. }
  assert (Hv : forall k, i - 1 <= k -> k <= i ->
                 at_val (Priority.velocity pc) k
                 = VNum (Fin ((0 + 0 + 0) / 3))).
  { intros k Hk1 Hk2. unfold Priority.velocity.
    rewrite at_val_for_from by lia.
    destruct (Nat.ltb_spec k 2); [lia |].
    rewrite !Hpc by lia. reflexivity. }
  unfold Priority.accelerationOf.
  rewrite at_val_cons_for_from by (rewrite ?length_velocity; lia).
  rewrite !Hv by lia. cbn [is_null orb toNumber].
  eexists. split; [reflexivity | reflexivity].
Qed.

Lemma zero_is_no_direction (q : Q) :
  (q == 0)%Q -> jgt (Fin q) (Fin 0) = false /\ jlt (Fin q) (Fin 0) = false.
Proof.
  intros H. unfold jgt, jlt. split; apply negb_false_iff, Qle_bool_iff; lra.
Qed.

(** X9.  When the last five closes are one value, the price changes that
    enter the velocity at the last two indices all count as 0, the
    acceleration at the last index is the number 0 in both generations, and
    no signal is emitted, whatever the other indicators say: a LONG needs an
    acceleration above 0 and a SHORT one below. *)
Theorem flat_tail_gives_no_signal (sqrtQ : Q -> Q) (sym : string)
  (candles : list candle) (c : jsnum)
  (Hflat : forall k, k <= 4 ->
             at_num (map close candles) (length candles - 1 - k) = c) :
  (5 <= length candles ->
   veq (Shuffled.lastA (Shuffled.indicators sqrtQ candles)) (VNum (Fin 0))
   /\ veq (Priority.lastA (Priority.indicators sqrtQ candles)) (VNum (Fin 0)))
  /\ Shuffled.analyzeCandles sqrtQ sym candles = None
  /\ Priority.analyzeCandles sqrtQ sym candles = None.
Proof.
  assert (Hc : length (map close candles) = length candles) by apply length_map.
  assert (HS : 5 <= length candles ->
               exists q, Shuffled.lastA (Shuffled.indicators sqrtQ candles)
                         = VNum (Fin q) /\ (q == 0)%Q).
  { intros Hlen. unfold Shuffled.indicators. cbv zeta. cbn [Shuffled.lastA].
    rewrite Hc.
    apply (shuffled_flat_acceleration _ _ c); [lia | lia | exact Hflat]. }
  assert (HP : 5 <= length candles ->
               exists q, Priority.lastA (Priority.indicators sqrtQ candles)
                         = VNum (Fin q) /\ (q == 0)%Q).
  { intros Hlen.
    assert (E : Priority.lastA (Priority.indicators sqrtQ candles)
                = at_val (snd (Priority.computeVelocityAcceleration
                                 (map close candles)))
                         (length (map close candles) - 1)).
    { unfold Priority.indicators. cbv zeta.
      now destruct (Priority.computeVelocityAcceleration (map close candles)). }
    rewrite E, Hc.
    apply (priority_flat_acceleration _ _ c); [lia | lia | exact Hflat]. }
  split; [| split].
  - intros Hlen.
    destruct (HS Hlen) as [q [-> Hq]]. destruct (HP Hlen) as [q' [-> Hq']].
    split; exact Hq || exact Hq'.
  - unfold Shuffled.analyzeCandles.
    destruct (Nat.ltb_spec (length candles) 40) as [| Hlen]; [reflexivity |].
    destruct (HS ltac:(lia)) as [q [Hq Hq0]].
    destruct (zero_is_no_direction q Hq0) as [Hgt Hlt].
    assert (Hrule : Shuffled.entryRule (Shuffled.indicators sqrtQ candles) = None).
    { unfold Shuffled.entryRule. rewrite Hq. cbn [toNumber].
      rewrite Hgt, Hlt. now rewrite !andb_false_r. }
    unfold Shuffled.decide. rewrite Hrule.
    now destruct (is_null _ || is_null _ || is_null _ || is_null _).
  - unfold Priority.analyzeCandles.
    destruct (Nat.ltb_spec (length candles) 40) as [| Hlen]; [reflexivity |].
    destruct (HP ltac:(lia)) as [q [Hq Hq0]].
    destruct (zero_is_no_direction q Hq0) as [Hgt Hlt].
    assert (Hrule : Priority.entryRule (Priority.indicators sqrtQ candles) = None).
    { unfold Priority.entryRule. rewrite Hq. cbn [toNumber].
      rewrite Hgt, Hlt. now rewrite !andb_false_r. }
    unfold Priority.decide. rewrite Hrule.
    now destruct (existsb is_missing _).
Qed.

Lemma flat_tail_gives_no_signal_witness :
  Shuffled.analyzeCandles sqrtFloor "BTC/USDT" shelf = None
  /\ Priority.analyzeCandles sqrtFloor "BTCUSDT" shelf = None.
Proof.
  assert (Hflat : forall k, k <= 4 ->
            at_num (map close shelf) (length shelf - 1 - k) = Fin 100).
  { intros k Hk.
    destruct k as [| [| [| [| [| k]]]]]; try reflexivity. lia. }
  split.
  - apply (flat_tail_gives_no_signal sqrtFloor "BTC/USDT" shelf (Fin 100) Hflat).
  - apply (flat_tail_gives_no_signal sqrtFloor "BTCUSDT" shelf (Fin 100) Hflat).
Defined.

(** ** The fetchers *)

Lemma shuffled_first_success (net : Shuffled.source -> attempt) (limit : Z)
  (sources : list Shuffled.source) (out : list candle) :
  Shuffled.fetch_from net limit sources = Returned out ->
  exists before s after cs,
    sources = before ++ s :: after
    /\ Forall (fun x => fails (net x) = true) before
    /\ net s = Mapped cs /\ 30 <= length cs
    /\ out = slice_last limit (chronological cs).
Proof.
  induction sources as [| x rest IH]; cbn [Shuffled.fetch_from]; intros H;
    [discriminate H |].
  assert (Hrest : fails (net x) = true ->
                  Shuffled.fetch_from net limit rest = Returned out ->
                  exists before s after cs,
                    x :: rest = before ++ s :: after
                    /\ Forall (fun x => fails (net x) = true) before
                    /\ net s = Mapped cs /\ 30 <= length cs
                    /\ out = slice_last limit (chronological cs)).
  { intros Hx Hr.
    destruct (IH Hr) as (before & s & after & cs & -> & Hb & Hs & Hl & Ho).
    exists (x :: before), s, after, cs.
    split; [reflexivity |]. split; [now constructor |]. now repeat split. }
  destruct (net x) as [| | cs] eqn:E.
  - apply Hrest; [reflexivity | exact H].
  - apply Hrest; [reflexivity | exact H].
  - destruct (30 <=? length cs) eqn:E30.
    + injection H as <-. apply Nat.leb_le in E30.
      exists [], x, rest, cs. split; [reflexivity |]. split; [constructor |].
      now repeat split.
    + apply Hrest; [| exact H]. cbn [fails].
      apply Nat.leb_gt in E30. now apply Nat.ltb_lt.
Qed.

Lemma priority_first_success (net : Priority.source -> attempt)
  (sources : list Priority.source) (out : list candle) :
  Priority.fetch_from net sources = Returned (Some out) ->
  exists before s after cs,
    sources = before ++ s :: after
    /\ Forall (fun x => fails (net x) = true) before
    /\ net s = Mapped cs /\ 30 <= length cs
    /\ out = chronological cs.
Proof.
  induction sources as [| x rest IH]; cbn [Priority.fetch_from]; intros H;
    [discriminate H |].
  assert (Hrest : fails (net x) = true ->
                  Priority.fetch_from net rest = Returned (Some out) ->
                  exists before s after cs,
                    x :: rest = before ++ s :: after
                    /\ Forall (fun x => fails (net x) = true) before
                    /\ net s = Mapped cs /\ 30 <= length cs
                    /\ out = chronological cs).
  { intros Hx Hr.
    destruct (IH Hr) as (before & s & after & cs & -> & Hb & Hs & Hl & Ho).
    exists (x :: before), s, after, cs.
    split; [reflexivity |]. split; [now constructor |]. now repeat split. }
  destruct (net x) as [| | cs] eqn:E.
  - apply Hrest; [reflexivity | exact H].
  - apply Hrest; [reflexivity | exact H].
  - destruct (30 <=? length cs) eqn:E30.
    + injection H as <-. apply Nat.leb_le in E30.
      exists [], x, rest, cs. split; [reflexivity |]. split; [constructor |].
      now repeat split.
    + apply Hrest; [| exact H]. cbn [fails].
      apply Nat.leb_gt in E30. now apply Nat.ltb_lt.
Qed.

(** X10.  The candles a fetcher returns come from the first source of its
    walk that does not fail: every source tried before it failed.  For
    [fetchCandlesMulti] the walk follows the priorities, so that every source
    of a smaller priority number than the answering one failed. *)
Theorem first_answer_wins (rnd : nat -> nat)
  (netS : Shuffled.source -> attempt) (netP : Priority.source -> attempt)
  (limit : Z) :
  (forall out, Shuffled.fetchCandlesFallback rnd netS limit = Returned out ->
     exists before s after cs,
       shuffle rnd Shuffled.DATA_SOURCES = before ++ s :: after
       /\ Forall (fun x => fails (netS x) = true) before
       /\ netS s = Mapped cs /\ 30 <= length cs
       /\ out = slice_last limit (chronological cs))
  /\ (forall out, Priority.fetchCandlesMulti netP = Returned (Some out) ->
        exists s cs,
          netP s = Mapped cs /\ 30 <= length cs
          /\ out = chronological cs
          /\ forall x, (Priority.priority x < Priority.priority s)%Z ->
                       fails (netP x) = true).
Proof.
  split; intros out H.
  - now apply shuffled_first_success.
  - destruct (priority_first_success _ _ _ H)
      as (before & s & after & cs & Hsplit & Hb & Hs & Hl & Ho).
    exists s, cs. split; [exact Hs |]. split; [exact Hl |]. split; [exact Ho |].
    change (Priority.sort_by_priority Priority.DATA_SOURCES)
      with [Priority.BinanceFapi; Priority.BinanceApi; Priority.Bybit] in Hsplit.
    intros x Hx. rewrite Forall_forall in Hb. apply Hb.
    destruct before as [| b1 [| b2 [| b3 before]]];
      injection Hsplit as <-; intros; subst;
      destruct x; cbn [Priority.priority] in Hx; try lia;
      simpl; tauto.
Qed.

Lemma first_answer_wins_witness :
  exists s cs,
    answering priority_eqb (fun _ => Throws) Priority.Bybit (Mapped slide) s
    = Mapped cs
    /\ 30 <= length cs
    /\ slide = chronological cs
    /\ forall x, (Priority.priority x < Priority.priority s)%Z ->
                 fails (answering priority_eqb (fun _ => Throws) Priority.Bybit
                          (Mapped slide) x) = true.
Proof.
  apply (proj2 (first_answer_wins (fun _ => 0) (fun _ => Throws)
                  (answering priority_eqb (fun _ => Throws) Priority.Bybit
                     (Mapped slide)) 120)).
  vm_compute. reflexivity.
Defined.

Lemma length_slice_last {A : Type} (limit : Z) (arr : list A) :
  (0 < limit)%Z ->
  length (slice_last limit arr) = Nat.min (Z.to_nat limit) (length arr).
Proof.
  intros H. unfold slice_last. cbv zeta.
  destruct (- limit <? 0)%Z eqn:E; [| apply Z.ltb_ge in E; lia].
  rewrite length_skipn. lia.
Qed.

Lemma slice_last_is_suffix {A : Type} (limit : Z) (arr : list A) :
  exists dropped, arr = dropped ++ slice_last limit arr.
Proof.
  unfold slice_last. cbv zeta.
  eexists. symmetry. apply firstn_skipn.
Qed.

Lemma length_chronological (cs : list candle) :
  length (chronological cs) = length cs.
Proof.
  unfold chronological. destruct cs as [| c0 tl]; [reflexivity |].
  destruct (stamp_gt (t c0) (t (last (c0 :: tl) c0)));
    [apply length_rev | reflexivity].
Qed.

(** X11.  A positive [limit] caps what [fetchCandlesFallback] returns at
    the [limit] most recent candles of the normalised payload, and with a
    limit under 40 [analyzePhysics] returns [null] whatever the exchanges
    answer. *)
Theorem limit_caps_the_series (sqrtQ : Q -> Q) (rnd : nat -> nat)
  (net : Shuffled.source -> attempt) (sym : string) (limit : Z)
  (Hlimit : (0 < limit)%Z) :
  (forall out, Shuffled.fetchCandlesFallback rnd net limit = Returned out ->
     exists s cs dropped,
       net s = Mapped cs
       /\ chronological cs = dropped ++ out
       /\ length out = Nat.min (Z.to_nat limit) (length cs))
  /\ ((limit < 40)%Z ->
      Shuffled.analyzePhysics sqrtQ rnd net sym limit = Returned None).
Proof.
  split.
  - intros out H.
    destruct (shuffled_fetch_origin _ _ _ _ H) as (s & cs & _ & Hs & _ & ->).
    destruct (slice_last_is_suffix limit (chronological cs)) as [dropped Hd].
    exists s, cs, dropped. split; [exact Hs |]. split; [exact Hd |].
    rewrite length_slice_last by exact Hlimit.
    now rewrite length_chronological.
  - intros H40. unfold Shuffled.analyzePhysics. cbv zeta.
    destruct (limit =? 0)%Z eqn:E0; [apply Z.eqb_eq in E0; lia |].
    destruct (Shuffled.fetchCandlesFallback rnd net limit) as [out | msg] eqn:E;
      [| reflexivity].
    destruct (shuffled_fetch_origin _ _ _ _ E) as (s & cs & _ & Hs & _ & ->).
    unfold Shuffled.analyzeCandles.
    rewrite length_slice_last by exact Hlimit.
    destruct (Nat.ltb_spec (Nat.min (Z.to_nat limit) (length (chronological cs))) 40);
      [reflexivity | lia].
Qed.

Lemma limit_caps_the_series_witness :
  Shuffled.analyzePhysics sqrtFloor (fun _ => 0) (fun _ => Mapped slide)
    "BTC/USDT" 39 = Returned None.
Proof.
  assert (H : (0 < 39)%Z) by lia.
  apply (proj2 (limit_caps_the_series sqrtFloor (fun _ => 0)
                  (fun _ => Mapped slide) "BTC/USDT" 39 H)).
  lia.
Defined.

Lemma rev_starts_with_last {A : Type} (l : list A) (d : A) :
  l <> [] -> rev l = last l d :: rev (removelast l).
Proof.
  intros H. rewrite (app_removelast_last d H) at 1.
  now rewrite rev_app_distr.
Qed.

Lemma last_of_rev {A : Type} (x : A) (l : list A) (d : A) :
  last (rev (x :: l)) d = x.
Proof. cbn [rev]. apply last_last. Qed.

(** X12.  The normalisation of the order loses and invents no candle,
    does nothing when applied a second time, and leaves a series on which
    its own test, [first > last] on the timestamps as received, is false. *)
Theorem chronological_reorders (cs : list candle) :
  Permutation (chronological cs) cs
  /\ chronological (chronological cs) = chronological cs
  /\ (forall first, nth_error (chronological cs) 0 = Some first ->
        stamp_gt (t first) (t (last (chronological cs) first)) = false).
Proof.
  destruct cs as [| c0 tl]; [split; [constructor | split; [reflexivity |]];
                             intros first H; discriminate H |].
  rewrite chronological_cons.
  destruct (stamp_gt (t c0) (t (last (c0 :: tl) c0))) eqn:E.
  - assert (Hne : c0 :: tl <> []) by discriminate.
    pose proof (rev_starts_with_last (c0 :: tl) c0 Hne) as Hrev.
    apply stamp_gt_asym in E.
    split; [apply Permutation_sym, Permutation_rev |].
    split.
    + unfold chronological.
      destruct (rev (c0 :: tl)) as [| x r] eqn:Er; [reflexivity |].
      assert (Hx : x = last (c0 :: tl) c0) by congruence.
      rewrite <- Er, last_of_rev, Hx. now rewrite E.
    + intros first Hf. rewrite Hrev in Hf. injection Hf as <-.
      rewrite last_of_rev. exact E.
  - split; [apply Permutation_refl |].
    split.
    + rewrite chronological_cons. now rewrite E.
    + intros first Hf. injection Hf as <-. exact E.
Qed.

Lemma chronological_reorders_witness :
  Permutation (chronological slideText) slideText
  /\ match nth_error (chronological slideText) 0 with
     | Some first =>
         stamp_gt (t first) (t (last (chronological slideText) first)) = false
     | None => False
     end.
Proof.
  destruct (chronological_reorders slideText) as [Hperm [_ Hfirst]].
  split; [exact Hperm |].
  destruct (nth_error (chronological slideText) 0) as [first |] eqn:E;
    [| vm_compute in E; discriminate E].
  now apply Hfirst.
Defined.

(** Once a series has been reversed, its mirror is left alone. *)
Lemma chronological_of_mirror (c0 : candle) (tl : list candle) :
  stamp_gt (t c0) (t (last (c0 :: tl) c0)) = true ->
  chronological (rev (c0 :: tl)) = rev (c0 :: tl).
Proof.
  intros E.
  assert (Hne : c0 :: tl <> []) by discriminate.
  pose proof (rev_starts_with_last (c0 :: tl) c0 Hne) as Hrev.
  apply stamp_gt_asym in E.
  unfold chronological.
  destruct (rev (c0 :: tl)) as [| x r] eqn:Er; [reflexivity |].
  assert (Hx : x = last (c0 :: tl) c0) by congruence.
  rewrite <- Er, last_of_rev, Hx. now rewrite E.
Qed.

(** X30.  A series that arrives newest first, with strictly descending
    instants, and whose first and last timestamps [>] compares by their
    instants (numbers, or strings whose order as text is their order as
    numbers) is normalised to its mirror, which is the series that
    normalising the mirror itself gives and is strictly ascending; and with
    the one or the other as the answer of a source, the fetcher and
    [analyzePhysics] end in the same result. *)
Theorem descending_payload_normalised_like_its_mirror (sqrtQ : Q -> Q)
  (rnd : nat -> nat)
  (netS : Shuffled.source -> attempt) (srcS : Shuffled.source)
  (netP : Priority.source -> attempt) (srcP : Priority.source)
  (limit : Z) (sym : string) (cs : list candle)
  (Hends : ends_compared_by_instant cs) (Hdesc : strictly_descending cs) :
  chronological cs = chronological (rev cs)
  /\ chronological cs = rev cs
  /\ strictly_ascending (chronological cs)
  /\ Shuffled.fetchCandlesFallback rnd
       (answering shuffled_eqb netS srcS (Mapped cs)) limit
     = Shuffled.fetchCandlesFallback rnd
         (answering shuffled_eqb netS srcS (Mapped (rev cs))) limit
  /\ Shuffled.analyzePhysics sqrtQ rnd
       (answering shuffled_eqb netS srcS (Mapped cs)) sym limit
     = Shuffled.analyzePhysics sqrtQ rnd
         (answering shuffled_eqb netS srcS (Mapped (rev cs))) sym limit
  /\ Priority.fetchCandlesMulti (answering priority_eqb netP srcP (Mapped cs))
     = Priority.fetchCandlesMulti
         (answering priority_eqb netP srcP (Mapped (rev cs)))
  /\ Priority.analyzePhysics sqrtQ
       (answering priority_eqb netP srcP (Mapped cs)) sym
     = Priority.analyzePhysics sqrtQ
         (answering priority_eqb netP srcP (Mapped (rev cs))) sym.
Proof.
  assert (Hasc : strictly_ascending (rev cs)).
  { apply strongly_sorted_rev in Hdesc. exact Hdesc. }
  assert (Hcs : chronological cs = rev cs)
    by now apply chronological_of_strictly_descending.
  assert (Hrev : chronological (rev cs) = rev cs).
  { destruct cs as [| c0 tl]; [reflexivity |].
    destruct tl as [| c1 tl].
    { cbn [rev app]. rewrite chronological_cons.
      now destruct (stamp_gt (t c0) (t (last [c0] c0))). }
    apply chronological_of_mirror.
    cbn [ends_compared_by_instant] in Hends. rewrite Hends.
    inversion Hdesc as [| ? ? _ Hall]; subst.
    rewrite Forall_forall in Hall. rewrite last_of_cons.
    apply Hall, last_in. }
  assert (Hsame : chronological cs = chronological (rev cs)) by congruence.
  split; [exact Hsame |]. split; [exact Hcs |].
  split; [now rewrite Hcs |].
  split; [now apply shuffled_fetch_mirror |].
  split.
  { unfold Shuffled.analyzePhysics, Shuffled.fetchCandlesFallback.
    now rewrite !(shuffled_fetch_mirror netS srcS cs) by exact Hsame. }
  split; [now apply priority_fetch_mirror |].
  unfold Priority.analyzePhysics, Priority.fetchCandlesMulti.
  now rewrite (priority_fetch_mirror netP srcP cs) by exact Hsame.
Qed.

Lemma descending_payload_normalised_like_its_mirror_witness :
  chronological (rev slideMillis) = rev (rev slideMillis)
  /\ Priority.analyzePhysics sqrtFloor
       (answering priority_eqb (fun _ => Throws) Priority.BinanceFapi
                  (Mapped (rev slideMillis))) "BTCUSDT"
     = Priority.analyzePhysics sqrtFloor
         (answering priority_eqb (fun _ => Throws) Priority.BinanceFapi
                    (Mapped (rev (rev slideMillis)))) "BTCUSDT".
Proof.
  assert (Hends : ends_compared_by_instant (rev slideMillis))
    by (vm_compute; reflexivity).
  assert (Hdesc : strictly_descending (rev slideMillis)).
  { apply (sortedb_sound _ (fun a b => jgt (instant a) (instant b)) _
             (fun a b H => H)).
    vm_compute. reflexivity. }
  pose proof (descending_payload_normalised_like_its_mirror
                sqrtFloor (fun _ => 0) (fun _ => Throws) Shuffled.OKX
                (fun _ => Throws) Priority.BinanceFapi 120 "BTCUSDT"
                (rev slideMillis) Hends Hdesc) as H.
  split; [apply H | apply H].
Defined.

(** X13.  Whatever the random draws, the shuffled list of
    [fetchCandlesFallback] holds each of the five sources exactly once. *)
Theorem shuffle_keeps_every_source (rnd : nat -> nat)
  (Hrnd : forall i, rnd i <= i) :
  Permutation (shuffle rnd Shuffled.DATA_SOURCES) Shuffled.DATA_SOURCES
  /\ length (shuffle rnd Shuffled.DATA_SOURCES) = 5
  /\ NoDup (shuffle rnd Shuffled.DATA_SOURCES)
  /\ forall s, In s (shuffle rnd Shuffled.DATA_SOURCES).
Proof.
  pose proof (shuffle_permutes rnd Shuffled.DATA_SOURCES) as Hp.
  split; [exact Hp |].
  split; [now rewrite (Permutation_length Hp) |].
  split.
  - apply (Permutation_NoDup (Permutation_sym Hp)).
    unfold Shuffled.DATA_SOURCES.
    repeat (constructor; [simpl; intuition discriminate |]). constructor.
  - intros s. apply (Permutation_in s (Permutation_sym Hp)).
    destruct s; simpl; tauto.
Qed.

Lemma shuffle_keeps_every_source_witness :
  NoDup (shuffle (fun _ => 0) Shuffled.DATA_SOURCES)
  /\ forall s, In s (shuffle (fun _ => 0) Shuffled.DATA_SOURCES).
Proof.
  assert (H : forall i, (fun _ : nat => 0) i <= i) by (intros i; lia).
  destruct (shuffle_keeps_every_source (fun _ => 0) H) as [_ [_ [Hn Hin]]].
  split; [exact Hn | exact Hin].
Defined.

Lemma substring_zero_zero (s : string) : substring 0 0 s = ""%string.
Proof. now destruct s. Qed.

Lemma slash_after_prefix (p rest : string) :
  substring (String.length p) 1 (p ++ "/" ++ rest)%string = "/"%string.
Proof.
  induction p as [| c p IH]; simpl.
  - now rewrite substring_zero_zero.
  - exact IH.
Qed.

(** X14.  The symbol clean-up of [analyzePhysics] is idempotent: a symbol
    that has been through it comes out unchanged. *)
Theorem cleanSymbol_idempotent (symbol : string) :
  cleanSymbol (cleanSymbol symbol) = cleanSymbol symbol.
Proof.
  assert (Hslash : forall s k, index 0 "/" s = Some k -> cleanSymbol s = s).
  { intros s k H. unfold cleanSymbol. now rewrite H. }
  destruct (index 0 "/" symbol) as [k |] eqn:Eslash.
  - now rewrite (Hslash symbol k Eslash), (Hslash symbol k Eslash).
  - destruct (index 0 "USDT" symbol) as [k |] eqn:Eusdt.
    + set (p := substring 0 k symbol).
      set (q := substring (k + 4) (String.length symbol - (k + 4)) symbol).
      assert (Hc : cleanSymbol symbol = (p ++ "/USDT" ++ q)%string).
      { unfold cleanSymbol. now rewrite Eslash, Eusdt. }
      rewrite Hc.
      destruct (index 0 "/" (p ++ "/USDT" ++ q)%string) as [j |] eqn:E;
        [now apply (Hslash _ j) |].
      exfalso.
      apply (index_correct3 0 (String.length p) "/" (p ++ "/USDT" ++ q)%string E);
        [discriminate | lia |].
      apply (slash_after_prefix p ("USDT" ++ q)%string).
    + assert (Hc : cleanSymbol symbol = symbol).
      { unfold cleanSymbol. now rewrite Eslash, Eusdt. }
      now rewrite !Hc.
Qed.

Lemma no_loss_jeqb (st : jsnum * jsnum) :
  no_loss st -> jeqb (snd st) (Fin 0) = true.
Proof.
  unfold no_loss. destruct (snd st) as [l | | |]; try contradiction.
  intros H. simpl. now apply Qeq_bool_iff.
Qed.

Lemma jge_rising (d : jsnum) : rising d -> jge d (Fin 0) = true.
Proof.
  destruct d as [q | | |]; simpl; try contradiction.
  intros H. now apply Qle_bool_iff.
Qed.

Lemma jlt_rising (d : jsnum) : rising d -> jlt d (Fin 0) = false.
Proof.
  destruct d as [q | | |]; simpl; try contradiction.
  intros H. apply negb_false_iff. now apply Qle_bool_iff.
Qed.

Lemma jabs_rising_zero (d : jsnum) :
  rising d -> jgt d (Fin 0) = false -> exists q, jabs d = Fin q /\ (q == 0)%Q.
Proof.
  destruct d as [q | | |]; simpl; try contradiction.
  intros H Hgt. apply negb_false_iff, Qle_bool_iff in Hgt.
  exists (Qabs q). split; [reflexivity |].
  rewrite Qabs_pos by exact H. lra.
Qed.

Lemma wilder_no_loss (period : nat) (l : Q) :
  1 <= period -> (l == 0)%Q ->
  exists l', wilder period (Fin l) (Fin 0) = Fin l' /\ (l' == 0)%Q.
Proof.
  intros Hp Hl. unfold wilder, ofZ, ofNat. cbn [jmul jadd jdiv].
  rewrite (is_zero_ofNat period Hp).
  eexists. split; [reflexivity |].
  rewrite Hl. unfold Qdiv. ring.
Qed.

Lemma seed_no_loss (period : nat) (l : Q) :
  1 <= period -> (l == 0)%Q ->
  exists l', jdiv (Fin l) (ofNat period) = Fin l' /\ (l' == 0)%Q.
Proof.
  intros Hp Hl. unfold ofNat. cbn [jdiv].
  rewrite (is_zero_ofNat period Hp).
  eexists. split; [reflexivity |].
  rewrite Hl. unfold Qdiv. ring.
Qed.

Lemma rising_at (ds : list jsnum) (i : nat) :
  Forall rising ds -> i < length ds -> rising (at_num ds i).
Proof.
  intros H Hi. rewrite Forall_forall in H. apply H.
  unfold at_num. now apply nth_In.
Qed.

(** ** The RSI of a series that never falls *)

Lemma run_invariant_on {S D : Type} (P : S -> Prop) (R : D -> Prop)
  (step : S -> D -> S) (ds : list D) :
  Forall R ds ->
  (forall s d, R d -> P s -> P (step s d)) ->
  forall st, P st -> Forall P (run step st ds).
Proof.
  intros Hds Hstep. induction Hds as [| d ds Hd Hds IH]; intros st Hst; simpl.
  - constructor.
  - constructor; [now apply Hstep |]. apply IH. now apply Hstep.
Qed.

Lemma seed_fold_no_loss (ds : list jsnum) (test : jsnum -> bool) (idx : list nat) :
  (forall i, In i idx -> rising (at_num ds i)) ->
  (forall d, rising d -> test d = false ->
             exists q, jabs d = Fin q /\ (q == 0)%Q) ->
  forall acc,
    no_loss acc ->
    no_loss (fold_left
               (fun '(gains, losses) i =>
                  let d := at_num ds i in
                  if test d then (jadd gains d, losses)
                  else (gains, jadd losses (jabs d))) idx acc).
Proof.
  intros Hidx Htest.
  induction idx as [| i idx IH]; intros [g l] Hacc; simpl; [exact Hacc |].
  apply IH; [intros j Hj; apply Hidx; now right |].
  destruct (test (at_num ds i)) eqn:E; [exact Hacc |].
  destruct (Htest _ (Hidx i (or_introl eq_refl)) E) as [q [-> Hq]].
  unfold no_loss in *. cbn [snd] in *.
  destruct l as [l | | |]; try contradiction.
  cbn [jadd]. lra.
Qed.

Lemma smooth_no_loss (period : nat) (g l d : jsnum) :
  1 <= period -> rising d -> no_loss (g, l) ->
  no_loss (wilder period g (if jgt d (Fin 0) then d else Fin 0),
           wilder period l (if jlt d (Fin 0) then jabs d else Fin 0)).
Proof.
  intros Hp Hd Hst. unfold no_loss in *. cbn [snd] in *.
  destruct l as [l | | |]; try contradiction.
  rewrite (jlt_rising d Hd).
  destruct (wilder_no_loss period l Hp Hst) as [l' [-> Hl']]. exact Hl'.
Qed.

Lemma seeded_no_loss (period : nat) (st : jsnum * jsnum) :
  1 <= period -> no_loss st ->
  no_loss (jdiv (fst st) (ofNat period), jdiv (snd st) (ofNat period)).
Proof.
  intros Hp Hst. unfold no_loss in *. cbn [snd].
  destruct (snd st) as [l | | |]; try contradiction.
  destruct (seed_no_loss period l Hp Hst) as [l' [-> Hl']]. exact Hl'.
Qed.

Lemma shuffled_no_loss (ds : list jsnum) (period : nat) :
  1 <= period -> period <= length ds -> Forall rising ds ->
  Forall no_loss
    (Shuffled.seedAverages ds period
       :: run (Shuffled.smoothAverages period)
              (Shuffled.seedAverages ds period) (skipn period ds)).
Proof.
  intros Hp Hlen Hds.
  assert (Hseed : no_loss (Shuffled.seedAverages ds period)).
  { unfold Shuffled.seedAverages.
    pose proof (seed_fold_no_loss ds (fun d => jge d (Fin 0)) (seq 0 period)) as H.
    specialize (H ltac:(intros i Hi; apply in_seq in Hi;
                        apply rising_at; [exact Hds | lia])).
    specialize (H ltac:(intros d Hd E; cbv beta in E;
                        rewrite (jge_rising d Hd) in E; discriminate E)).
    specialize (H (Fin 0, Fin 0) ltac:(unfold no_loss; cbn [snd]; lra)).
    destruct (fold_left _ (seq 0 period) (Fin 0, Fin 0)) as [g l].
    exact (seeded_no_loss period (g, l) Hp H). }
  constructor; [exact Hseed |].
  apply (run_invariant_on no_loss rising);
    [now apply forall_skipn | | exact Hseed].
  intros [g l] d Hd Hst. unfold Shuffled.smoothAverages.
  now apply smooth_no_loss.
Qed.

Lemma priority_no_loss (ds : list jsnum) (period : nat) :
  1 <= period -> period <= length ds -> Forall rising ds ->
  Forall no_loss
    (Priority.seedAverages ds period
       :: run (Priority.smoothAverages period)
              (Priority.seedAverages ds period) (skipn period ds)).
Proof.
  intros Hp Hlen Hds.
  assert (Hseed : no_loss (Priority.seedAverages ds period)).
  { unfold Priority.seedAverages.
    pose proof (seed_fold_no_loss ds (fun d => jgt d (Fin 0)) (seq 0 period)) as H.
    specialize (H ltac:(intros i Hi; apply in_seq in Hi;
                        apply rising_at; [exact Hds | lia])).
    specialize (H ltac:(intros d Hd E; cbv beta in E;
                        now apply jabs_rising_zero)).
    specialize (H (Fin 0, Fin 0) ltac:(unfold no_loss; cbn [snd]; lra)).
    destruct (fold_left _ (seq 0 period) (Fin 0, Fin 0)) as [g l].
    exact (seeded_no_loss period (g, l) Hp H). }
  constructor; [exact Hseed |].
  apply (run_invariant_on no_loss rising);
    [now apply forall_skipn | | exact Hseed].
  intros [g l] d Hd Hst. unfold Priority.smoothAverages.
  now apply smooth_no_loss.
Qed.

Lemma rising_deltas (p : nat -> Q) (n : nat) :
  (forall k, (p k <= p (S k))%Q) ->
  Forall rising
    (for_from 1 n (fun i =>
       jsub (at_num (map (fun k => Fin (p k)) (seq 0 n)) i)
            (at_num (map (fun k => Fin (p k)) (seq 0 n)) (i - 1)))).
Proof.
  intros Hp. unfold for_from. apply Forall_forall. intros d Hd.
  apply in_map_iff in Hd. destruct Hd as [i [<- Hi]]. apply in_seq in Hi.
  assert (Hat : forall j, j < n ->
                  at_num (map (fun k => Fin (p k)) (seq 0 n)) j = Fin (p j)).
  { intros j Hj. unfold at_num.
    rewrite (nth_indep _ NaN (Fin (p 0))) by (rewrite length_map, length_seq; lia).
    rewrite (map_nth (fun k => Fin (p k)) (seq 0 n) 0 j).
    now rewrite seq_nth by lia. }
  rewrite !Hat by lia. cbn [jsub jopp jadd rising].
  replace i with (S (i - 1)) at 1 by lia.
  specialize (Hp (i - 1)). lra.
Qed.

(** X15.  On finite prices that never fall, [rsiFromArray] returns 100 at
    every index from [period] on, and [computeRSI] returns 10000/101 (about
    99.01) there. *)
Theorem rsi_of_a_series_that_never_falls (p : nat -> Q) (n period i : nat)
  (Hperiod : 1 <= period) (Hlow : period <= i) (Hhigh : i < n)
  (Hrise : forall k, (p k <= p (S k))%Q) :
  let prices := map (fun k => Fin (p k)) (seq 0 n) in
  at_val (Priority.rsiFromArray prices period) i = VNum (Fin 100)
  /\ veq (at_val (Shuffled.computeRSI prices period) i)
         (VNum (Fin (10000 # 101))).
Proof.
  intros prices.
  assert (Hn : length prices = n) by (unfold prices; now rewrite length_map, length_seq).
  pose proof (rising_deltas p n Hrise) as Hds. fold prices in Hds.
  split.
  - unfold Priority.rsiFromArray.
    assert (Hlen : length (Priority.changes prices) = n - 1).
    { unfold Priority.changes. rewrite length_for_from. lia. }
    destruct (Nat.ltb_spec (length (Priority.changes prices)) period) as [Hlt | Hge];
      [lia |].
    replace i with (period + (i - period)) by lia.
    rewrite at_val_after_prefix.
    destruct (nth_error (Priority.rsiAverages prices period) (i - period))
      as [st |] eqn:E.
    + rewrite (at_val_map _ _ _ st E).
      assert (Hst : no_loss st).
      { pose proof (priority_no_loss (Priority.changes prices) period Hperiod
                      ltac:(lia)) as H.
        unfold Priority.changes at 1 in H. rewrite Hn in H.
        specialize (H Hds). rewrite Forall_forall in H. apply H.
        eapply nth_error_In. exact E. }
      destruct st as [g l]. unfold Priority.rsiValue.
      pose proof (no_loss_jeqb (g, l) Hst) as Hz. cbn [snd] in Hz.
      now rewrite Hz.
    + apply nth_error_None in E.
      pose proof (length_priority_rsiAverages prices period ltac:(lia)). lia.
  - unfold Shuffled.computeRSI.
    destruct (Nat.ltb_spec (length prices) (period + 1)) as [Hlt | Hge]; [lia |].
    replace i with (period + (i - period)) by lia.
    rewrite at_val_after_prefix.
    destruct (nth_error (Shuffled.rsiAverages prices period) (i - period))
      as [st |] eqn:E.
    + rewrite (at_val_map _ _ _ st E).
      assert (Hst : no_loss st).
      { pose proof (shuffled_no_loss (Shuffled.deltas prices) period Hperiod) as H.
        unfold Shuffled.deltas at 1 2 in H. rewrite length_for_from, Hn in H.
        specialize (H ltac:(lia) Hds). rewrite Forall_forall in H. apply H.
        eapply nth_error_In. exact E. }
      destruct st as [g l]. unfold Shuffled.rsiValue.
      pose proof (no_loss_jeqb (g, l) Hst) as Hz. cbn [snd] in Hz.
      rewrite Hz. simpl. reflexivity.
    + apply nth_error_None in E.
      pose proof (length_shuffled_rsiAverages prices period ltac:(lia)). lia.
Qed.

Lemma rsi_of_a_series_that_never_falls_witness :
  at_val (Priority.rsiFromArray
            (map (fun k => Fin (inject_Z (Z.of_nat k))) (seq 0 15)) 14) 14
  = VNum (Fin 100)
  /\ veq (at_val (Shuffled.computeRSI
                    (map (fun k => Fin (inject_Z (Z.of_nat k))) (seq 0 15)) 14) 14)
         (VNum (Fin (10000 # 101))).
Proof.
  apply (rsi_of_a_series_that_never_falls
           (fun k => inject_Z (Z.of_nat k)) 15 14 14); try lia.
  intros k. rewrite <- Zle_Qle. lia.
Defined.

(* ================================================================== *)
(** * Properties of the bots *)

(** ** The polling bot *)

Lemma find_app_none {A : Type} (f : A -> bool) (l l' : list A) :
  find f l = None -> find f (l ++ l') = find f l'.
Proof.
  induction l as [| x l IH]; simpl; [reflexivity |].
  destruct (f x); [discriminate | exact IH].
Qed.

Lemma filter_all {A : Type} (f : A -> bool) (l : list A) :
  (forall x, In x l -> f x = true) -> filter f l = l.
Proof.
  induction l as [| x l IH]; intros H; simpl; [reflexivity |].
  rewrite (H x (or_introl eq_refl)). f_equal. apply IH.
  intros y Hy. apply H. now right.
Qed.

Lemma filter_twice {A : Type} (f : A -> bool) (l : list A) :
  filter f (filter f l) = filter f l.
Proof.
  apply filter_all. intros x Hx. apply filter_In in Hx. exact (proj2 Hx).
Qed.

Lemma side_eqb_eq (a b : Side) : side_eqb a b = true <-> a = b.
Proof. destruct a, b; simpl; split; intros H; congruence. Qed.

Lemma bot_find_user (id : Z) (users : list Bot.user) :
  match find (fun u => Bot.chatId u =? id)%Z users with
  | Some u => In u users /\ Bot.chatId u = id
  | None => ~ In id (map Bot.chatId users)
  end.
Proof.
  destruct (find _ users) as [u |] eqn:E.
  - apply find_some in E. destruct E as [Hin Heq].
    split; [exact Hin | now apply Z.eqb_eq].
  - intros Hin. apply in_map_iff in Hin. destruct Hin as [u [Hu Hin]].
    pose proof (find_none _ _ E u Hin) as H. cbv beta in H.
    apply Z.eqb_neq in H. congruence.
Qed.

Lemma bot_readUsers_written (arr : list Bot.user) (d : Bot.disk) :
  Bot.writable d = true -> Bot.readUsers (Bot.writeUsers arr d) = arr.
Proof. intros H. unfold Bot.writeUsers. now rewrite H. Qed.

Lemma bot_writable_writeUsers (arr : list Bot.user) (d : Bot.disk) :
  Bot.writable (Bot.writeUsers arr d) = Bot.writable d.
Proof. unfold Bot.writeUsers. now destruct (Bot.writable d) eqn:E. Qed.

(** X16.  On a writable disk [addUser] of the polling bot returns [true]
    exactly when the chat was not subscribed; afterwards the chat is
    subscribed, nobody else is lost, chat ids stay unique when they were,
    and a second [addUser] of the same chat returns [false] and changes
    nothing. *)
Theorem addUser_subscribes_once (now now' id : Z) (info info' : string)
  (d : Bot.disk) (Hw : Bot.writable d = true) :
  let added := fst (Bot.addUser now id info d) in
  let d1 := snd (Bot.addUser now id info d) in
  (added = true <-> ~ In id (map Bot.chatId (Bot.readUsers d)))
  /\ In id (map Bot.chatId (Bot.readUsers d1))
  /\ (forall u, In u (Bot.readUsers d) -> In u (Bot.readUsers d1))
  /\ (NoDup (map Bot.chatId (Bot.readUsers d)) ->
      NoDup (map Bot.chatId (Bot.readUsers d1)))
  /\ Bot.addUser now' id info' d1 = (false, d1).
Proof.
  cbv zeta.
  pose proof (bot_find_user id (Bot.readUsers d)) as Hfind.
  assert (Hadd : Bot.addUser now id info d
                 = match find (fun u => Bot.chatId u =? id)%Z (Bot.readUsers d) with
                   | Some _ => (false, d)
                   | None =>
                       (true, Bot.writeUsers
                                (Bot.readUsers d ++ [Bot.mkUser id info now]) d)
                   end) by reflexivity.
  destruct (find (fun u => Bot.chatId u =? id)%Z (Bot.readUsers d))
    as [u |] eqn:E; rewrite Hadd; clear Hadd; cbn [fst snd].
  - destruct Hfind as [Hin Hid].
    assert (Hmem : In id (map Bot.chatId (Bot.readUsers d))).
    { apply in_map_iff. now exists u. }
    split; [split; [discriminate | intros H; contradiction] |].
    split; [exact Hmem |].
    split; [now intros |].
    split; [now intros |].
    unfold Bot.addUser. cbv zeta. now rewrite E.
  - rewrite bot_readUsers_written by exact Hw.
    split; [split; [now intros | reflexivity] |].
    split; [rewrite map_app; apply in_or_app; right; now left |].
    split; [intros u Hu; apply in_or_app; now left |].
    split.
    + intros Hnd. rewrite map_app. apply NoDup_app; [exact Hnd | |].
      * cbn [map Bot.chatId]. constructor; [intros [] | constructor].
      * intros a Ha [<- | []]. now apply Hfind.
    + unfold Bot.addUser. cbv zeta.
      rewrite bot_readUsers_written by exact Hw.
      rewrite (find_app_none _ _ _ E). cbn [find Bot.chatId].
      now rewrite Z.eqb_refl.
Qed.

Lemma addUser_subscribes_once_witness :
  fst (Bot.addUser 1000 42 "ann" blankDisk) = true
  /\ Bot.addUser 2000 42 "ann" (snd (Bot.addUser 1000 42 "ann" blankDisk))
     = (false, snd (Bot.addUser 1000 42 "ann" blankDisk)).
Proof.
  assert (Hw : Bot.writable blankDisk = true) by reflexivity.
  destruct (addUser_subscribes_once 1000 2000 42 "ann" "ann" blankDisk Hw)
    as [Hadded [_ [_ [_ Hagain]]]].
  split; [| exact Hagain].
  apply Hadded. simpl. tauto.
Defined.

(** X17.  On a writable disk [removeUser] of the polling bot leaves no
    entry of that chat and keeps every other subscriber; a second call
    changes nothing; and removing a chat that [addUser] has just added gives
    back the list of subscribers from before. *)
Theorem removeUser_unsubscribes (id : Z) (d : Bot.disk)
  (Hw : Bot.writable d = true) :
  let d1 := Bot.removeUser id d in
  ~ In id (map Bot.chatId (Bot.readUsers d1))
  /\ (forall u, Bot.chatId u <> id ->
        (In u (Bot.readUsers d1) <-> In u (Bot.readUsers d)))
  /\ Bot.readUsers (Bot.removeUser id d1) = Bot.readUsers d1
  /\ (forall now info,
        ~ In id (map Bot.chatId (Bot.readUsers d)) ->
        Bot.readUsers (Bot.removeUser id (snd (Bot.addUser now id info d)))
        = Bot.readUsers d).
Proof.
  cbv zeta.
  assert (Hrm : forall d', Bot.writable d' = true ->
                  Bot.readUsers (Bot.removeUser id d')
                  = filter (fun u => negb (Bot.chatId u =? id)%Z)
                           (Bot.readUsers d')).
  { intros d' Hw'. unfold Bot.removeUser. now apply bot_readUsers_written. }
  rewrite (Hrm d Hw).
  split; [| split; [| split]].
  - intros Hin. apply in_map_iff in Hin. destruct Hin as [u [Hu Hin]].
    apply filter_In in Hin. destruct Hin as [_ Hne].
    apply negb_true_iff, Z.eqb_neq in Hne. contradiction.
  - intros u Hne. rewrite filter_In. split; [tauto |].
    intros Hin. split; [exact Hin |].
    now apply negb_true_iff, Z.eqb_neq.
  - rewrite Hrm.
    + rewrite (Hrm d Hw). apply filter_twice.
    + unfold Bot.removeUser. now rewrite bot_writable_writeUsers.
  - intros now info Hnew.
    pose proof (bot_find_user id (Bot.readUsers d)) as Hfind.
    unfold Bot.addUser. cbv zeta.
    destruct (find (fun u => Bot.chatId u =? id)%Z (Bot.readUsers d))
      as [u |] eqn:E; cbn [snd].
    + destruct Hfind as [Hin Hid]. exfalso. apply Hnew.
      apply in_map_iff. now exists u.
    + rewrite Hrm by (now rewrite bot_writable_writeUsers).
      rewrite bot_readUsers_written by exact Hw.
      rewrite filter_app. cbn [filter Bot.chatId].
      rewrite Z.eqb_refl. cbn [negb]. rewrite app_nil_r.
      apply filter_all. intros x Hx.
      apply negb_true_iff, Z.eqb_neq. intros Heq. apply Hnew.
      apply in_map_iff. now exists x.
Qed.

Lemma removeUser_unsubscribes_witness :
  ~ In 42%Z (map Bot.chatId (Bot.readUsers (Bot.removeUser 42 oneSubscriber)))
  /\ Bot.readUsers
       (Bot.removeUser 42 (snd (Bot.addUser 1000 42 "ann" oneSubscriber)))
     = Bot.readUsers oneSubscriber.
Proof.
  assert (Hw : Bot.writable oneSubscriber = true) by reflexivity.
  destruct (removeUser_unsubscribes 42 oneSubscriber Hw)
    as [Hgone [_ [_ Hround]]].
  split; [exact Hgone |].
  apply Hround. simpl. intros [H | []]. discriminate H.
Defined.

Lemma bot_readSignals_written (arr : list Bot.sent) (d : Bot.disk) :
  Bot.writable d = true -> Bot.readSignals (Bot.writeSignals arr d) = arr.
Proof. intros H. unfold Bot.writeSignals. now rewrite H. Qed.

Lemma bot_match_iff (now w : Z) (sym : string) (sd : Side) (r : Bot.sent) :
  String.eqb (Bot.symbol r) sym && side_eqb (Bot.side r) sd
    && (now - Bot.ts r <=? w * 1000)%Z = true
  <-> Bot.symbol r = sym /\ Bot.side r = sd /\ (now - Bot.ts r <= w * 1000)%Z.
Proof.
  rewrite !andb_true_iff, String.eqb_eq, side_eqb_eq, Z.leb_le. tauto.
Qed.

Lemma bot_duplicate_iff (now w : Z) (sym : string) (sd : Side) (d : Bot.disk) :
  fst (Bot.isDuplicateRecent now sym sd w d) = true
  <-> exists r, In r (Bot.readSignals d)
                /\ Bot.symbol r = sym /\ Bot.side r = sd
                /\ (now - Bot.ts r <= w * 1000)%Z.
Proof.
  unfold Bot.isDuplicateRecent. cbv zeta.
  destruct (find _ (Bot.readSignals d)) as [r |] eqn:E; cbn [fst].
  - apply find_some in E. destruct E as [Hin Hm].
    apply bot_match_iff in Hm. split; [| reflexivity].
    intros _. now exists r.
  - split; [discriminate |].
    intros [r [Hin Hm]]. apply bot_match_iff in Hm.
    pose proof (find_none _ _ E r Hin) as H. cbv beta in H. congruence.
Qed.

(** X18.  [isDuplicateRecent] answers [true] exactly when the file holds an
    entry of that symbol and side at most [windowSeconds] old; on a writable
    disk it leaves in the file the entries less than 24 hours old; and a
    signal that [recordSignal] has just written is a duplicate for the whole
    window. *)
Theorem recorded_signal_is_duplicate (now t0 w : Z) (sym : string) (sd : Side)
  (d : Bot.disk) :
  (fst (Bot.isDuplicateRecent now sym sd w d) = true
   <-> exists r, In r (Bot.readSignals d)
                 /\ Bot.symbol r = sym /\ Bot.side r = sd
                 /\ (now - Bot.ts r <= w * 1000)%Z)
  /\ (Bot.writable d = true ->
      forall r, In r (Bot.readSignals (snd (Bot.isDuplicateRecent now sym sd w d)))
                <-> In r (Bot.readSignals d)
                    /\ (now - Bot.ts r < 24 * 3600 * 1000)%Z)
  /\ (Bot.writable d = true -> (now - t0 <= w * 1000)%Z ->
      fst (Bot.isDuplicateRecent now sym sd w (Bot.recordSignal t0 sym sd d))
      = true).
Proof.
  split; [apply bot_duplicate_iff |]. split.
  - intros Hw r.
    assert (E : Bot.readSignals (snd (Bot.isDuplicateRecent now sym sd w d))
                = filter (fun s => now - Bot.ts s <? 24 * 3600 * 1000)%Z
                         (Bot.readSignals d)).
    { unfold Bot.isDuplicateRecent. cbv zeta.
      destruct (find _ (Bot.readSignals d)); cbn [snd];
        now apply bot_readSignals_written. }
    rewrite E, filter_In, Z.ltb_lt. tauto.
  - intros Hw Hnow. apply bot_duplicate_iff.
    exists (Bot.mkSent sym sd t0).
    unfold Bot.recordSignal. rewrite bot_readSignals_written by exact Hw.
    split; [apply in_or_app; right; now left |].
    now repeat split.
Qed.

Lemma recorded_signal_is_duplicate_witness :
  fst (Bot.isDuplicateRecent 3600000 "BTC/USDT" LONG 3600
         (Bot.recordSignal 0 "BTC/USDT" LONG blankDisk)) = true.
Proof.
  apply (recorded_signal_is_duplicate 3600000 0 3600 "BTC/USDT" LONG blankDisk).
  - reflexivity.
  - lia.
Defined.

Lemma attempts_sent (send : nat -> delivery) (left : nat) :
  forall a,
    Bot.attemptsLoop send a left = Bot.Sent
    <-> exists k, a <= k < a + left /\ send k = Delivered
                  /\ forall j, a <= j < k -> retried (send j).
Proof.
  induction left as [| left IH]; intros a; cbn [Bot.attemptsLoop].
  - split; [discriminate | intros [k [Hk _]]; lia].
  - destruct (send a) as [| c] eqn:E.
    + split; [| reflexivity]. intros _. exists a.
      split; [lia |]. split; [exact E |]. intros j Hj. lia.
    + destruct (Bot.gone c) eqn:G.
      * split; [discriminate |]. intros [k [Hk [Hd Hr]]].
        destruct (Nat.eq_dec k a) as [-> | Hne]; [congruence |].
        destruct (Hr a ltac:(lia)) as [c' [Hc' Hg]]. congruence.
      * rewrite IH. split.
        -- intros [k [Hk [Hd Hr]]]. exists k. split; [lia |].
           split; [exact Hd |]. intros j Hj.
           destruct (Nat.eq_dec j a) as [-> | Hne]; [now exists c |].
           apply Hr. lia.
        -- intros [k [Hk [Hd Hr]]].
           destruct (Nat.eq_dec k a) as [-> | Hne]; [congruence |].
           exists k. split; [lia |]. split; [exact Hd |].
           intros j Hj. apply Hr. lia.
Qed.

Lemma attempts_removed (send : nat -> delivery) (left : nat) :
  forall a,
    Bot.attemptsLoop send a left = Bot.Removed
    <-> exists k statusCode,
          a <= k < a + left /\ send k = Rejected statusCode
          /\ Bot.gone statusCode = true
          /\ forall j, a <= j < k -> retried (send j).
Proof.
  induction left as [| left IH]; intros a; cbn [Bot.attemptsLoop].
  - split; [discriminate | intros [k [c [Hk _]]]; lia].
  - destruct (send a) as [| c] eqn:E.
    + split; [discriminate |]. intros [k [c [Hk [Hs [Hg Hr]]]]].
      destruct (Nat.eq_dec k a) as [-> | Hne]; [congruence |].
      destruct (Hr a ltac:(lia)) as [c' [Hc' _]]. congruence.
    + destruct (Bot.gone c) eqn:G.
      * split; [| reflexivity]. intros _. exists a, c.
        split; [lia |]. split; [exact E |]. split; [exact G |].
        intros j Hj. lia.
      * rewrite IH. split.
        -- intros [k [c' [Hk [Hs [Hg Hr]]]]]. exists k, c'. split; [lia |].
           split; [exact Hs |]. split; [exact Hg |]. intros j Hj.
           destruct (Nat.eq_dec j a) as [-> | Hne]; [now exists c |].
           apply Hr. lia.
        -- intros [k [c' [Hk [Hs [Hg Hr]]]]].
           destruct (Nat.eq_dec k a) as [-> | Hne]; [congruence |].
           exists k, c'. split; [lia |]. split; [exact Hs |].
           split; [exact Hg |]. intros j Hj. apply Hr. lia.
Qed.

Lemma attempts_gave_up (send : nat -> delivery) (left : nat) :
  forall a,
    Bot.attemptsLoop send a left = Bot.GaveUp
    <-> forall j, a <= j < a + left -> retried (send j).
Proof.
  induction left as [| left IH]; intros a; cbn [Bot.attemptsLoop].
  - split; [intros _ j Hj; lia | reflexivity].
  - destruct (send a) as [| c] eqn:E.
    + split; [discriminate |]. intros H.
      destruct (H a ltac:(lia)) as [c [Hc _]]. congruence.
    + destruct (Bot.gone c) eqn:G.
      * split; [discriminate |]. intros H.
        destruct (H a ltac:(lia)) as [c' [Hc' Hg]]. congruence.
      * rewrite IH. split.
        -- intros H j Hj.
           destruct (Nat.eq_dec j a) as [-> | Hne]; [now exists c |].
           apply H. lia.
        -- intros H j Hj. apply H. lia.
Qed.

(** X19.  The retry loop of [broadcastMessage] in the polling bot looks at
    no more than three calls of [sendMessage]: it counts a success at the
    first call that resolves, removes the subscriber at the first rejection
    with status 403 or 400, and gives up exactly when three calls in a row
    are rejected with another error. *)
Theorem retry_policy (send : nat -> delivery) :
  (Bot.attemptsLoop send 0 3 = Bot.Sent
   <-> exists k, k < 3 /\ send k = Delivered
                 /\ forall j, j < k -> retried (send j))
  /\ (Bot.attemptsLoop send 0 3 = Bot.Removed
      <-> exists k statusCode,
            k < 3 /\ send k = Rejected statusCode
            /\ (statusCode = Some 403%Z \/ statusCode = Some 400%Z)
            /\ forall j, j < k -> retried (send j))
  /\ (Bot.attemptsLoop send 0 3 = Bot.GaveUp
      <-> forall j, j < 3 -> retried (send j)).
Proof.
  assert (Hgone : forall c, Bot.gone c = true
                            <-> c = Some 403%Z \/ c = Some 400%Z).
  { intros [code |]; simpl.
    - rewrite orb_true_iff, !Z.eqb_eq. split; intros [H | H];
        try (injection H as H); subst; auto.
    - split; [discriminate | intros [H | H]; discriminate H]. }
  split; [| split].
  - rewrite attempts_sent. split; intros [k [Hk [Hd Hr]]]; exists k;
      (split; [lia |]); (split; [exact Hd |]); intros j Hj; apply Hr; lia.
  - rewrite attempts_removed.
    split; intros [k [c [Hk [Hs [Hg Hr]]]]]; exists k, c;
      (split; [lia |]); (split; [exact Hs |]);
      (split; [now apply Hgone |]); intros j Hj; apply Hr; lia.
  - rewrite attempts_gave_up. split; intros H j Hj; apply H; lia.
Qed.

Lemma bot_removeUser_read (id : Z) (d : Bot.disk) :
  Bot.writable d = true ->
  Bot.readUsers (Bot.removeUser id d)
  = filter (fun u => negb (Bot.chatId u =? id)%Z) (Bot.readUsers d).
Proof. intros H. unfold Bot.removeUser. now apply bot_readUsers_written. Qed.

Lemma bot_removeUser_keeps (id : Z) (d : Bot.disk) :
  Bot.writable (Bot.removeUser id d) = Bot.writable d
  /\ Bot.signalsFile (Bot.removeUser id d) = Bot.signalsFile d.
Proof.
  unfold Bot.removeUser, Bot.writeUsers.
  destruct (Bot.writable d) eqn:E; cbn; auto.
Qed.

Lemma bot_broadcast_from (send : nat -> nat -> delivery) (users : list Bot.user) :
  forall pos acc d,
    let res := fst (Bot.broadcast_from send pos users acc d) in
    let d1 := snd (Bot.broadcast_from send pos users acc d) in
    success res + fail res = success acc + fail acc + length users
    /\ success res
       = success acc
         + length (filter (fun k => is_sent (Bot.attemptsLoop (send k) 0 3))
                          (seq pos (length users)))
    /\ Bot.writable d1 = Bot.writable d
    /\ Bot.signalsFile d1 = Bot.signalsFile d
    /\ (Bot.writable d = true ->
        forall u,
          In u (Bot.readUsers d1)
          <-> In u (Bot.readUsers d)
              /\ ~ exists k u',
                     nth_error users k = Some u'
                     /\ Bot.chatId u' = Bot.chatId u
                     /\ Bot.attemptsLoop (send (pos + k)) 0 3 = Bot.Removed).
Proof.
  induction users as [| x rest IH]; intros pos acc d; cbv zeta.
  - cbn [Bot.broadcast_from fst snd length seq filter].
    split; [lia |]. split; [lia |]. split; [reflexivity |].
    split; [reflexivity |]. intros _ u. split; [| tauto].
    intros H. split; [exact H |]. intros [k [u' [Hk _]]].
    destruct k; discriminate Hk.
  - cbn [Bot.broadcast_from length seq filter].
    assert (Hnth : forall (P : nat -> Bot.user -> Prop),
              (exists k u', nth_error (x :: rest) k = Some u' /\ P k u')
              <-> P 0 x \/ exists k u', nth_error rest k = Some u' /\ P (S k) u').
    { intros P. split.
      - intros [[| k] [u' [Hk HP]]].
        + injection Hk as <-. now left.
        + right. now exists k, u'.
      - intros [HP | [k [u' [Hk HP]]]].
        + now exists 0, x.
        + now exists (S k), u'. }
    destruct (Bot.attemptsLoop (send pos) 0 3) eqn:V; cbn [is_sent].
    + specialize (IH (S pos) {| success := S (success acc); fail := fail acc |} d).
      cbv zeta in IH. cbn [success fail] in IH.
      destruct IH as [H1 [H2 [H3 [H4 H5]]]].
      split; [lia |]. split; [cbn [length]; lia |]. split; [exact H3 |].
      split; [exact H4 |]. intros Hw u. rewrite (H5 Hw u).
      rewrite (Hnth (fun k u' => Bot.chatId u' = Bot.chatId u
                                 /\ Bot.attemptsLoop (send (pos + k)) 0 3
                                    = Bot.Removed)).
      rewrite Nat.add_0_r, V.
      split; intros [Hin Hno]; (split; [exact Hin |]).
      * intros [[_ Hc] | [k [u' [Hk [Hid Hv]]]]]; [discriminate Hc |].
        apply Hno. exists k, u'. now rewrite Nat.add_succ_comm.
      * intros [k [u' [Hk [Hid Hv]]]]. apply Hno. right.
        exists k, u'. now rewrite <- Nat.add_succ_comm.
    + specialize (IH (S pos) {| success := success acc; fail := S (fail acc) |}
                    (Bot.removeUser (Bot.chatId x) d)).
      cbv zeta in IH. cbn [success fail] in IH.
      destruct (bot_removeUser_keeps (Bot.chatId x) d) as [Kw Ks].
      destruct IH as [H1 [H2 [H3 [H4 H5]]]].
      split; [lia |]. split; [exact H2 |]. split; [congruence |].
      split; [congruence |]. intros Hw u.
      rewrite (H5 ltac:(congruence) u).
      rewrite (bot_removeUser_read _ _ Hw), filter_In, negb_true_iff, Z.eqb_neq.
      rewrite (Hnth (fun k u' => Bot.chatId u' = Bot.chatId u
                                 /\ Bot.attemptsLoop (send (pos + k)) 0 3
                                    = Bot.Removed)).
      rewrite Nat.add_0_r, V.
      split.
      * intros [[Hin Hne] Hno]. split; [exact Hin |].
        intros [[Hc _] | [k [u' [Hk [Hid Hv]]]]]; [congruence |].
        apply Hno. exists k, u'. now rewrite Nat.add_succ_comm.
      * intros [Hin Hno]. split; [split; [exact Hin |] |].
        -- intros Heq. apply Hno. left. split; [congruence | reflexivity].
        -- intros [k [u' [Hk [Hid Hv]]]]. apply Hno. right.
           exists k, u'. now rewrite <- Nat.add_succ_comm.
    + specialize (IH (S pos) {| success := success acc; fail := S (fail acc) |} d).
      cbv zeta in IH. cbn [success fail] in IH.
      destruct IH as [H1 [H2 [H3 [H4 H5]]]].
      split; [lia |]. split; [exact H2 |]. split; [exact H3 |].
      split; [exact H4 |]. intros Hw u. rewrite (H5 Hw u).
      rewrite (Hnth (fun k u' => Bot.chatId u' = Bot.chatId u
                                 /\ Bot.attemptsLoop (send (pos + k)) 0 3
                                    = Bot.Removed)).
      rewrite Nat.add_0_r, V.
      split; intros [Hin Hno]; (split; [exact Hin |]).
      * intros [[_ Hc] | [k [u' [Hk [Hid Hv]]]]]; [discriminate Hc |].
        apply Hno. exists k, u'. now rewrite Nat.add_succ_comm.
      * intros [k [u' [Hk [Hid Hv]]]]. apply Hno. right.
        exists k, u'. now rewrite <- Nat.add_succ_comm.
Qed.

(** X20.  [broadcastMessage] of the polling bot counts every subscriber
    once, as a success or as a failure, the successes being those the retry
    loop delivered to; it leaves [signals_sent.json] alone, and on a writable
    disk the subscribers left are those whose chat was not removed by the
    retry loop. *)
Theorem broadcast_counts_every_subscriber (send : nat -> nat -> delivery)
  (d : Bot.disk) :
  let res := fst (Bot.broadcastMessage send d) in
  let d1 := snd (Bot.broadcastMessage send d) in
  let users := Bot.readUsers d in
  success res + fail res = length users
  /\ success res
     = length (filter (fun k => is_sent (Bot.attemptsLoop (send k) 0 3))
                      (seq 0 (length users)))
  /\ Bot.signalsFile d1 = Bot.signalsFile d
  /\ (Bot.writable d = true ->
      forall u,
        In u (Bot.readUsers d1)
        <-> In u users
            /\ ~ exists k u',
                   nth_error users k = Some u'
                   /\ Bot.chatId u' = Bot.chatId u
                   /\ Bot.attemptsLoop (send k) 0 3 = Bot.Removed).
Proof.
  cbv zeta. unfold Bot.broadcastMessage.
  destruct (bot_broadcast_from send (Bot.readUsers d) 0
              {| success := 0; fail := 0 |} d) as [H1 [H2 [_ [H4 H5]]]].
  cbn [success fail] in H1, H2.
  split; [exact H1 |]. split; [exact H2 |]. split; [exact H4 |].
  exact H5.
Qed.

Lemma bot_announced_iff (sym : string) (sd : Side)
  (es : list (string * Bot.event)) :
  bot_announced sym sd es = true
  <-> exists sig res, In (sym, Bot.Broadcast sig res) es
                      /\ Shuffled.side sig = sd.
Proof.
  unfold bot_announced. rewrite existsb_exists. split.
  - intros [[s e] [Hin H]]. apply andb_true_iff in H. destruct H as [Hs He].
    apply String.eqb_eq in Hs. subst s.
    destruct e as [| sd' | sig res]; try discriminate He.
    apply side_eqb_eq in He. now exists sig, res.
  - intros [sig [res [Hin Hsd]]]. exists (sym, Bot.Broadcast sig res).
    split; [exact Hin |]. rewrite String.eqb_refl. cbn [andb].
    now apply side_eqb_eq.
Qed.

Lemma bot_writeSignals_keeps (arr : list Bot.sent) (d : Bot.disk) :
  Bot.writable (Bot.writeSignals arr d) = Bot.writable d
  /\ Bot.usersFile (Bot.writeSignals arr d) = Bot.usersFile d.
Proof.
  unfold Bot.writeSignals. destruct (Bot.writable d) eqn:E; cbn; auto.
Qed.

Lemma bot_isDuplicate_disk (now w : Z) (sym : string) (sd : Side) (d : Bot.disk) :
  snd (Bot.isDuplicateRecent now sym sd w d)
  = Bot.writeSignals
      (filter (fun s => now - Bot.ts s <? 24 * 3600 * 1000)%Z (Bot.readSignals d))
      d.
Proof.
  unfold Bot.isDuplicateRecent. cbv zeta.
  now destruct (find _ (Bot.readSignals d)).
Qed.

Lemma bot_purge_keeps (now : Z) (r : Bot.sent) (d : Bot.disk) :
  In r (Bot.readSignals d) -> (now - Bot.ts r < 24 * 3600 * 1000)%Z ->
  In r (Bot.readSignals
          (Bot.writeSignals
             (filter (fun s => now - Bot.ts s <? 24 * 3600 * 1000)%Z
                     (Bot.readSignals d)) d)).
Proof.
  intros Hin Hnow. unfold Bot.writeSignals.
  destruct (Bot.writable d); [| exact Hin].
  unfold Bot.readSignals at 1. cbn [Bot.signalsFile readJson].
  apply filter_In. split; [exact Hin | now apply Z.ltb_lt].
Qed.

Lemma bot_record_keeps (now : Z) (sym : string) (sd : Side) (r : Bot.sent)
  (d : Bot.disk) :
  In r (Bot.readSignals d) ->
  In r (Bot.readSignals (Bot.recordSignal now sym sd d)).
Proof.
  intros Hin. unfold Bot.recordSignal, Bot.writeSignals.
  destruct (Bot.writable d); [| exact Hin].
  unfold Bot.readSignals at 1. cbn [Bot.signalsFile readJson].
  apply in_or_app. now left.
Qed.

Lemma bot_scanSymbol_unfold (sqrtQ : Q -> Q) (w : Bot.turn) (sym : string)
  (d : Bot.disk) :
  Bot.scanSymbol sqrtQ w sym d
  = match Shuffled.analyzePhysics sqrtQ (Bot.rnd w) (Bot.net w) sym 120 with
    | Returned (Some sig) =>
        let check :=
          Bot.isDuplicateRecent (Bot.checkedAt w) sym (Shuffled.side sig) 3600 d in
        if fst check then (Bot.Skipped (Shuffled.side sig), snd check)
        else
          let sent :=
            Bot.broadcastMessage (Bot.send w)
              (Bot.recordSignal (Bot.recordedAt w) sym (Shuffled.side sig)
                                (snd check)) in
          (Bot.Broadcast sig (fst sent), snd sent)
    | _ => (Bot.NoSignal, d)
    end.
Proof.
  unfold Bot.scanSymbol.
  destruct (Shuffled.analyzePhysics sqrtQ (Bot.rnd w) (Bot.net w) sym 120)
    as [[sig |] | msg]; try reflexivity.
  destruct (Bot.isDuplicateRecent _ _ _ _ _) as [dup d1]. cbn [fst snd].
  destruct dup; [reflexivity |]. cbv zeta.
  now destruct (Bot.broadcastMessage _ _).
Qed.

Lemma bot_broadcast_keeps (send : nat -> nat -> delivery) (d : Bot.disk) :
  Bot.writable (snd (Bot.broadcastMessage send d)) = Bot.writable d
  /\ Bot.signalsFile (snd (Bot.broadcastMessage send d)) = Bot.signalsFile d.
Proof.
  unfold Bot.broadcastMessage.
  destruct (bot_broadcast_from send (Bot.readUsers d) 0
              {| success := 0; fail := 0 |} d) as [_ [_ [H3 [H4 _]]]].
  now split.
Qed.

Lemma bot_turn_keeps_record (sqrtQ : Q -> Q) (w : Bot.turn) (sym : string)
  (r : Bot.sent) (d : Bot.disk) :
  In r (Bot.readSignals d) ->
  (Bot.checkedAt w - Bot.ts r < 24 * 3600 * 1000)%Z ->
  In r (Bot.readSignals (snd (Bot.scanSymbol sqrtQ w sym d))).
Proof.
  intros Hin Hnow. rewrite bot_scanSymbol_unfold.
  destruct (Shuffled.analyzePhysics sqrtQ (Bot.rnd w) (Bot.net w) sym 120)
    as [[sig |] | msg]; try exact Hin.
  cbv zeta. rewrite bot_isDuplicate_disk.
  pose proof (bot_purge_keeps _ _ _ Hin Hnow) as Hp.
  destruct (fst (Bot.isDuplicateRecent _ _ _ _ _)); cbn [snd]; [exact Hp |].
  unfold Bot.readSignals.
  rewrite (proj2 (bot_broadcast_keeps _ _)).
  now apply bot_record_keeps.
Qed.

Lemma bot_turn_writable (sqrtQ : Q -> Q) (w : Bot.turn) (sym : string)
  (d : Bot.disk) :
  Bot.writable (snd (Bot.scanSymbol sqrtQ w sym d)) = Bot.writable d.
Proof.
  rewrite bot_scanSymbol_unfold.
  destruct (Shuffled.analyzePhysics sqrtQ (Bot.rnd w) (Bot.net w) sym 120)
    as [[sig |] | msg]; try reflexivity.
  cbv zeta. rewrite bot_isDuplicate_disk.
  destruct (fst (Bot.isDuplicateRecent _ _ _ _ _)); cbn [snd].
  - apply bot_writeSignals_keeps.
  - rewrite (proj1 (bot_broadcast_keeps _ _)).
    unfold Bot.recordSignal.
    rewrite (proj1 (bot_writeSignals_keeps _ _)).
    apply bot_writeSignals_keeps.
Qed.

Lemma bot_turn_records (sqrtQ : Q -> Q) (w : Bot.turn) (sym : string)
  (d : Bot.disk) (sig : Shuffled.signal) (res : tally) :
  Bot.writable d = true ->
  fst (Bot.scanSymbol sqrtQ w sym d) = Bot.Broadcast sig res ->
  In (Bot.mkSent sym (Shuffled.side sig) (Bot.recordedAt w))
     (Bot.readSignals (snd (Bot.scanSymbol sqrtQ w sym d))).
Proof.
  intros Hw. rewrite bot_scanSymbol_unfold.
  destruct (Shuffled.analyzePhysics sqrtQ (Bot.rnd w) (Bot.net w) sym 120)
    as [[sig' |] | msg]; try (cbn [fst]; discriminate).
  cbv zeta. rewrite bot_isDuplicate_disk.
  destruct (fst (Bot.isDuplicateRecent _ _ _ _ _)); cbn [fst snd];
    [discriminate |].
  intros H. injection H as -> _.
  unfold Bot.readSignals.
  rewrite (proj2 (bot_broadcast_keeps _ _)).
  change (readJson (Bot.signalsFile ?x)) with (Bot.readSignals x).
  unfold Bot.recordSignal.
  rewrite bot_readSignals_written
    by (now rewrite (proj1 (bot_writeSignals_keeps _ _))).
  apply in_or_app. right. now left.
Qed.

Lemma bot_turn_skips (sqrtQ : Q -> Q) (w : Bot.turn) (sym : string)
  (d : Bot.disk) (r : Bot.sent) (sig : Shuffled.signal) (res : tally) :
  In r (Bot.readSignals d) -> Bot.symbol r = sym ->
  fst (Bot.scanSymbol sqrtQ w sym d) = Bot.Broadcast sig res ->
  Shuffled.side sig = Bot.side r ->
  (3600 * 1000 < Bot.checkedAt w - Bot.ts r)%Z.
Proof.
  intros Hin Hsym. rewrite bot_scanSymbol_unfold.
  destruct (Shuffled.analyzePhysics sqrtQ (Bot.rnd w) (Bot.net w) sym 120)
    as [[sig' |] | msg]; try (cbn [fst]; discriminate).
  cbv zeta.
  destruct (fst (Bot.isDuplicateRecent _ _ _ _ _)) eqn:E; cbn [fst];
    [discriminate |].
  intros H Hside. injection H as -> _.
  destruct (Z.lt_ge_cases (3600 * 1000) (Bot.checkedAt w - Bot.ts r))
    as [Hlt | Hge]; [exact Hlt |].
  exfalso.
  assert (Hdup : fst (Bot.isDuplicateRecent (Bot.checkedAt w) sym
                        (Shuffled.side sig) 3600 d) = true).
  { apply bot_duplicate_iff. exists r. now repeat split. }
  congruence.
Qed.

Lemma bot_scan_cons (sqrtQ : Q -> Q) (world : string -> Bot.turn) (s : string)
  (rest : list string) (d : Bot.disk) :
  let step := Bot.scanSymbol sqrtQ (world s) s d in
  let tail := Bot.scan_from sqrtQ world rest (snd step) in
  Bot.scan_from sqrtQ world (s :: rest) d
  = ((s, fst step) :: fst tail, snd tail).
Proof.
  cbv zeta. cbn [Bot.scan_from].
  destruct (Bot.scanSymbol sqrtQ (world s) s d) as [e d1]. cbn [fst snd].
  now destruct (Bot.scan_from sqrtQ world rest d1).
Qed.

Lemma bot_scan_keeps_record (sqrtQ : Q -> Q) (world : string -> Bot.turn)
  (r : Bot.sent) (symbols : list string) :
  (forall s, (Bot.checkedAt (world s) - Bot.ts r < 24 * 3600 * 1000)%Z) ->
  forall d, In r (Bot.readSignals d) ->
            In r (Bot.readSignals (snd (Bot.scan_from sqrtQ world symbols d))).
Proof.
  intros Hnow. induction symbols as [| s rest IH]; intros d Hin; [exact Hin |].
  rewrite bot_scan_cons. cbv zeta. cbn [snd].
  apply IH. now apply bot_turn_keeps_record.
Qed.

Lemma bot_scan_records (sqrtQ : Q -> Q) (world : string -> Bot.turn)
  (sym : string) (sig : Shuffled.signal) (res : tally) (symbols : list string) :
  (forall s, (Bot.checkedAt (world s) - Bot.recordedAt (world sym)
              < 24 * 3600 * 1000)%Z) ->
  forall d, Bot.writable d = true ->
            In (sym, Bot.Broadcast sig res)
               (fst (Bot.scan_from sqrtQ world symbols d)) ->
            In (Bot.mkSent sym (Shuffled.side sig) (Bot.recordedAt (world sym)))
               (Bot.readSignals (snd (Bot.scan_from sqrtQ world symbols d))).
Proof.
  intros Hnow. induction symbols as [| s rest IH]; intros d Hw Hin;
    [contradiction |].
  rewrite bot_scan_cons in Hin |- *. cbv zeta in Hin |- *. cbn [fst snd] in Hin |- *.
  destruct Hin as [Heq | Hin].
  - injection Heq as -> He.
    apply bot_scan_keeps_record; [exact Hnow |].
    now apply bot_turn_records with (res := res).
  - apply IH; [now rewrite bot_turn_writable | exact Hin].
Qed.

Lemma bot_scan_skips (sqrtQ : Q -> Q) (world : string -> Bot.turn)
  (sym : string) (sig : Shuffled.signal) (res : tally) (r : Bot.sent)
  (symbols : list string) :
  Bot.symbol r = sym -> Shuffled.side sig = Bot.side r ->
  (forall s, (Bot.checkedAt (world s) - Bot.ts r < 24 * 3600 * 1000)%Z) ->
  forall d, In r (Bot.readSignals d) ->
            In (sym, Bot.Broadcast sig res)
               (fst (Bot.scan_from sqrtQ world symbols d)) ->
            (3600 * 1000 < Bot.checkedAt (world sym) - Bot.ts r)%Z.
Proof.
  intros Hsym Hside Hnow.
  induction symbols as [| s rest IH]; intros d Hr Hin; [contradiction |].
  rewrite bot_scan_cons in Hin. cbv zeta in Hin. cbn [fst] in Hin.
  destruct Hin as [Heq | Hin].
  - injection Heq as -> He.
    now apply (bot_turn_skips sqrtQ (world sym) sym d r sig res).
  - apply (IH (snd (Bot.scanSymbol sqrtQ (world s) s d))); [| exact Hin].
    now apply bot_turn_keeps_record.
Qed.

(** X21.  Two passes of [scanAllSymbols] in a row on a writable disk: a
    symbol broadcast with the same side in both was checked, the second
    time, more than an hour after the first pass recorded it, as long as
    every check of the two passes falls less than 24 hours after that
    record. *)
Theorem no_repeat_within_the_hour (sqrtQ : Q -> Q)
  (world1 world2 : string -> Bot.turn) (d : Bot.disk) (sym : string)
  (sd : Side)
  (Hw : Bot.writable d = true)
  (Hday1 : forall s, (Bot.checkedAt (world1 s) - Bot.recordedAt (world1 sym)
                      < 24 * 3600 * 1000)%Z)
  (Hday2 : forall s, (Bot.checkedAt (world2 s) - Bot.recordedAt (world1 sym)
                      < 24 * 3600 * 1000)%Z) :
  let pass1 := Bot.scanAllSymbols sqrtQ world1 false d in
  let pass2 :=
    Bot.scanAllSymbols sqrtQ world2 (snd (fst pass1)) (snd pass1) in
  bot_announced sym sd (fst (fst pass1)) = true ->
  bot_announced sym sd (fst (fst pass2)) = true ->
  (3600 * 1000
   < Bot.checkedAt (world2 sym) - Bot.recordedAt (world1 sym))%Z.
Proof.
  cbv zeta.
  assert (Hpass : forall world d0,
            Bot.scanAllSymbols sqrtQ world false d0
            = (fst (Bot.scan_from sqrtQ world Bot.SYMBOLS d0), false,
               snd (Bot.scan_from sqrtQ world Bot.SYMBOLS d0))).
  { intros world d0. unfold Bot.scanAllSymbols.
    now destruct (Bot.scan_from sqrtQ world Bot.SYMBOLS d0). }
  rewrite (Hpass world1 d). cbn [fst snd]. rewrite Hpass. cbn [fst snd].
  intros H1 H2.
  apply bot_announced_iff in H1. destruct H1 as [sig1 [res1 [Hin1 Hsd1]]].
  apply bot_announced_iff in H2. destruct H2 as [sig2 [res2 [Hin2 Hsd2]]].
  pose proof (bot_scan_records sqrtQ world1 sym sig1 res1 Bot.SYMBOLS Hday1
                d Hw Hin1) as Hrec.
  exact (bot_scan_skips sqrtQ world2 sym sig2 res2
           (Bot.mkSent sym (Shuffled.side sig1) (Bot.recordedAt (world1 sym)))
           Bot.SYMBOLS eq_refl (eq_trans Hsd2 (eq_sym Hsd1)) Hday2 _ Hrec Hin2).
Qed.

Lemma no_repeat_within_the_hour_witness :
  bot_announced "BTC/USDT" LONG
    (fst (fst (Bot.scanAllSymbols sqrtFloor (bitcoinSlides 0) false blankDisk)))
  = true
  /\ (3600 * 1000
      < Bot.checkedAt (bitcoinSlides 3600001 "BTC/USDT")
        - Bot.recordedAt (bitcoinSlides 0 "BTC/USDT"))%Z.
Proof.
  assert (Hw : Bot.writable blankDisk = true) by reflexivity.
  assert (Hday1 : forall s,
             (Bot.checkedAt (bitcoinSlides 0 s)
              - Bot.recordedAt (bitcoinSlides 0 "BTC/USDT")
              < 24 * 3600 * 1000)%Z)
    by (intros s; cbn [Bot.checkedAt Bot.recordedAt bitcoinSlides]; lia).
  assert (Hday2 : forall s,
             (Bot.checkedAt (bitcoinSlides 3600001 s)
              - Bot.recordedAt (bitcoinSlides 0 "BTC/USDT")
              < 24 * 3600 * 1000)%Z)
    by (intros s; cbn [Bot.checkedAt Bot.recordedAt bitcoinSlides]; lia).
  pose proof (no_repeat_within_the_hour sqrtFloor (bitcoinSlides 0)
                (bitcoinSlides 3600001) blankDisk "BTC/USDT" LONG
                Hw Hday1 Hday2) as H.
  cbv zeta in H.
  assert (H1 : bot_announced "BTC/USDT" LONG
                 (fst (fst (Bot.scanAllSymbols sqrtFloor (bitcoinSlides 0)
                              false blankDisk))) = true)
    by (vm_compute; reflexivity).
  split; [exact H1 |].
  apply H; [exact H1 |]. vm_compute. reflexivity.
Defined.

(** ** The webhook bot *)

Lemma webhook_find_user (id : Z) (users : list WebhookBot.user) :
  match find (fun u => WebhookBot.chatId u =? id)%Z users with
  | Some u => In u users /\ WebhookBot.chatId u = id
  | None => ~ In id (map WebhookBot.chatId users)
  end.
Proof.
  destruct (find _ users) as [u |] eqn:E.
  - apply find_some in E. destruct E as [Hin Heq].
    split; [exact Hin | now apply Z.eqb_eq].
  - intros Hin. apply in_map_iff in Hin. destruct Hin as [u [Hu Hin]].
    pose proof (find_none _ _ E u Hin) as H. cbv beta in H.
    apply Z.eqb_neq in H. congruence.
Qed.

Lemma webhook_loadUsers_saved (arr : list WebhookBot.user) (d : WebhookBot.disk) :
  WebhookBot.writable d = true ->
  WebhookBot.loadUsers (WebhookBot.saveUsers arr d) = arr.
Proof. intros H. unfold WebhookBot.saveUsers. now rewrite H. Qed.

Lemma webhook_saveUsers_keeps (arr : list WebhookBot.user) (d : WebhookBot.disk) :
  WebhookBot.writable (WebhookBot.saveUsers arr d) = WebhookBot.writable d
  /\ WebhookBot.recentSignalsFile (WebhookBot.saveUsers arr d)
     = WebhookBot.recentSignalsFile d.
Proof.
  unfold WebhookBot.saveUsers. destruct (WebhookBot.writable d) eqn:E; cbn; auto.
Qed.

Lemma webhook_removeUser_load (id : Z) (d : WebhookBot.disk) :
  WebhookBot.writable d = true ->
  WebhookBot.loadUsers (WebhookBot.removeUser id d)
  = filter (fun u => negb (WebhookBot.chatId u =? id)%Z) (WebhookBot.loadUsers d).
Proof.
  intros H. unfold WebhookBot.removeUser. now apply webhook_loadUsers_saved.
Qed.

(** X22.  On a writable disk of the webhook bot: after [addUser] the chat
    is subscribed, chat ids stay unique when they were, and a second
    [addUser] changes nothing; after [removeUser] the chat is not
    subscribed, and for a chat that was not subscribed before the two
    calls give back the list of subscribers from before. *)
Theorem start_then_stop (now now' id : Z) (info info' : string)
  (d : WebhookBot.disk) (Hw : WebhookBot.writable d = true) :
  let d1 := WebhookBot.addUser now id info d in
  In id (map WebhookBot.chatId (WebhookBot.loadUsers d1))
  /\ (NoDup (map WebhookBot.chatId (WebhookBot.loadUsers d)) ->
      NoDup (map WebhookBot.chatId (WebhookBot.loadUsers d1)))
  /\ WebhookBot.addUser now' id info' d1 = d1
  /\ ~ In id (map WebhookBot.chatId
                (WebhookBot.loadUsers (WebhookBot.removeUser id d1)))
  /\ (~ In id (map WebhookBot.chatId (WebhookBot.loadUsers d)) ->
      WebhookBot.loadUsers (WebhookBot.removeUser id d1)
      = WebhookBot.loadUsers d).
Proof.
  cbv zeta.
  pose proof (webhook_find_user id (WebhookBot.loadUsers d)) as Hfind.
  assert (Hadd : WebhookBot.addUser now id info d
                 = match find (fun u => WebhookBot.chatId u =? id)%Z
                               (WebhookBot.loadUsers d) with
                   | None =>
                       WebhookBot.saveUsers
                         (WebhookBot.loadUsers d
                            ++ [WebhookBot.mkUser id info now]) d
                   | Some _ => d
                   end) by reflexivity.
  assert (Hgone : forall d', WebhookBot.writable d' = true ->
                    ~ In id (map WebhookBot.chatId
                               (WebhookBot.loadUsers (WebhookBot.removeUser id d')))).
  { intros d' Hw' Hin. rewrite (webhook_removeUser_load _ _ Hw') in Hin.
    apply in_map_iff in Hin. destruct Hin as [u [Hu Hin]].
    apply filter_In in Hin. destruct Hin as [_ Hne].
    apply negb_true_iff, Z.eqb_neq in Hne. contradiction. }
  destruct (find (fun u => WebhookBot.chatId u =? id)%Z (WebhookBot.loadUsers d))
    as [u |] eqn:E; rewrite Hadd; clear Hadd.
  - destruct Hfind as [Hin Hid].
    assert (Hmem : In id (map WebhookBot.chatId (WebhookBot.loadUsers d))).
    { apply in_map_iff. now exists u. }
    split; [exact Hmem |]. split; [now intros |].
    split; [unfold WebhookBot.addUser; cbv zeta; now rewrite E |].
    split; [now apply Hgone |].
    intros Hnew. contradiction.
  - assert (Hw1 : WebhookBot.writable
                    (WebhookBot.saveUsers
                       (WebhookBot.loadUsers d ++ [WebhookBot.mkUser id info now]) d)
                  = true)
      by (now rewrite (proj1 (webhook_saveUsers_keeps _ _))).
    split.
    { rewrite webhook_loadUsers_saved by exact Hw.
      rewrite map_app. apply in_or_app. right. now left. }
    split.
    { intros Hnd. rewrite webhook_loadUsers_saved by exact Hw.
      rewrite map_app. apply NoDup_app; [exact Hnd | |].
      - cbn [map WebhookBot.chatId]. constructor; [intros [] | constructor].
      - intros a Ha [<- | []]. now apply Hfind. }
    split.
    { unfold WebhookBot.addUser. cbv zeta.
      rewrite webhook_loadUsers_saved by exact Hw.
      rewrite (find_app_none _ _ _ E). cbn [find WebhookBot.chatId].
      now rewrite Z.eqb_refl. }
    split; [now apply Hgone |].
    intros Hnew. rewrite webhook_removeUser_load by exact Hw1.
    rewrite webhook_loadUsers_saved by exact Hw.
    rewrite filter_app. cbn [filter WebhookBot.chatId].
    rewrite Z.eqb_refl. cbn [negb]. rewrite app_nil_r.
    apply filter_all. intros x Hx.
    apply negb_true_iff, Z.eqb_neq. intros Heq. apply Hnew.
    apply in_map_iff. now exists x.
Qed.

Lemma start_then_stop_witness :
  In 42%Z (map WebhookBot.chatId
             (WebhookBot.loadUsers
                (WebhookBot.addUser 1000 42 "ann" blankWebhookDisk)))
  /\ WebhookBot.loadUsers
       (WebhookBot.removeUser 42
          (WebhookBot.addUser 1000 42 "ann" blankWebhookDisk))
     = WebhookBot.loadUsers blankWebhookDisk.
Proof.
  assert (Hw : WebhookBot.writable blankWebhookDisk = true) by reflexivity.
  destruct (start_then_stop 1000 2000 42 "ann" "ann" blankWebhookDisk Hw)
    as [Hin [_ [_ [_ Hround]]]].
  split; [exact Hin |].
  apply Hround. simpl. tauto.
Defined.

Lemma webhook_load_saved (arr : list WebhookBot.sent) (d : WebhookBot.disk) :
  WebhookBot.writable d = true ->
  WebhookBot.loadRecentSignals (WebhookBot.saveRecentSignals arr d) = arr.
Proof. intros H. unfold WebhookBot.saveRecentSignals. now rewrite H. Qed.

Lemma webhook_save_keeps (arr : list WebhookBot.sent) (d : WebhookBot.disk) :
  WebhookBot.writable (WebhookBot.saveRecentSignals arr d) = WebhookBot.writable d
  /\ WebhookBot.usersFile (WebhookBot.saveRecentSignals arr d)
     = WebhookBot.usersFile d.
Proof.
  unfold WebhookBot.saveRecentSignals.
  destruct (WebhookBot.writable d) eqn:E; cbn; auto.
Qed.

Lemma webhook_duplicate_iff (now : Z) (sym : string) (sd : Side)
  (d : WebhookBot.disk) :
  fst (WebhookBot.isDuplicateSignal now sym sd d) = true
  <-> exists r, In r (WebhookBot.loadRecentSignals d)
                /\ WebhookBot.symbol r = sym /\ WebhookBot.side r = sd
                /\ (now - WebhookBot.ts r <= WebhookBot.DEDUP_WINDOW_MS)%Z.
Proof.
  unfold WebhookBot.isDuplicateSignal. cbv zeta.
  destruct (find _ (filter _ (WebhookBot.loadRecentSignals d)))
    as [r |] eqn:E; cbn [fst].
  - apply find_some in E. destruct E as [Hin Hm].
    apply filter_In in Hin. destruct Hin as [Hin Hw].
    apply andb_true_iff in Hm. destruct Hm as [Hs Hd].
    apply String.eqb_eq in Hs. apply side_eqb_eq in Hd. apply Z.leb_le in Hw.
    split; [| reflexivity]. intros _. now exists r.
  - split; [discriminate |].
    intros [r [Hin [Hs [Hd Hw]]]].
    assert (Hf : In r (filter (fun r => now - WebhookBot.ts r
                                         <=? WebhookBot.DEDUP_WINDOW_MS)%Z
                              (WebhookBot.loadRecentSignals d))).
    { apply filter_In. split; [exact Hin | now apply Z.leb_le]. }
    pose proof (find_none _ _ E r Hf) as H. cbv beta in H.
    rewrite Hs, Hd, String.eqb_refl in H.
    rewrite (proj2 (side_eqb_eq sd sd) eq_refl) in H. discriminate H.
Qed.

Lemma webhook_isDuplicate_disk (now : Z) (sym : string) (sd : Side)
  (d : WebhookBot.disk) :
  snd (WebhookBot.isDuplicateSignal now sym sd d)
  = WebhookBot.saveRecentSignals
      (filter (fun r => now - WebhookBot.ts r <=? WebhookBot.DEDUP_WINDOW_MS)%Z
              (WebhookBot.loadRecentSignals d)) d.
Proof.
  unfold WebhookBot.isDuplicateSignal. cbv zeta.
  now destruct (find _ (filter _ (WebhookBot.loadRecentSignals d))).
Qed.

Lemma keep_from_in (clock : nat -> Z) (r : WebhookBot.sent)
  (recent : list WebhookBot.sent) :
  forall k, In r (WebhookBot.keep_from clock k recent)
            <-> exists i, nth_error recent i = Some r
                          /\ (clock (k + i)%nat - WebhookBot.ts r
                              <= WebhookBot.DEDUP_WINDOW_MS)%Z.
Proof.
  induction recent as [| x rest IH]; intros k; cbn [WebhookBot.keep_from].
  - split; [intros [] | intros [[| i] [H _]]; discriminate H].
  - assert (Hsplit : (exists i, nth_error (x :: rest) i = Some r
                                /\ (clock (k + i)%nat - WebhookBot.ts r
                                    <= WebhookBot.DEDUP_WINDOW_MS)%Z)
                     <-> (x = r /\ (clock k - WebhookBot.ts r
                                    <= WebhookBot.DEDUP_WINDOW_MS)%Z)
                         \/ exists i, nth_error rest i = Some r
                                      /\ (clock (S k + i)%nat - WebhookBot.ts r
                                          <= WebhookBot.DEDUP_WINDOW_MS)%Z).
    { split.
      - intros [[| i] [Hn Hc]].
        + injection Hn as ->. left. now rewrite Nat.add_0_r in Hc.
        + right. exists i. split; [exact Hn |].
          now rewrite Nat.add_succ_comm.
      - intros [[-> Hc] | [i [Hn Hc]]].
        + exists 0. split; [reflexivity | now rewrite Nat.add_0_r].
        + exists (S i). split; [exact Hn |].
          now rewrite <- Nat.add_succ_comm. }
    rewrite Hsplit.
    destruct (clock k - WebhookBot.ts x <=? WebhookBot.DEDUP_WINDOW_MS)%Z eqn:E.
    + cbn [In]. rewrite IH. apply Z.leb_le in E.
      split; intros [H | H]; try (now right).
      * left. subst. now split.
      * left. tauto.
    + rewrite IH. apply Z.leb_gt in E.
      split; [now right |]. intros [[-> Hc] | H]; [lia | exact H].
Qed.

(** X23.  [isDuplicateSignal] answers [true] exactly when the file holds an
    entry of that symbol and side at most an hour old; on a writable disk it
    leaves in the file the entries at most an hour old; and a signal that
    [registerSentSignal] has just written is a duplicate for an hour, when
    the clock its filter reads is within the hour too. *)
Theorem registered_signal_is_duplicate (now t0 : Z) (clock : nat -> Z)
  (sym : string) (sd : Side) (d : WebhookBot.disk) :
  (fst (WebhookBot.isDuplicateSignal now sym sd d) = true
   <-> exists r, In r (WebhookBot.loadRecentSignals d)
                 /\ WebhookBot.symbol r = sym /\ WebhookBot.side r = sd
                 /\ (now - WebhookBot.ts r <= 3600000)%Z)
  /\ (WebhookBot.writable d = true ->
      forall r,
        In r (WebhookBot.loadRecentSignals
                (snd (WebhookBot.isDuplicateSignal now sym sd d)))
        <-> In r (WebhookBot.loadRecentSignals d)
            /\ (now - WebhookBot.ts r <= 3600000)%Z)
  /\ (WebhookBot.writable d = true ->
      (forall k, (clock k - t0 <= 3600000)%Z) ->
      (now - t0 <= 3600000)%Z ->
      fst (WebhookBot.isDuplicateSignal now sym sd
             (WebhookBot.registerSentSignal t0 clock sym sd d)) = true).
Proof.
  change 3600000%Z with WebhookBot.DEDUP_WINDOW_MS.
  split; [apply webhook_duplicate_iff |]. split.
  - intros Hw r. rewrite webhook_isDuplicate_disk.
    rewrite webhook_load_saved by exact Hw.
    rewrite filter_In, Z.leb_le. tauto.
  - intros Hw Hclock Hnow. apply webhook_duplicate_iff.
    exists (WebhookBot.mkSent sym sd t0).
    split; [| now repeat split].
    unfold WebhookBot.registerSentSignal. cbv zeta.
    rewrite webhook_load_saved by exact Hw.
    apply keep_from_in.
    exists (length (WebhookBot.loadRecentSignals d)).
    split; [| apply Hclock].
    rewrite nth_error_app2 by lia. now rewrite Nat.sub_diag.
Qed.

Lemma registered_signal_is_duplicate_witness :
  fst (WebhookBot.isDuplicateSignal 3600000 "BTCUSDT" LONG
         (WebhookBot.registerSentSignal 0 (fun _ => 1%Z) "BTCUSDT" LONG
            blankWebhookDisk)) = true.
Proof.
  apply (registered_signal_is_duplicate 3600000 0 (fun _ => 1%Z) "BTCUSDT" LONG
           blankWebhookDisk).
  - reflexivity.
  - intros k. lia.
  - lia.
Defined.

Lemma webhook_removeUser_keeps (id : Z) (d : WebhookBot.disk) :
  WebhookBot.writable (WebhookBot.removeUser id d) = WebhookBot.writable d
  /\ WebhookBot.recentSignalsFile (WebhookBot.removeUser id d)
     = WebhookBot.recentSignalsFile d.
Proof. unfold WebhookBot.removeUser. apply webhook_saveUsers_keeps. Qed.

Lemma webhook_broadcast_from (send : nat -> delivery)
  (users : list WebhookBot.user) :
  forall pos acc d,
    let res := fst (WebhookBot.broadcast_from send pos users acc d) in
    let d1 := snd (WebhookBot.broadcast_from send pos users acc d) in
    success res + fail res = success acc + fail acc + length users
    /\ success res
       = success acc
         + length (filter (fun k => is_delivered (send k))
                          (seq pos (length users)))
    /\ WebhookBot.writable d1 = WebhookBot.writable d
    /\ WebhookBot.recentSignalsFile d1 = WebhookBot.recentSignalsFile d
    /\ (WebhookBot.writable d = true ->
        forall u,
          In u (WebhookBot.loadUsers d1)
          <-> In u (WebhookBot.loadUsers d)
              /\ ~ exists k u',
                     nth_error users k = Some u'
                     /\ WebhookBot.chatId u' = WebhookBot.chatId u
                     /\ send (pos + k) = Rejected (Some 403%Z)).
Proof.
  induction users as [| x rest IH]; intros pos acc d; cbv zeta.
  - cbn [WebhookBot.broadcast_from fst snd length seq filter].
    split; [lia |]. split; [lia |]. split; [reflexivity |].
    split; [reflexivity |]. intros _ u. split; [| tauto].
    intros H. split; [exact H |]. intros [k [u' [Hk _]]].
    destruct k; discriminate Hk.
  - cbn [WebhookBot.broadcast_from length seq filter].
    assert (Hnth : forall (P : nat -> WebhookBot.user -> Prop),
              (exists k u', nth_error (x :: rest) k = Some u' /\ P k u')
              <-> P 0 x \/ exists k u', nth_error rest k = Some u' /\ P (S k) u').
    { intros P. split.
      - intros [[| k] [u' [Hk HP]]].
        + injection Hk as <-. now left.
        + right. now exists k, u'.
      - intros [HP | [k [u' [Hk HP]]]].
        + now exists 0, x.
        + now exists (S k), u'. }
    assert (Hsame : forall acc',
              send pos <> Rejected (Some 403%Z) ->
              let res := fst (WebhookBot.broadcast_from send (S pos) rest acc' d) in
              let d1 := snd (WebhookBot.broadcast_from send (S pos) rest acc' d) in
              WebhookBot.writable d1 = WebhookBot.writable d
              /\ WebhookBot.recentSignalsFile d1 = WebhookBot.recentSignalsFile d
              /\ (WebhookBot.writable d = true ->
                  forall u,
                    In u (WebhookBot.loadUsers d1)
                    <-> In u (WebhookBot.loadUsers d)
                        /\ ~ exists k u',
                               nth_error (x :: rest) k = Some u'
                               /\ WebhookBot.chatId u' = WebhookBot.chatId u
                               /\ send (pos + k) = Rejected (Some 403%Z))).
    { intros acc' Hne. cbv zeta.
      destruct (IH (S pos) acc' d) as [_ [_ [H3 [H4 H5]]]].
      split; [exact H3 |]. split; [exact H4 |].
      intros Hw u. rewrite (H5 Hw u).
      rewrite (Hnth (fun k u' => WebhookBot.chatId u' = WebhookBot.chatId u
                                 /\ send (pos + k) = Rejected (Some 403%Z))).
      rewrite Nat.add_0_r.
      split; intros [Hin Hno]; (split; [exact Hin |]).
      - intros [[_ Hc] | [k [u' [Hk [Hid Hv]]]]]; [contradiction |].
        apply Hno. exists k, u'. now rewrite Nat.add_succ_comm.
      - intros [k [u' [Hk [Hid Hv]]]]. apply Hno. right.
        exists k, u'. now rewrite <- Nat.add_succ_comm. }
    destruct (send pos) as [| [code |]] eqn:V; cbn [is_delivered].
    + destruct (IH (S pos) {| success := S (success acc); fail := fail acc |} d)
        as [H1 [H2 _]]. cbn [success fail] in H1, H2.
      split; [lia |]. split; [cbn [length]; lia |].
      apply Hsame. discriminate.
    + destruct (code =? 403)%Z eqn:C.
      * apply Z.eqb_eq in C. subst code.
        specialize (IH (S pos) {| success := success acc; fail := S (fail acc) |}
                      (WebhookBot.removeUser (WebhookBot.chatId x) d)).
        cbv zeta in IH. cbn [success fail] in IH.
        destruct (webhook_removeUser_keeps (WebhookBot.chatId x) d) as [Kw Ks].
        destruct IH as [H1 [H2 [H3 [H4 H5]]]].
        split; [lia |]. split; [exact H2 |]. split; [congruence |].
        split; [congruence |]. intros Hw u.
        rewrite (H5 ltac:(congruence) u).
        rewrite (webhook_removeUser_load _ _ Hw), filter_In, negb_true_iff,
          Z.eqb_neq.
        rewrite (Hnth (fun k u' => WebhookBot.chatId u' = WebhookBot.chatId u
                                   /\ send (pos + k) = Rejected (Some 403%Z))).
        rewrite Nat.add_0_r, V.
        split.
        -- intros [[Hin Hne] Hno]. split; [exact Hin |].
           intros [[Hc _] | [k [u' [Hk [Hid Hv]]]]]; [congruence |].
           apply Hno. exists k, u'. now rewrite Nat.add_succ_comm.
        -- intros [Hin Hno]. split; [split; [exact Hin |] |].
           ++ intros Heq. apply Hno. left. split; [congruence | reflexivity].
           ++ intros [k [u' [Hk [Hid Hv]]]]. apply Hno. right.
              exists k, u'. now rewrite <- Nat.add_succ_comm.
      * destruct (IH (S pos) {| success := success acc; fail := S (fail acc) |} d)
          as [H1 [H2 _]]. cbn [success fail] in H1, H2.
        split; [lia |]. split; [exact H2 |].
        apply Hsame. intros H. injection H as ->. discriminate C.
    + destruct (IH (S pos) {| success := success acc; fail := S (fail acc) |} d)
        as [H1 [H2 _]]. cbn [success fail] in H1, H2.
      split; [lia |]. split; [exact H2 |].
      apply Hsame. discriminate.
Qed.

(** X24.  [broadcastMessage] of the webhook bot calls [sendMessage] once
    for every subscriber and counts each as a success or as a failure; it
    leaves [recent_signals.json] alone, and on a writable disk the
    subscribers left are those whose chat was not rejected with status
    403. *)
Theorem one_attempt_for_every_subscriber (send : nat -> delivery)
  (d : WebhookBot.disk) :
  let res := fst (WebhookBot.broadcastMessage send d) in
  let d1 := snd (WebhookBot.broadcastMessage send d) in
  let users := WebhookBot.loadUsers d in
  success res + fail res = length users
  /\ success res
     = length (filter (fun k => is_delivered (send k)) (seq 0 (length users)))
  /\ WebhookBot.recentSignalsFile d1 = WebhookBot.recentSignalsFile d
  /\ (WebhookBot.writable d = true ->
      forall u,
        In u (WebhookBot.loadUsers d1)
        <-> In u users
            /\ ~ exists k u',
                   nth_error users k = Some u'
                   /\ WebhookBot.chatId u' = WebhookBot.chatId u
                   /\ send k = Rejected (Some 403%Z)).
Proof.
  cbv zeta. unfold WebhookBot.broadcastMessage.
  destruct (webhook_broadcast_from send (WebhookBot.loadUsers d) 0
              {| success := 0; fail := 0 |} d) as [H1 [H2 [_ [H4 H5]]]].
  cbn [success fail] in H1, H2.
  split; [exact H1 |]. split; [exact H2 |]. split; [exact H4 |].
  exact H5.
Qed.

Lemma webhook_announced_iff (sym : string) (sd : Side)
  (es : list (string * WebhookBot.event)) :
  webhook_announced sym sd es = true
  <-> exists sig res, In (sym, WebhookBot.Broadcast sig res) es
                      /\ Priority.side sig = sd.
Proof.
  unfold webhook_announced. rewrite existsb_exists. split.
  - intros [[s e] [Hin H]]. apply andb_true_iff in H. destruct H as [Hs He].
    apply String.eqb_eq in Hs. subst s.
    destruct e as [| sd' | sig res]; try discriminate He.
    apply side_eqb_eq in He. now exists sig, res.
  - intros [sig [res [Hin Hsd]]]. exists (sym, WebhookBot.Broadcast sig res).
    split; [exact Hin |]. rewrite String.eqb_refl. cbn [andb].
    now apply side_eqb_eq.
Qed.

Lemma webhook_scanSymbol_unfold (sqrtQ : Q -> Q) (w : WebhookBot.turn)
  (sym : string) (d : WebhookBot.disk) :
  WebhookBot.scanSymbol sqrtQ w sym d
  = match Priority.analyzePhysics sqrtQ (WebhookBot.net w) sym with
    | Returned (Some sig) =>
        let check :=
          WebhookBot.isDuplicateSignal (WebhookBot.checkedAt w) sym
                                       (Priority.side sig) d in
        if fst check then (WebhookBot.Skipped (Priority.side sig), snd check)
        else
          let sent :=
            WebhookBot.broadcastMessage (WebhookBot.send w)
              (WebhookBot.registerSentSignal (WebhookBot.registeredAt w)
                 (WebhookBot.filteredAt w) sym (Priority.side sig) (snd check)) in
          (WebhookBot.Broadcast sig (fst sent), snd sent)
    | _ => (WebhookBot.NoSignal, d)
    end.
Proof.
  unfold WebhookBot.scanSymbol.
  destruct (Priority.analyzePhysics sqrtQ (WebhookBot.net w) sym)
    as [[sig |] | msg]; try reflexivity.
  destruct (WebhookBot.isDuplicateSignal _ _ _ _) as [dup d1]. cbn [fst snd].
  destruct dup; [reflexivity |]. cbv zeta.
  now destruct (WebhookBot.broadcastMessage _ _).
Qed.

Lemma webhook_broadcast_keeps (send : nat -> delivery) (d : WebhookBot.disk) :
  WebhookBot.writable (snd (WebhookBot.broadcastMessage send d))
  = WebhookBot.writable d
  /\ WebhookBot.recentSignalsFile (snd (WebhookBot.broadcastMessage send d))
     = WebhookBot.recentSignalsFile d.
Proof.
  unfold WebhookBot.broadcastMessage.
  destruct (webhook_broadcast_from send (WebhookBot.loadUsers d) 0
              {| success := 0; fail := 0 |} d) as [_ [_ [H3 [H4 _]]]].
  now split.
Qed.

Lemma webhook_purge_keeps (now : Z) (r : WebhookBot.sent) (d : WebhookBot.disk) :
  In r (WebhookBot.loadRecentSignals d) ->
  (now - WebhookBot.ts r <= WebhookBot.DEDUP_WINDOW_MS)%Z ->
  In r (WebhookBot.loadRecentSignals
          (WebhookBot.saveRecentSignals
             (filter (fun r => now - WebhookBot.ts r
                               <=? WebhookBot.DEDUP_WINDOW_MS)%Z
                     (WebhookBot.loadRecentSignals d)) d)).
Proof.
  intros Hin Hnow. unfold WebhookBot.saveRecentSignals.
  destruct (WebhookBot.writable d); [| exact Hin].
  unfold WebhookBot.loadRecentSignals at 1.
  cbn [WebhookBot.recentSignalsFile readJson].
  apply filter_In. split; [exact Hin | now apply Z.leb_le].
Qed.

Lemma webhook_register_keeps (t0 : Z) (clock : nat -> Z) (sym : string)
  (sd : Side) (r : WebhookBot.sent) (d : WebhookBot.disk) :
  In r (WebhookBot.loadRecentSignals d) ->
  (forall k, (clock k - WebhookBot.ts r <= WebhookBot.DEDUP_WINDOW_MS)%Z) ->
  In r (WebhookBot.loadRecentSignals
          (WebhookBot.registerSentSignal t0 clock sym sd d)).
Proof.
  intros Hin Hclock.
  unfold WebhookBot.registerSentSignal, WebhookBot.saveRecentSignals. cbv zeta.
  destruct (WebhookBot.writable d); [| exact Hin].
  unfold WebhookBot.loadRecentSignals at 1.
  cbn [WebhookBot.recentSignalsFile readJson].
  apply keep_from_in. apply In_nth_error in Hin. destruct Hin as [i Hi].
  exists i. split; [| apply Hclock].
  rewrite nth_error_app1; [exact Hi |].
  apply nth_error_Some. now rewrite Hi.
Qed.

Lemma webhook_turn_keeps_record (sqrtQ : Q -> Q) (w : WebhookBot.turn)
  (sym : string) (r : WebhookBot.sent) (d : WebhookBot.disk) :
  In r (WebhookBot.loadRecentSignals d) ->
  (WebhookBot.checkedAt w - WebhookBot.ts r <= WebhookBot.DEDUP_WINDOW_MS)%Z ->
  (forall k, (WebhookBot.filteredAt w k - WebhookBot.ts r
              <= WebhookBot.DEDUP_WINDOW_MS)%Z) ->
  In r (WebhookBot.loadRecentSignals (snd (WebhookBot.scanSymbol sqrtQ w sym d))).
Proof.
  intros Hin Hnow Hclock. rewrite webhook_scanSymbol_unfold.
  destruct (Priority.analyzePhysics sqrtQ (WebhookBot.net w) sym)
    as [[sig |] | msg]; try exact Hin.
  cbv zeta. rewrite webhook_isDuplicate_disk.
  pose proof (webhook_purge_keeps _ _ _ Hin Hnow) as Hp.
  destruct (fst (WebhookBot.isDuplicateSignal _ _ _ _)); cbn [snd];
    [exact Hp |].
  unfold WebhookBot.loadRecentSignals.
  rewrite (proj2 (webhook_broadcast_keeps _ _)).
  now apply webhook_register_keeps.
Qed.

Lemma webhook_turn_writable (sqrtQ : Q -> Q) (w : WebhookBot.turn)
  (sym : string) (d : WebhookBot.disk) :
  WebhookBot.writable (snd (WebhookBot.scanSymbol sqrtQ w sym d))
  = WebhookBot.writable d.
Proof.
  rewrite webhook_scanSymbol_unfold.
  destruct (Priority.analyzePhysics sqrtQ (WebhookBot.net w) sym)
    as [[sig |] | msg]; try reflexivity.
  cbv zeta. rewrite webhook_isDuplicate_disk.
  destruct (fst (WebhookBot.isDuplicateSignal _ _ _ _)); cbn [snd].
  - apply webhook_save_keeps.
  - rewrite (proj1 (webhook_broadcast_keeps _ _)).
    unfold WebhookBot.registerSentSignal. cbv zeta.
    rewrite (proj1 (webhook_save_keeps _ _)).
    apply webhook_save_keeps.
Qed.

Lemma webhook_turn_records (sqrtQ : Q -> Q) (w : WebhookBot.turn)
  (sym : string) (d : WebhookBot.disk) (sig : Priority.signal) (res : tally) :
  WebhookBot.writable d = true ->
  (forall k, (WebhookBot.filteredAt w k - WebhookBot.registeredAt w
              <= WebhookBot.DEDUP_WINDOW_MS)%Z) ->
  fst (WebhookBot.scanSymbol sqrtQ w sym d) = WebhookBot.Broadcast sig res ->
  In (WebhookBot.mkSent sym (Priority.side sig) (WebhookBot.registeredAt w))
     (WebhookBot.loadRecentSignals (snd (WebhookBot.scanSymbol sqrtQ w sym d))).
Proof.
  intros Hw Hclock. rewrite webhook_scanSymbol_unfold.
  destruct (Priority.analyzePhysics sqrtQ (WebhookBot.net w) sym)
    as [[sig' |] | msg]; try (cbn [fst]; discriminate).
  cbv zeta. rewrite webhook_isDuplicate_disk.
  destruct (fst (WebhookBot.isDuplicateSignal _ _ _ _)); cbn [fst snd];
    [discriminate |].
  intros H. injection H as -> _.
  unfold WebhookBot.loadRecentSignals.
  rewrite (proj2 (webhook_broadcast_keeps _ _)).
  change (readJson (WebhookBot.recentSignalsFile ?x))
    with (WebhookBot.loadRecentSignals x).
  unfold WebhookBot.registerSentSignal. cbv zeta.
  rewrite webhook_load_saved
    by (now rewrite (proj1 (webhook_save_keeps _ _))).
  apply keep_from_in.
  eexists. split; [| apply Hclock].
  rewrite nth_error_app2 by apply Nat.le_refl. now rewrite Nat.sub_diag.
Qed.

Lemma webhook_turn_skips (sqrtQ : Q -> Q) (w : WebhookBot.turn) (sym : string)
  (d : WebhookBot.disk) (r : WebhookBot.sent) (sig : Priority.signal)
  (res : tally) :
  In r (WebhookBot.loadRecentSignals d) -> WebhookBot.symbol r = sym ->
  (WebhookBot.checkedAt w - WebhookBot.ts r <= WebhookBot.DEDUP_WINDOW_MS)%Z ->
  fst (WebhookBot.scanSymbol sqrtQ w sym d) = WebhookBot.Broadcast sig res ->
  Priority.side sig <> WebhookBot.side r.
Proof.
  intros Hin Hsym Hnow. rewrite webhook_scanSymbol_unfold.
  destruct (Priority.analyzePhysics sqrtQ (WebhookBot.net w) sym)
    as [[sig' |] | msg]; try (cbn [fst]; discriminate).
  cbv zeta.
  destruct (fst (WebhookBot.isDuplicateSignal _ _ _ _)) eqn:E; cbn [fst];
    [discriminate |].
  intros H Hside. injection H as -> _.
  assert (Hdup : fst (WebhookBot.isDuplicateSignal (WebhookBot.checkedAt w) sym
                        (Priority.side sig) d) = true).
  { apply webhook_duplicate_iff. exists r. now repeat split. }
  congruence.
Qed.

Lemma webhook_scan_cons (sqrtQ : Q -> Q) (world : string -> WebhookBot.turn)
  (s : string) (rest : list string) (d : WebhookBot.disk) :
  let step := WebhookBot.scanSymbol sqrtQ (world s) s d in
  let tail := WebhookBot.scan_from sqrtQ world rest (snd step) in
  WebhookBot.scan_from sqrtQ world (s :: rest) d
  = ((s, fst step) :: fst tail, snd tail).
Proof.
  cbv zeta. cbn [WebhookBot.scan_from].
  destruct (WebhookBot.scanSymbol sqrtQ (world s) s d) as [e d1]. cbn [fst snd].
  now destruct (WebhookBot.scan_from sqrtQ world rest d1).
Qed.

Section WebhookPass.

Variable sqrtQ : Q -> Q.
Variable world : string -> WebhookBot.turn.
Variable t0 : Z.
Hypothesis checked_in_window :
  forall s, (WebhookBot.checkedAt (world s) - t0 <= WebhookBot.DEDUP_WINDOW_MS)%Z.
Hypothesis filtered_in_window :
  forall s k, (WebhookBot.filteredAt (world s) k - t0
               <= WebhookBot.DEDUP_WINDOW_MS)%Z.

Lemma webhook_scan_keeps_record (r : WebhookBot.sent) (symbols : list string) :
  WebhookBot.ts r = t0 ->
  forall d, In r (WebhookBot.loadRecentSignals d) ->
            In r (WebhookBot.loadRecentSignals
                    (snd (WebhookBot.scan_from sqrtQ world symbols d))).
Proof.
  intros Hts. induction symbols as [| s rest IH]; intros d Hin; [exact Hin |].
  rewrite webhook_scan_cons. cbv zeta. cbn [snd].
  apply IH. apply webhook_turn_keeps_record; [exact Hin | |]; rewrite Hts.
  - apply checked_in_window.
  - apply filtered_in_window.
Qed.

Lemma webhook_scan_records (sym : string) (sig : Priority.signal) (res : tally)
  (symbols : list string) :
  WebhookBot.registeredAt (world sym) = t0 ->
  forall d, WebhookBot.writable d = true ->
            In (sym, WebhookBot.Broadcast sig res)
               (fst (WebhookBot.scan_from sqrtQ world symbols d)) ->
            In (WebhookBot.mkSent sym (Priority.side sig) t0)
               (WebhookBot.loadRecentSignals
                  (snd (WebhookBot.scan_from sqrtQ world symbols d))).
Proof.
  intros Ht0. induction symbols as [| s rest IH]; intros d Hw Hin;
    [contradiction |].
  rewrite webhook_scan_cons in Hin |- *.
  cbv zeta in Hin |- *. cbn [fst snd] in Hin |- *.
  destruct Hin as [Heq | Hin].
  - injection Heq as -> He.
    apply webhook_scan_keeps_record; [reflexivity |].
    rewrite <- Ht0.
    apply webhook_turn_records with (res := res); [exact Hw | | exact He].
    intros k. rewrite Ht0. apply filtered_in_window.
  - apply IH; [now rewrite webhook_turn_writable | exact Hin].
Qed.

Lemma webhook_scan_skips (sym : string) (sig : Priority.signal) (res : tally)
  (r : WebhookBot.sent) (symbols : list string) :
  WebhookBot.symbol r = sym -> WebhookBot.ts r = t0 ->
  forall d, In r (WebhookBot.loadRecentSignals d) ->
            In (sym, WebhookBot.Broadcast sig res)
               (fst (WebhookBot.scan_from sqrtQ world symbols d)) ->
            Priority.side sig <> WebhookBot.side r.
Proof.
  intros Hsym Hts.
  induction symbols as [| s rest IH]; intros d Hr Hin; [contradiction |].
  rewrite webhook_scan_cons in Hin. cbv zeta in Hin. cbn [fst] in Hin.
  destruct Hin as [Heq | Hin].
  - injection Heq as -> He.
    apply (webhook_turn_skips sqrtQ (world sym) sym d r sig res);
      try assumption.
    rewrite Hts. apply checked_in_window.
  - apply (IH (snd (WebhookBot.scanSymbol sqrtQ (world s) s d))); [| exact Hin].
    apply webhook_turn_keeps_record; [exact Hr | |]; rewrite Hts.
    + apply checked_in_window.
    + apply filtered_in_window.
Qed.

End WebhookPass.

(** X25.  Two passes of [scannerPass] in a row on a writable disk, every
    clock reading of both within the hour that follows the registration of a
    broadcast in the first: the second pass does not broadcast that symbol
    with that side again. *)
Theorem no_repeat_while_registered (sqrtQ : Q -> Q)
  (world1 world2 : string -> WebhookBot.turn) (d : WebhookBot.disk)
  (sym : string) (sd : Side)
  (Hw : WebhookBot.writable d = true)
  (Hchecked1 : forall s,
      (WebhookBot.checkedAt (world1 s) - WebhookBot.registeredAt (world1 sym)
       <= 3600000)%Z)
  (Hfiltered1 : forall s k,
      (WebhookBot.filteredAt (world1 s) k - WebhookBot.registeredAt (world1 sym)
       <= 3600000)%Z)
  (Hchecked2 : forall s,
      (WebhookBot.checkedAt (world2 s) - WebhookBot.registeredAt (world1 sym)
       <= 3600000)%Z)
  (Hfiltered2 : forall s k,
      (WebhookBot.filteredAt (world2 s) k - WebhookBot.registeredAt (world1 sym)
       <= 3600000)%Z) :
  let pass1 := WebhookBot.scannerPass sqrtQ world1 d in
  let pass2 := WebhookBot.scannerPass sqrtQ world2 (snd pass1) in
  webhook_announced sym sd (fst pass1) = true ->
  webhook_announced sym sd (fst pass2) = false.
Proof.
  cbv zeta. unfold WebhookBot.scannerPass. intros H1.
  apply webhook_announced_iff in H1. destruct H1 as [sig1 [res1 [Hin1 Hsd1]]].
  destruct (webhook_announced sym sd _) eqn:H2; [| reflexivity].
  exfalso.
  apply webhook_announced_iff in H2. destruct H2 as [sig2 [res2 [Hin2 Hsd2]]].
  pose proof (webhook_scan_records sqrtQ world1
                (WebhookBot.registeredAt (world1 sym)) Hchecked1 Hfiltered1
                sym sig1 res1 WebhookBot.SYMBOLS eq_refl d Hw Hin1) as Hrec.
  apply (webhook_scan_skips sqrtQ world2
           (WebhookBot.registeredAt (world1 sym)) Hchecked2 Hfiltered2
           sym sig2 res2
           (WebhookBot.mkSent sym (Priority.side sig1)
              (WebhookBot.registeredAt (world1 sym)))
           WebhookBot.SYMBOLS eq_refl eq_refl _ Hrec Hin2).
  cbn [WebhookBot.side]. congruence.
Qed.

Lemma no_repeat_while_registered_witness :
  webhook_announced "BTCUSDT" LONG
    (fst (WebhookBot.scannerPass sqrtFloor (bitcoinSlidesWebhook 0)
            blankWebhookDisk)) = true
  /\ webhook_announced "BTCUSDT" LONG
       (fst (WebhookBot.scannerPass sqrtFloor (bitcoinSlidesWebhook 300000)
               (snd (WebhookBot.scannerPass sqrtFloor (bitcoinSlidesWebhook 0)
                       blankWebhookDisk)))) = false.
Proof.
  assert (Hw : WebhookBot.writable blankWebhookDisk = true) by reflexivity.
  assert (H1 : webhook_announced "BTCUSDT" LONG
                 (fst (WebhookBot.scannerPass sqrtFloor (bitcoinSlidesWebhook 0)
                         blankWebhookDisk)) = true)
    by (vm_compute; reflexivity).
  split; [exact H1 |].
  apply (no_repeat_while_registered sqrtFloor (bitcoinSlidesWebhook 0)
           (bitcoinSlidesWebhook 300000) blankWebhookDisk "BTCUSDT" LONG Hw);
    try (intros;
         cbn [WebhookBot.checkedAt WebhookBot.registeredAt
              WebhookBot.filteredAt bitcoinSlidesWebhook]; lia).
  exact H1.
Defined.

(** ** Failures of the disk, the log of a pass, the unused helper *)

Lemma bot_unwritable_writes (d : Bot.disk) :
  Bot.writable d = false ->
  (forall arr, Bot.writeUsers arr d = d)
  /\ (forall arr, Bot.writeSignals arr d = d).
Proof.
  intros H. split; intros arr; unfold Bot.writeUsers, Bot.writeSignals;
    now rewrite H.
Qed.

Lemma bot_unwritable_broadcast (send : nat -> nat -> delivery)
  (users : list Bot.user) (d : Bot.disk) :
  Bot.writable d = false ->
  forall pos acc, snd (Bot.broadcast_from send pos users acc d) = d.
Proof.
  intros H. induction users as [| u rest IH]; intros pos acc;
    cbn [Bot.broadcast_from]; [reflexivity |].
  destruct (Bot.attemptsLoop (send pos) 0 3); try apply IH.
  unfold Bot.removeUser. rewrite (proj1 (bot_unwritable_writes d H)). apply IH.
Qed.

(** X26.  On a disk that cannot be written every write of the polling bot is
    swallowed: [addUser] still returns [true] for a new chat but saves
    nothing, [removeUser], [recordSignal], the purge of [isDuplicateRecent]
    and [broadcastMessage] leave the disk as it was, a signal that has just
    been recorded is no more a duplicate than before, and so is any turn of
    the scanner. *)
Theorem unwritable_disk_forgets (sqrtQ : Q -> Q) (d : Bot.disk)
  (Hro : Bot.writable d = false) :
  (forall now id info,
     snd (Bot.addUser now id info d) = d
     /\ (~ In id (map Bot.chatId (Bot.readUsers d)) ->
         fst (Bot.addUser now id info d) = true))
  /\ (forall id, Bot.removeUser id d = d)
  /\ (forall now sym sd, Bot.recordSignal now sym sd d = d)
  /\ (forall now sym sd w, snd (Bot.isDuplicateRecent now sym sd w d) = d)
  /\ (forall send, snd (Bot.broadcastMessage send d) = d)
  /\ (forall t0 now sym sd w,
        fst (Bot.isDuplicateRecent now sym sd w (Bot.recordSignal t0 sym sd d))
        = fst (Bot.isDuplicateRecent now sym sd w d))
  /\ (forall w sym, snd (Bot.scanSymbol sqrtQ w sym d) = d).
Proof.
  destruct (bot_unwritable_writes d Hro) as [Hu Hs].
  assert (Hrec : forall now sym sd, Bot.recordSignal now sym sd d = d)
    by (intros; apply Hs).
  assert (Hdup : forall now sym sd w,
             snd (Bot.isDuplicateRecent now sym sd w d) = d)
    by (intros; rewrite bot_isDuplicate_disk; apply Hs).
  assert (Hbc : forall send, snd (Bot.broadcastMessage send d) = d)
    by (intros; now apply bot_unwritable_broadcast).
  split; [| split; [| split; [| split; [| split; [| split]]]]].
  - intros now id info.
    pose proof (bot_find_user id (Bot.readUsers d)) as Hfind.
    unfold Bot.addUser. cbv zeta.
    destruct (find (fun u => Bot.chatId u =? id)%Z (Bot.readUsers d))
      as [u |]; cbn [fst snd].
    + split; [reflexivity |]. intros Hnew. exfalso. apply Hnew.
      destruct Hfind as [Hin Hid]. apply in_map_iff. now exists u.
    + split; [apply Hu | reflexivity].
  - intros id. apply Hu.
  - exact Hrec.
  - exact Hdup.
  - exact Hbc.
  - intros t0 now sym sd w. now rewrite Hrec.
  - intros w sym. rewrite bot_scanSymbol_unfold.
    destruct (Shuffled.analyzePhysics sqrtQ (Bot.rnd w) (Bot.net w) sym 120)
      as [[sig |] | msg]; try reflexivity.
    cbv zeta. rewrite Hdup.
    destruct (fst (Bot.isDuplicateRecent _ _ _ _ _)); cbn [snd];
      [reflexivity |].
    now rewrite Hrec, Hbc.
Qed.

Lemma unwritable_disk_forgets_witness :
  fst (Bot.addUser 1000 42 "ann" readOnlyDisk) = true
  /\ snd (Bot.addUser 1000 42 "ann" readOnlyDisk) = readOnlyDisk
  /\ fst (Bot.isDuplicateRecent 1 "BTC/USDT" LONG 3600
            (Bot.recordSignal 0 "BTC/USDT" LONG readOnlyDisk))
     = fst (Bot.isDuplicateRecent 1 "BTC/USDT" LONG 3600 readOnlyDisk).
Proof.
  assert (Hro : Bot.writable readOnlyDisk = false) by reflexivity.
  destruct (unwritable_disk_forgets sqrtFloor readOnlyDisk Hro)
    as [Hadd [_ [_ [_ [_ [Hdup _]]]]]].
  destruct (Hadd 1000%Z 42%Z "ann"%string) as [Hsame Htrue].
  split; [| split; [exact Hsame | apply Hdup]].
  apply Htrue. simpl. intros [H | []]. discriminate H.
Defined.

Lemma shuffled_analyze_never_raises (sqrtQ : Q -> Q) (rnd : nat -> nat)
  (net : Shuffled.source -> attempt) (sym : string) (limit : Z) (msg : string) :
  Shuffled.analyzePhysics sqrtQ rnd net sym limit <> Raised msg.
Proof.
  unfold Shuffled.analyzePhysics. cbv zeta.
  now destruct (Shuffled.fetchCandlesFallback rnd net _).
Qed.

Lemma priority_analyze_never_raises (sqrtQ : Q -> Q)
  (net : Priority.source -> attempt) (sym : string) (msg : string) :
  Priority.analyzePhysics sqrtQ net sym <> Raised msg.
Proof.
  unfold Priority.analyzePhysics.
  now destruct (Priority.fetchCandlesMulti net) as [[cs |] | m].
Qed.

Lemma bot_scan_log (sqrtQ : Q -> Q) (world : string -> Bot.turn)
  (symbols : list string) :
  forall d,
    map fst (fst (Bot.scan_from sqrtQ world symbols d)) = symbols
    /\ forall sym e,
         In (sym, e) (fst (Bot.scan_from sqrtQ world symbols d)) ->
         match e with
         | Bot.Broadcast sig _ =>
             Shuffled.analyzePhysics sqrtQ (Bot.rnd (world sym))
               (Bot.net (world sym)) sym 120 = Returned (Some sig)
         | Bot.Skipped sd =>
             exists sig,
               Shuffled.analyzePhysics sqrtQ (Bot.rnd (world sym))
                 (Bot.net (world sym)) sym 120 = Returned (Some sig)
               /\ Shuffled.side sig = sd
         | Bot.NoSignal =>
             Shuffled.analyzePhysics sqrtQ (Bot.rnd (world sym))
               (Bot.net (world sym)) sym 120 = Returned None
         end.
Proof.
  induction symbols as [| s rest IH]; intros d.
  - split; [reflexivity | intros sym e []].
  - rewrite bot_scan_cons. cbv zeta. cbn [fst map].
    destruct (IH (snd (Bot.scanSymbol sqrtQ (world s) s d))) as [Hmap Hin].
    split; [now rewrite Hmap |].
    intros sym e [Heq | H]; [| now apply Hin].
    injection Heq as -> <-.
    rewrite bot_scanSymbol_unfold.
    destruct (Shuffled.analyzePhysics sqrtQ (Bot.rnd (world sym))
                (Bot.net (world sym)) sym 120) as [[sig |] | msg] eqn:E.
    + cbv zeta.
      destruct (fst (Bot.isDuplicateRecent _ _ _ _ _)); cbn [fst].
      * now exists sig.
      * reflexivity.
    + reflexivity.
    + exfalso. exact (shuffled_analyze_never_raises _ _ _ _ _ _ E).
Qed.

(** X27.  A pass of [scanAllSymbols] handles the symbols of [SYMBOLS] once
    each, in their order, and leaves [isScanning] false; it broadcasts or
    skips a symbol only with the signal that [analyzePhysics] returned for
    it, and does neither when [analyzePhysics] returned [null]; called while
    [isScanning] is set, it does nothing. *)
Theorem pass_follows_the_symbols (sqrtQ : Q -> Q) (world : string -> Bot.turn)
  (d : Bot.disk) :
  let pass := Bot.scanAllSymbols sqrtQ world false d in
  map fst (fst (fst pass)) = Bot.SYMBOLS
  /\ snd (fst pass) = false
  /\ (forall sym e,
        In (sym, e) (fst (fst pass)) ->
        match e with
        | Bot.Broadcast sig _ =>
            Shuffled.analyzePhysics sqrtQ (Bot.rnd (world sym))
              (Bot.net (world sym)) sym 120 = Returned (Some sig)
        | Bot.Skipped sd =>
            exists sig,
              Shuffled.analyzePhysics sqrtQ (Bot.rnd (world sym))
                (Bot.net (world sym)) sym 120 = Returned (Some sig)
              /\ Shuffled.side sig = sd
        | Bot.NoSignal =>
            Shuffled.analyzePhysics sqrtQ (Bot.rnd (world sym))
              (Bot.net (world sym)) sym 120 = Returned None
        end)
  /\ Bot.scanAllSymbols sqrtQ world true d = ([], true, d).
Proof.
  cbv zeta. unfold Bot.scanAllSymbols.
  destruct (bot_scan_log sqrtQ world Bot.SYMBOLS d) as [Hmap Hin].
  destruct (Bot.scan_from sqrtQ world Bot.SYMBOLS d) as [es d1].
  cbn [fst snd] in *.
  split; [exact Hmap |]. split; [reflexivity |]. split; [exact Hin |].
  reflexivity.
Qed.

Lemma webhook_scan_log (sqrtQ : Q -> Q) (world : string -> WebhookBot.turn)
  (symbols : list string) :
  forall d,
    map fst (fst (WebhookBot.scan_from sqrtQ world symbols d)) = symbols
    /\ forall sym e,
         In (sym, e) (fst (WebhookBot.scan_from sqrtQ world symbols d)) ->
         match e with
         | WebhookBot.Broadcast sig _ =>
             Priority.analyzePhysics sqrtQ (WebhookBot.net (world sym)) sym
             = Returned (Some sig)
         | WebhookBot.Skipped sd =>
             exists sig,
               Priority.analyzePhysics sqrtQ (WebhookBot.net (world sym)) sym
               = Returned (Some sig)
               /\ Priority.side sig = sd
         | WebhookBot.NoSignal =>
             Priority.analyzePhysics sqrtQ (WebhookBot.net (world sym)) sym
             = Returned None
         end.
Proof.
  induction symbols as [| s rest IH]; intros d.
  - split; [reflexivity | intros sym e []].
  - rewrite webhook_scan_cons. cbv zeta. cbn [fst map].
    destruct (IH (snd (WebhookBot.scanSymbol sqrtQ (world s) s d)))
      as [Hmap Hin].
    split; [now rewrite Hmap |].
    intros sym e [Heq | H]; [| now apply Hin].
    injection Heq as -> <-.
    rewrite webhook_scanSymbol_unfold.
    destruct (Priority.analyzePhysics sqrtQ (WebhookBot.net (world sym)) sym)
      as [[sig |] | msg] eqn:E.
    + cbv zeta.
      destruct (fst (WebhookBot.isDuplicateSignal _ _ _ _)); cbn [fst].
      * now exists sig.
      * reflexivity.
    + reflexivity.
    + exfalso. exact (priority_analyze_never_raises _ _ _ _ E).
Qed.

(** X28.  A pass of [scannerPass] handles the symbols of [SYMBOLS] once
    each, in their order; it broadcasts or skips a symbol only with the
    signal that [analyzePhysics] returned for it, and does neither when
    [analyzePhysics] returned [null]. *)
Theorem webhook_pass_follows_the_symbols (sqrtQ : Q -> Q)
  (world : string -> WebhookBot.turn) (d : WebhookBot.disk) :
  let pass := WebhookBot.scannerPass sqrtQ world d in
  map fst (fst pass) = WebhookBot.SYMBOLS
  /\ (forall sym e,
        In (sym, e) (fst pass) ->
        match e with
        | WebhookBot.Broadcast sig _ =>
            Priority.analyzePhysics sqrtQ (WebhookBot.net (world sym)) sym
            = Returned (Some sig)
        | WebhookBot.Skipped sd =>
            exists sig,
              Priority.analyzePhysics sqrtQ (WebhookBot.net (world sym)) sym
              = Returned (Some sig)
              /\ Priority.side sig = sd
        | WebhookBot.NoSignal =>
            Priority.analyzePhysics sqrtQ (WebhookBot.net (world sym)) sym
            = Returned None
        end).
Proof.
  cbv zeta. unfold WebhookBot.scannerPass.
  exact (webhook_scan_log sqrtQ world WebhookBot.SYMBOLS d).
Qed.

Lemma nth_error_slice {A : Type} (a b : nat) (arr : list A) (k : nat) :
  k < b - a -> nth_error (slice a b arr) k = nth_error arr (a + k).
Proof.
  intros H. unfold slice. rewrite nth_error_firstn.
  destruct (Nat.ltb_spec k (b - a)); [| lia].
  apply nth_error_skipn.
Qed.

(** X29.  [rolling(arr, window, idx)], for an index inside the array,
    returns the [min(window, idx + 1)] elements that end at [arr[idx]], and
    the window that [sma] averages at an index is the one [rolling] returns
    there. *)
Theorem rolling_window (arr : list jsnum) (window idx : nat)
  (Hidx : idx < length arr) :
  length (rolling arr window idx) = Nat.min window (idx + 1)
  /\ (forall k, k < Nat.min window (idx + 1) ->
        nth_error (rolling arr window idx) k
        = nth_error arr (idx + 1 - Nat.min window (idx + 1) + k))
  /\ at_numv (Shuffled.sma arr window) idx
     = VNum (jdiv (fold_left (fun a b => jadd a (jor b (Fin 0)))
                     (rolling arr window idx) (Fin 0))
                  (ofNat (length (rolling arr window idx)))).
Proof.
  unfold rolling. split; [| split].
  - rewrite length_slice by lia. lia.
  - intros k Hk. rewrite nth_error_slice by lia. f_equal. lia.
  - unfold Shuffled.sma. now rewrite at_numv_for_from by exact Hidx.
Qed.

Lemma rolling_window_witness :
  length (rolling steps 3 4) = 3
  /\ nth_error (rolling steps 3 4) 2 = nth_error steps 4.
Proof.
  assert (Hidx : 4 < length steps) by (simpl; lia).
  destruct (rolling_window steps 3 4 Hidx) as [Hlen [Hnth _]].
  split; [exact Hlen |].
  apply (Hnth 2). simpl. lia.
Defined.
